(** * Optima: a shallow embedding of the numerical core and its contracts.

    The development follows the C++ sources of the library.  Each module
    embeds one translation unit:

    - [Dbl]               the values a C++ [double] takes (NaN, infinities,
                          finite numbers in exact arithmetic);
    - [ResidualFunction]  src/Optima/ResidualFunction.cpp;
    - [LU]                src/Optima/LU.cpp;
    - [Stepper]           src/Optima/Stepper.cpp;
    - [NewtonStep]        src/Optima/NewtonStep.cpp;
    - [BasicSolver]       src/Optima/BasicSolver.cpp;
    - [Echelonizer]       src/Optima/Echelonizer.cpp;
    - [Exception]         src/Optima/Exception.cpp.

    Finite numbers are rationals: arithmetic on them is exact, rounding is
    not modelled.  The linear-algebra identities of the echelonizer are
    therefore statements of exact arithmetic. *)

From Stdlib Require Import QArith Qabs Qminmax Lqa.
From Stdlib Require Import List Bool Arith Lia ZArith.
From Stdlib Require Import Permutation Sorted.
From Stdlib Require Ascii String DecimalString.
Import ListNotations.

Set Implicit Arguments.

(* ================================================================== *)
(** ** Values of type [double] *)
(* ================================================================== *)

Module Dbl.

(** A [double] is a NaN, an infinity or a finite number. *)
Inductive double : Type :=
| NaN
| NInf
| Fin (q : Q)
| PInf.

Definition Qltb (a b : Q) : bool :=
  match a ?= b with Lt => true | _ => false end.

(** [a < b]; every comparison with a NaN is false. *)
Definition ltb (a b : double) : bool :=
  match a, b with
  | NaN, _ | _, NaN => false
  | NInf, NInf => false
  | NInf, _ => true
  | Fin _, NInf => false
  | Fin x, Fin y => Qltb x y
  | Fin _, PInf => true
  | PInf, _ => false
  end.

Definition gtb (a b : double) : bool := ltb b a.

(** [a <= b]. *)
Definition leb (a b : double) : bool :=
  match a, b with
  | NaN, _ | _, NaN => false
  | NInf, _ => true
  | Fin _, NInf => false
  | Fin x, Fin y => Qle_bool x y
  | Fin _, PInf => true
  | PInf, PInf => true
  | PInf, _ => false
  end.

Definition geb (a b : double) : bool := leb b a.

Definition isNaN (a : double) : bool :=
  match a with NaN => true | _ => false end.

Definition isInf (a : double) : bool :=
  match a with NInf | PInf => true | _ => false end.

Definition isfinite (a : double) : bool :=
  match a with Fin _ => true | _ => false end.

Definition neg (a : double) : double :=
  match a with
  | NaN => NaN
  | NInf => PInf
  | Fin x => Fin (- x)
  | PInf => NInf
  end.

Definition add (a b : double) : double :=
  match a, b with
  | NaN, _ | _, NaN => NaN
  | NInf, PInf | PInf, NInf => NaN
  | NInf, _ | _, NInf => NInf
  | PInf, _ | _, PInf => PInf
  | Fin x, Fin y => Fin (x + y)
  end.

Definition sub (a b : double) : double := add a (neg b).

(** The sign of a finite or infinite value, used by [mul]. *)
Definition sgn (a : double) : comparison :=
  match a with
  | NaN => Eq
  | NInf => Lt
  | Fin x => x ?= 0
  | PInf => Gt
  end.

Definition mul (a b : double) : double :=
  match a, b with
  | NaN, _ | _, NaN => NaN
  | Fin x, Fin y => Fin (x * y)
  | _, _ =>
      match sgn a, sgn b with
      | Eq, _ | _, Eq => NaN
      | Lt, Lt | Gt, Gt => PInf
      | _, _ => NInf
      end
  end.

Definition div (a b : double) : double :=
  match a, b with
  | NaN, _ | _, NaN => NaN
  | Fin x, Fin y =>
      match y ?= 0 with
      | Eq => match x ?= 0 with Eq => NaN | Lt => NInf | Gt => PInf end
      | _ => Fin (x / y)
      end
  | Fin _, _ => Fin 0
  | _, Fin y =>
      match sgn a, y ?= 0 with
      | Lt, Lt | Gt, Gt | Gt, Eq => PInf
      | _, _ => NInf
      end
  | _, _ => NaN
  end.

Definition abs (a : double) : double :=
  match a with
  | NaN => NaN
  | NInf | PInf => PInf
  | Fin x => Fin (Qabs x)
  end.

(** [std::max(a, b)] is [(a < b) ? b : a]. *)
Definition max (a b : double) : double := if ltb a b then b else a.

(** [std::min(a, b)] is [(b < a) ? b : a]. *)
Definition min (a b : double) : double := if ltb b a then b else a.

(** [std::numeric_limits<double>::epsilon()]. *)
Definition epsilon : Q := 1 / (2 ^ 52).

(** A vector of doubles. *)
Definition Vector : Type := list double.

(** The coefficient-wise combination of two vectors of equal size. *)
Fixpoint zipWith (f : double -> double -> double) (u v : Vector) : Vector :=
  match u, v with
  | a :: u', b :: v' => f a b :: zipWith f u' v'
  | _, _ => []
  end.

(** [c.select(a, b)]: [a] where the condition holds, [b] elsewhere. *)
Fixpoint select (c : list bool) (a b : Vector) : Vector :=
  match c, a, b with
  | ci :: c', ai :: a', bi :: b' =>
      (if ci then ai else bi) :: select c' a' b'
  | _, _, _ => []
  end.

(** [constants(n, v)]. *)
Definition constants (n : nat) (v : double) : Vector := repeat v n.

(** [v[i]]; an index out of range is outside the model and reads NaN. *)
Definition get (v : Vector) (i : nat) : double := nth i v NaN.

(** [v[i] = a]. *)
Fixpoint set (v : Vector) (i : nat) (a : double) : Vector :=
  match v, i with
  | [], _ => []
  | _ :: v', O => a :: v'
  | b :: v', S i' => b :: set v' i' a
  end.

(** [norminf(v)]: the largest absolute value of the coefficients, the
    maximum being taken from the left with [std::max]; 0 for an empty
    vector. *)
Definition norminf (v : Vector) : double :=
  fold_left (fun acc a => max acc (abs a)) v (Fin 0).

End Dbl.

(* ================================================================== *)
(** ** Dense matrices *)
(* ================================================================== *)

Module Dense.

(** A dense matrix: its dimensions and its coefficients.  Coefficients
    outside the dimensions are never inspected. *)
Record Matrix (T : Type) : Type := mkMatrix {
  rows : nat;
  cols : nat;
  coeff : nat -> nat -> T
}.

Section Blocks.

Variable T : Type.

Definition size (A : Matrix T) : nat := rows A * cols A.

(** [A.topRows(r)]. *)
Definition topRows (A : Matrix T) (r : nat) : Matrix T :=
  mkMatrix r (cols A) (coeff A).

(** [A.bottomRows(k)]. *)
Definition bottomRows (A : Matrix T) (k : nat) : Matrix T :=
  mkMatrix k (cols A) (fun i j => coeff A (rows A - k + i) j).

(** [A.leftCols(c)]. *)
Definition leftCols (A : Matrix T) (c : nat) : Matrix T :=
  mkMatrix (rows A) c (coeff A).

(** [A.rightCols(c)]. *)
Definition rightCols (A : Matrix T) (c : nat) : Matrix T :=
  mkMatrix (rows A) c (fun i j => coeff A i (cols A - c + j)).

(** [A.topLeftCorner(r, c)]. *)
Definition topLeftCorner (A : Matrix T) (r c : nat) : Matrix T :=
  mkMatrix r c (coeff A).

(** [A.topRightCorner(r, c)]. *)
Definition topRightCorner (A : Matrix T) (r c : nat) : Matrix T :=
  mkMatrix r c (fun i j => coeff A i (cols A - c + j)).

(** [A.topRows(r) = B]. *)
Definition setTopRows (A : Matrix T) (r : nat) (B : Matrix T) : Matrix T :=
  mkMatrix (rows A) (cols A)
    (fun i j => if i <? r then coeff B i j else coeff A i j).

(** [A.bottomRows(k) = B]. *)
Definition setBottomRows (A : Matrix T) (k : nat) (B : Matrix T)
    : Matrix T :=
  mkMatrix (rows A) (cols A)
    (fun i j => if rows A - k <=? i
                then coeff B (i - (rows A - k)) j else coeff A i j).

(** [A.bottomRows(k).fill(v)]. *)
Definition fillBottomRows (A : Matrix T) (k : nat) (v : T) : Matrix T :=
  mkMatrix (rows A) (cols A)
    (fun i j => if rows A - k <=? i then v else coeff A i j).

(** [A.col(j)], as a list of [rows A] coefficients. *)
Definition col (A : Matrix T) (j : nat) : list T :=
  map (fun i => coeff A i j) (seq 0 (rows A)).

(** [A.col(j) = v]; [d] is read where [v] is too short. *)
Definition setCol (A : Matrix T) (j : nat) (v : list T) (d : T)
    : Matrix T :=
  mkMatrix (rows A) (cols A)
    (fun i j' => if j' =? j then nth i v d else coeff A i j').

(** [A.diagonal()]. *)
Definition diagonal (A : Matrix T) : list T :=
  map (fun i => coeff A i i) (seq 0 (Nat.min (rows A) (cols A))).

(** Membership of an index in an index list. *)
Definition memb (i : nat) (l : list nat) : bool := existsb (Nat.eqb i) l.

(** [A(idx, all) = B(idx, all)]. *)
Definition setRowsFrom (A : Matrix T) (idx : list nat) (B : Matrix T)
    : Matrix T :=
  mkMatrix (rows A) (cols A)
    (fun i j => if memb i idx then coeff B i j else coeff A i j).

(** [A(idx, all).fill(v)]. *)
Definition fillRows (A : Matrix T) (idx : list nat) (v : T) : Matrix T :=
  mkMatrix (rows A) (cols A)
    (fun i j => if memb i idx then v else coeff A i j).

End Blocks.

End Dense.

(* ================================================================== *)
(** ** src/Optima/ResidualFunction.cpp *)
(* ================================================================== *)

Module ResidualFunction.

Import Dbl.
Local Open Scope nat_scope.

(** The three user callbacks [f], [h] and [v]. *)
Inductive Callback : Type := CallF | CallH | CallV.

(** [FAILED] and [SUCCEEDED], the outcomes a callback returns. *)
Definition FAILED : bool := false.
Definition SUCCEEDED : bool := true.

(** [ResidualFunctionUpdateStatus]: one outcome per callback.  The header
    that declares it is not among the sources; the fields are the ones
    [updateFunctionEvals] assigns, and the status compares equal to
    [FAILED] when its conversion to [bool] (all three succeeded) does. *)
Record ResidualFunctionUpdateStatus : Type := mkStatus {
  status_f : bool;
  status_h : bool;
  status_v : bool
}.

Definition status_bool (s : ResidualFunctionUpdateStatus) : bool :=
  status_f s && status_h s && status_v s.

(** [status == FAILED]. *)
Definition status_is_FAILED (s : ResidualFunctionUpdateStatus) : bool :=
  Bool.eqb (status_bool s) FAILED.

Record MasterDims : Type := mkDims {
  nx : nat; np : nat; ny : nat; nz : nat; nw : nat
}.

(** [MasterVectorView u = (x, p, w)]. *)
Record MasterVector : Type := mkMasterVector {
  u_x : Vector; u_p : Vector; u_w : Vector
}.

(** The options handed to a callback: the two derivative requests and the
    indices of the basic variables. *)
Record EvalOptions : Type := mkEvalOptions {
  eval_ddx : bool;
  eval_ddp : bool;
  ibasicvars : list nat
}.

Section Model.

(** The dense matrices and the classes whose translation units are not
    part of the sources read: they are kept abstract, with the methods
    the residual function calls. *)
Variables Matrix MatrixRWQ Stability2 CanonicalMatrix ResidualVector : Type.

(** [ObjectiveResult]. *)
Record ObjectiveResult : Type := mkObjectiveResult {
  fval : double; fx : Vector; fxx : Matrix; fxp : Matrix; diagfxx : bool
}.

(** [ConstraintResult]. *)
Record ConstraintResult : Type := mkConstraintResult {
  val : Vector; ddx : Matrix; ddp : Matrix
}.

(** A callback writes into its result slot and returns its outcome; a
    null [std::function] is [None]. *)
Definition ObjectiveFunction : Type :=
  ObjectiveResult -> Vector -> Vector -> EvalOptions ->
  bool * ObjectiveResult.
Definition ConstraintFunction : Type :=
  ConstraintResult -> Vector -> Vector -> EvalOptions ->
  bool * ConstraintResult.

Record MasterProblem : Type := mkMasterProblem {
  dims : MasterDims;
  f : option ObjectiveFunction;
  h : option ConstraintFunction;
  v : option ConstraintFunction;
  b : Vector;
  xlower : Vector;
  xupper : Vector
}.

(** [MasterMatrix {H, V, RWQ, js, ju}]. *)
Record MasterMatrix : Type := mkMasterMatrix {
  mm_Hxx : Matrix; mm_Hxp : Matrix; mm_diagHxx : bool;
  mm_Vx : Matrix; mm_Vp : Matrix;
  mm_RWQ : MatrixRWQ;
  mm_js : list nat; mm_ju : list nat
}.

(** [ResidualVectorUpdateArgs {jacobian, Wx, Wp, x, p, y, z, fx, v, b, h}]. *)
Record ResidualVectorUpdateArgs : Type := mkResidualVectorUpdateArgs {
  rv_M : CanonicalMatrix; rv_Wx : Matrix; rv_Wp : Matrix;
  rv_x : Vector; rv_p : Vector; rv_y : Vector; rv_z : Vector;
  rv_g : Vector; rv_v : Vector; rv_b : Vector; rv_h : Vector
}.

Variable RWQ_jb : MatrixRWQ -> list nat.
Variable RWQ_update : MatrixRWQ -> Matrix -> Matrix -> Vector -> MatrixRWQ.
Variable RWQ_asMatrixViewW : MatrixRWQ -> Matrix * Matrix.
Variable Stability2_update :
  Stability2 -> MatrixRWQ -> Vector -> Vector -> Vector -> Vector ->
  Stability2.
Variable Stability2_status : Stability2 -> list nat * list nat.
Variable CanonicalMatrix_update :
  CanonicalMatrix -> MasterMatrix -> CanonicalMatrix.
Variable ResidualVector_update :
  ResidualVector -> ResidualVectorUpdateArgs -> ResidualVector.

(** [ResidualFunction::Impl].  [calls] is a ghost field: the callbacks
    invoked so far, oldest first. *)
Record Impl : Type := mkImpl {
  impl_dims : MasterDims;
  fres : ObjectiveResult;
  hres : ConstraintResult;
  vres : ConstraintResult;
  RWQ : MatrixRWQ;
  wx : Vector;
  stability : Stability2;
  jacobian : CanonicalMatrix;
  residual : ResidualVector;
  calls : list Callback
}.

Definition isSome {A : Type} (o : option A) : bool :=
  match o with Some _ => true | None => false end.

(** [sanitycheck]: [true] when every assertion holds. *)
Definition sanitycheck (self : Impl) (problem : MasterProblem)
    (u : MasterVector) : bool :=
  (length (b problem) =? ny (impl_dims self))
  && isSome (f problem)
  && isSome (h problem)
  && isSome (v problem)
  && (length (xlower problem) =? nx (impl_dims self))
  && (length (xupper problem) =? nx (impl_dims self))
  && (length (u_x u) =? nx (impl_dims self))
  && (length (u_p u) =? np (impl_dims self))
  && (length (u_w u) =? nw (impl_dims self)).

(** The body shared by [updateFunctionEvals] and
    [updateFunctionEvalsSkippingJacobianEvals], which differ in the
    derivative requests only: [f], then [h], then [v], returning at the
    first failure.  [status0] is the default-constructed status. *)
Definition evalCallbacks (status0 : ResidualFunctionUpdateStatus)
    (jac : bool) (cf : ObjectiveFunction) (ch cv : ConstraintFunction)
    (self : Impl) (u : MasterVector)
    : ResidualFunctionUpdateStatus * Impl :=
  let x := u_x u in
  let p := u_p u in
  let ibasicvars := RWQ_jb (RWQ self) in
  let fopts := mkEvalOptions jac jac ibasicvars in
  let hopts := mkEvalOptions jac jac ibasicvars in
  let vopts := mkEvalOptions jac jac ibasicvars in
  let '(sf, fres') := cf (fres self) x p fopts in
  let self1 := mkImpl (impl_dims self) fres' (hres self) (vres self)
                 (RWQ self) (wx self) (stability self) (jacobian self)
                 (residual self) (calls self ++ [CallF]) in
  let status1 := mkStatus sf (status_h status0) (status_v status0) in
  if Bool.eqb sf FAILED then (status1, self1) else
  let '(sh, hres') := ch (hres self1) x p hopts in
  let self2 := mkImpl (impl_dims self1) (fres self1) hres' (vres self1)
                 (RWQ self1) (wx self1) (stability self1) (jacobian self1)
                 (residual self1) (calls self1 ++ [CallH]) in
  let status2 := mkStatus sf sh (status_v status0) in
  if Bool.eqb sh FAILED then (status2, self2) else
  let '(sv, vres') := cv (vres self2) x p vopts in
  let self3 := mkImpl (impl_dims self2) (fres self2) (hres self2) vres'
                 (RWQ self2) (wx self2) (stability self2) (jacobian self2)
                 (residual self2) (calls self2 ++ [CallV]) in
  let status3 := mkStatus sf sh sv in
  (status3, self3).

Definition updateFunctionEvals status0 := evalCallbacks status0 true.

Definition updateFunctionEvalsSkippingJacobianEvals status0 :=
  evalCallbacks status0 false.

(** [updateEchelonFormMatrixW]; [None] when the assertion on the
    priority weights fails. *)
Definition updateEchelonFormMatrixW (self : Impl)
    (problem : MasterProblem) (u : MasterVector) : option Impl :=
  let x := u_x u in
  let Jx := ddx (hres self) in
  let Jp := ddp (hres self) in
  let wx1 := zipWith min (zipWith sub x (xlower problem))
                         (zipWith sub (xupper problem) x) in
  let wx2 := select (map isInf wx1) (map abs x) wx1 in
  if forallb (fun w => geb w (Fin 0)) wx2 then
    let wx3 := select (map (fun w => gtb w (Fin 0)) wx2) wx2
                      (constants (length wx2) (Fin (-1))) in
    Some (mkImpl (impl_dims self) (fres self) (hres self) (vres self)
            (RWQ_update (RWQ self) Jx Jp wx3) wx3 (stability self)
            (jacobian self) (residual self) (calls self))
  else None.

Definition updateIndicesStableVariables (self : Impl)
    (problem : MasterProblem) (u : MasterVector) : Impl :=
  mkImpl (impl_dims self) (fres self) (hres self) (vres self)
    (RWQ self) (wx self)
    (Stability2_update (stability self) (RWQ self) (fx (fres self))
       (u_x u) (xlower problem) (xupper problem))
    (jacobian self) (residual self) (calls self).

Definition masterJacobianMatrix (self : Impl) : MasterMatrix :=
  let stabilitystatus := Stability2_status (stability self) in
  mkMasterMatrix (fxx (fres self)) (fxp (fres self))
    (diagfxx (fres self)) (ddx (vres self)) (ddp (vres self))
    (RWQ self) (fst stabilitystatus) (snd stabilitystatus).

Definition updateCanonicalFormJacobianMatrix (self : Impl)
    (u : MasterVector) : Impl :=
  mkImpl (impl_dims self) (fres self) (hres self) (vres self)
    (RWQ self) (wx self) (stability self)
    (CanonicalMatrix_update (jacobian self) (masterJacobianMatrix self))
    (residual self) (calls self).

Definition updateResidualVector (self : Impl)
    (problem : MasterProblem) (u : MasterVector) : Impl :=
  let W := RWQ_asMatrixViewW (RWQ self) in
  let w := u_w u in
  let y := firstn (ny (dims problem)) w in
  let z := skipn (length w - nz (dims problem)) w in
  mkImpl (impl_dims self) (fres self) (hres self) (vres self)
    (RWQ self) (wx self) (stability self) (jacobian self)
    (ResidualVector_update (residual self)
       (mkResidualVectorUpdateArgs (jacobian self) (fst W) (snd W)
          (u_x u) (u_p u) y z (fx (fres self)) (val (vres self))
          (b problem) (val (hres self))))
    (calls self).

(** The tail shared by [update] and [updateSkipJacobian]. *)
Definition updateCachedState (self : Impl) (problem : MasterProblem)
    (u : MasterVector) : option Impl :=
  match updateEchelonFormMatrixW self problem u with
  | None => None
  | Some self1 =>
      let self2 := updateIndicesStableVariables self1 problem u in
      let self3 := updateCanonicalFormJacobianMatrix self2 u in
      Some (updateResidualVector self3 problem u)
  end.

(** [update] and [updateSkipJacobian].  [None] is an assertion failure;
    otherwise the returned status and the object after the call. *)
Definition updateWith (jac : bool)
    (status0 : ResidualFunctionUpdateStatus) (self : Impl)
    (problem : MasterProblem) (u : MasterVector)
    : option (ResidualFunctionUpdateStatus * Impl) :=
  if negb (sanitycheck self problem u) then None else
  match f problem, h problem, v problem with
  | Some cf, Some ch, Some cv =>
      let '(status, self1) := evalCallbacks status0 jac cf ch cv self u in
      if status_is_FAILED status then Some (status, self1) else
      match updateCachedState self1 problem u with
      | None => None
      | Some self2 => Some (status, self2)
      end
  | _, _, _ => None
  end.

Definition update := updateWith true.

Definition updateSkipJacobian := updateWith false.

End Model.

End ResidualFunction.

(* ================================================================== *)
(** ** src/Optima/LU.cpp *)
(* ================================================================== *)

Module LU.

Import Dbl Dense.
Local Open Scope nat_scope.

(** What [Eigen::PartialPivLU] exposes after [compute]. *)
Record PartialPivLU : Type := mkPartialPivLU {
  matrixLU : Matrix double;
  permutationP : list nat
}.

(** [LU::Impl]. *)
Record Impl : Type := mkImpl {
  lu : PartialPivLU;
  rank : nat
}.

(** [D.maxCoeff()]. *)
Definition maxCoeff (D : list double) : double :=
  match D with
  | [] => Fin 0
  | d :: D' => fold_left max D' d
  end.

(** The loop of [decompose]: [i] runs from 1 to [n]; the rank is
    decremented while [D[n - i] <= threshold] and the loop is left at the
    first diagonal entry above the threshold.  [steps] bounds the number
    of iterations left. *)
Fixpoint rank_loop (D : list double) (threshold : double) (n : nat)
    (steps : nat) (i : nat) (rank : nat) : nat :=
  match steps with
  | O => rank
  | S steps' =>
      if i <=? n then
        if leb (get D (n - i)) threshold
        then rank_loop D threshold n steps' (S i) (rank - 1)
        else rank
      else rank
  end.

(** The threshold of [decompose]: [maxdiagcoeff * eps * n]. *)
Definition decompose_threshold (D : list double) (n : nat) : double :=
  mul (mul (maxCoeff D) (Fin epsilon)) (Fin (inject_Z (Z.of_nat n))).

Section Model.

(** The host library: the partial-pivoting factorization, the row
    permutation and the two triangular solves. *)
Variable eigen_compute : Matrix double -> PartialPivLU.
Variable applyThisOnTheLeft : list nat -> Matrix double -> Matrix double.
Variable solveUnitLower : Matrix double -> Matrix double -> Matrix double.
Variable solveUpper : Matrix double -> Matrix double -> Matrix double.

(** [decompose]; [None] when the assertion [n == m] fails. *)
Definition decompose (A : Matrix double) : option Impl :=
  let m := rows A in
  let n := cols A in
  if negb (n =? m) then None else
  let lu' := eigen_compute A in
  let D := map abs (diagonal (matrixLU lu')) in
  let threshold := decompose_threshold D n in
  Some (mkImpl lu' (rank_loop D threshold n n 1 n)).

(** [solve(X)], in place; [None] when the assertion [n == X.rows()]
    fails. *)
Definition solve (self : Impl) (X : Matrix double)
    : option (Matrix double) :=
  let n := rows (matrixLU (lu self)) in
  if negb (n =? rows X) then None else
  let M := topLeftCorner (matrixLU (lu self)) (rank self) (rank self) in
  let P := permutationP (lu self) in
  let X1 := mkMatrix (rows X) (cols X)
              (coeff (applyThisOnTheLeft P X)) in
  let X2 := setTopRows X1 (rank self)
              (solveUnitLower M (topRows X1 (rank self))) in
  let X3 := setTopRows X2 (rank self)
              (solveUpper M (topRows X2 (rank self))) in
  Some (fillBottomRows X3 (n - rank self) NaN).

End Model.

End LU.

(* ================================================================== *)
(** ** src/Optima/Stepper.cpp *)
(* ================================================================== *)

Module Stepper.

Import Dbl Dense.
Local Open Scope nat_scope.

(** The index sets a [Stability] object answers with. *)
Record Stability : Type := mkStability {
  indicesStableVariables : list nat;
  indicesUnstableVariables : list nat;
  indicesStrictlyUnstableVariables : list nat
}.

(** [v(idx).fill(a)]. *)
Definition fillAt (v : Vector) (idx : list nat) (a : double) : Vector :=
  fold_left (fun u i => set u i a) idx v.

(** [-A]. *)
Definition mneg (A : Matrix double) : Matrix double :=
  mkMatrix (rows A) (cols A) (fun i j => neg (coeff A i j)).

(** The coefficient [(i, j)] of [tr(W) * Y]: the sum over the rows [r] of
    [W] of [W(r, i) * Y(r, j)], accumulated from [r = 0]. *)
Definition trmul_coeff (W Y : Matrix double) (i j : nat) : double :=
  fold_left (fun acc r => add acc (mul (coeff W r i) (coeff Y r j)))
            (seq 0 (rows W)) (Fin 0).

Section Model.

(** [SaddlePointSolver], whose translation unit is not part of the
    sources read, with its two [solve] overloads. *)
Variable SaddlePointSolver : Type.
Variable spsolver_solve :
  SaddlePointSolver -> Matrix double -> Matrix double ->
  Vector -> Vector -> Vector -> Vector -> Vector * Vector.
Variable spsolver_solve_inplace :
  SaddlePointSolver -> Vector -> Vector -> Vector * Vector.

(** [Stepper::Impl], the members used by [solve] and [sensitivities]. *)
Record Impl : Type := mkImpl {
  W : Matrix double;
  xbar : Vector;
  ybar : Vector;
  n : nat;
  ml : nat;
  mn : nat;
  m : nat;
  spsolver : SaddlePointSolver
}.

Record StepperSolveArgs : Type := mkSolveArgs {
  x : Vector;
  y : Vector;
  b : Vector;
  g : Vector;
  H : Matrix double;
  h : Vector;
  stability : Stability;
  dx : Vector;
  dy : Vector
}.

(** The step before the NaN entries are replaced:
    [dx = xbar - xprime] and [dy = ybar - y]. *)
Definition solve_raw (self : Impl) (args : StepperSolveArgs)
    : Vector * Vector * Vector * Vector :=
  let A := topRows (W self) (ml self) in
  let J := bottomRows (W self) (mn self) in
  let isu := indicesStrictlyUnstableVariables (stability args) in
  let xprime := fillAt (x args) isu (Fin 0) in
  let '(xbar', ybar') :=
    spsolver_solve (spsolver self) (H args) J xprime (g args) (b args)
      (h args) in
  (zipWith sub xbar' xprime, zipWith sub ybar' (y args), xbar', ybar').

(** [solve]: the object after the call and the steps [dx] and [dy];
    [None] when a dimension assertion fails. *)
Definition solve (self : Impl) (args : StepperSolveArgs)
    : option (Impl * Vector * Vector) :=
  if negb ((length (x args) =? n self)
           && (length (y args) =? m self)
           && (length (g args) =? n self)) then None else
  let '(dx1, dy1, xbar', ybar') := solve_raw self args in
  let dx2 := select (map isNaN dx1) (constants (length dx1) (Fin 0)) dx1 in
  let dy2 := select (map isNaN dy1) (constants (length dy1) (Fin 0)) dy1 in
  Some (mkImpl (W self) xbar' ybar' (n self) (ml self) (mn self)
          (m self) (spsolver self), dx2, dy2).

Record StepperSensitivitiesArgs : Type := mkSensitivitiesArgs {
  dxdp : Matrix double;
  dydp : Matrix double;
  dzdp : Matrix double;
  dgdp : Matrix double;
  dbdp : Matrix double;
  dhdp : Matrix double;
  sens_stability : Stability
}.

(** The loop [for(i = 0; i < np; ++i) spsolver.solve({dxdp.col(i),
    dydp.col(i)})], over the columns still to be solved. *)
Fixpoint solve_columns (sp : SaddlePointSolver) (cols_left : list nat)
    (X Y : Matrix double) : Matrix double * Matrix double :=
  match cols_left with
  | [] => (X, Y)
  | i :: rest =>
      let '(xi, yi) := spsolver_solve_inplace sp (col X i) (col Y i) in
      solve_columns sp rest (setCol X i xi NaN) (setCol Y i yi NaN)
  end.

(** [sensitivities]: the matrices [dxdp], [dydp] and [dzdp] after the
    call; [None] when a dimension assertion fails. *)
Definition sensitivities (self : Impl) (args : StepperSensitivitiesArgs)
    : option (Matrix double * Matrix double * Matrix double) :=
  let np := cols (dxdp args) in
  if negb ((rows (dxdp args) =? n self)
           && (rows (dydp args) =? m self)
           && (rows (dzdp args) =? n self)
           && (rows (dgdp args) =? n self)
           && (rows (dbdp args) =? ml self)
           && (rows (dhdp args) =? mn self)
           && (cols (dydp args) =? np)
           && (cols (dzdp args) =? np)
           && (cols (dgdp args) =? np)
           && (cols (dbdp args) =? np)
           && (cols (dhdp args) =? np)) then None else
  let is_ := indicesStableVariables (sens_stability args) in
  let iu := indicesUnstableVariables (sens_stability args) in
  let dxdp1 := setRowsFrom (dxdp args) is_ (mneg (dgdp args)) in
  let dxdp2 := fillRows dxdp1 iu (Fin 0) in
  let dydp1 := setTopRows (dydp args) (ml self) (dbdp args) in
  let dydp2 := setBottomRows dydp1 (mn self) (mneg (dhdp args)) in
  let '(dxdp3, dydp3) :=
    solve_columns (spsolver self) (seq 0 np) dxdp2 dydp2 in
  let dzdp1 := fillRows (dzdp args) is_ (Fin 0) in
  let dzdp2 :=
    setRowsFrom dzdp1 iu
      (mkMatrix (rows dzdp1) (cols dzdp1)
         (fun i j => add (coeff (dgdp args) i j)
                         (trmul_coeff (W self) dydp3 i j))) in
  Some (dxdp3, dydp3, dzdp2).

End Model.

(** The coefficient [i] of [tr(W) * y], accumulated from the first row
    of [W]. *)
Definition trmul_vec (W : Matrix double) (y : Vector) (i : nat) : double :=
  fold_left (fun acc r => add acc (mul (coeff W r i) (get y r)))
            (seq 0 (rows W)) (Fin 0).

(** The coefficient [r] of [A * x], accumulated from the first column
    of [A]. *)
Definition mulvec_coeff (A : Matrix double) (x : Vector) (r : nat)
    : double :=
  fold_left (fun acc j => add acc (mul (coeff A r j) (get x j)))
            (seq 0 (cols A)) (Fin 0).

Section Residuals.

(** [SaddlePointSolver::residuals] and the stability checker are not
    part of the sources read: the checker is kept abstract with the
    [Stability] it answers with, the solver with the feasibility
    residuals [ry] and errors [ey] it writes. *)
Variables SaddlePointSolver StabilityChecker : Type.
Variable stbchecker_stability : StabilityChecker -> Stability.
Variable spsolver_residuals :
  SaddlePointSolver -> Matrix double -> Vector -> Vector -> Vector ->
  Vector -> Vector -> Vector * Vector.

(** [StepperResidualsArgs {x, y, b, h, g, rx, ry, ex, ey, z}]. *)
Record StepperResidualsArgs : Type := mkResidualsArgs {
  res_x : Vector;
  res_y : Vector;
  res_b : Vector;
  res_h : Vector;
  res_g : Vector;
  res_rx : Vector;
  res_ry : Vector;
  res_ex : Vector;
  res_ey : Vector;
  res_z : Vector
}.

(** What [residuals] writes. *)
Record Residuals : Type := mkResiduals {
  out_rx : Vector;
  out_ry : Vector;
  out_ex : Vector;
  out_ey : Vector;
  out_z : Vector
}.

(** [g + tr(W)*y], a vector with [n] coefficients. *)
Definition instability (self : Impl SaddlePointSolver) (g y : Vector)
    : Vector :=
  map (fun i => add (get g i) (trmul_vec (W self) y i))
      (seq 0 (n self)).

(** [residuals]; [None] when an assertion fails, one of the function
    or one of the host library on the sizes in [W.bottomRows(mn)]
    and [g + tr(W)*y]. *)
Definition residuals (self : Impl SaddlePointSolver)
    (stbchecker : StabilityChecker) (args : StepperResidualsArgs)
    : option Residuals :=
  let J := bottomRows (W self) (mn self) in
  let stability := stbchecker_stability stbchecker in
  let iu := indicesUnstableVariables stability in
  let isu := indicesStrictlyUnstableVariables stability in
  if negb ((length (res_x args) =? n self)
           && (length (res_y args) =? m self)
           && (length (res_b args) =? ml self)
           && (length (res_h args) =? mn self)
           && (length (res_g args) =? n self)
           && (length (res_rx args) =? n self)
           && (length (res_ry args) =? m self)
           && (length (res_ex args) =? n self)
           && (length (res_ey args) =? m self)
           && (length (res_z args) =? n self)
           && (mn self <=? rows (W self))
           && (rows (W self) =? m self)
           && (cols (W self) =? n self)) then None else
  let xprime := fillAt (res_x args) isu (Fin 0) in
  let '(ry', ey') :=
    spsolver_residuals (spsolver self) J xprime (res_b args)
      (res_h args) (res_ry args) (res_ey args) in
  let z' := instability self (res_g args) (res_y args) in
  let rx1 := map abs z' in
  let rx2 := fillAt rx1 iu (Fin 0) in
  let ex' :=
    zipWith div rx2 (map (fun gi => add (Fin 1) (abs gi)) (res_g args)) in
  Some (mkResiduals rx2 ry' ex' ey' z').

(** [StepperSteepestDescentLagrangeArgs {x, y, b, h, g, dx, dy}]. *)
Record StepperSteepestDescentLagrangeArgs : Type := mkDescentArgs {
  sd_x : Vector;
  sd_y : Vector;
  sd_b : Vector;
  sd_h : Vector;
  sd_g : Vector;
  sd_dx : Vector;
  sd_dy : Vector
}.

(** [steepestDescentLagrange]: the directions [dx] and [dy] it writes.
    The function has no assertion of its own; [None] stands for the
    size assertions of the host library on its vector expressions. *)
Definition steepestDescentLagrange (self : Impl SaddlePointSolver)
    (stbchecker : StabilityChecker)
    (args : StepperSteepestDescentLagrangeArgs)
    : option (Vector * Vector) :=
  let A := topRows (W self) (ml self) in
  let stability := stbchecker_stability stbchecker in
  let iu := indicesUnstableVariables stability in
  if negb ((length (sd_g args) =? n self)
           && (ml self <=? rows (W self))
           && (cols (W self) =? n self)
           && (length (sd_y args) =? rows (W self))
           && (length (sd_dx args) =? n self)
           && (length (sd_x args) =? n self)
           && (length (sd_b args) =? ml self)
           && (length (sd_h args) =? mn self)
           && (ml self <=? length (sd_dy args))
           && (mn self <=? length (sd_dy args))) then None else
  let dx1 := map neg (instability self (sd_g args) (sd_y args)) in
  let dx2 := fillAt dx1 iu (Fin 0) in
  let dy0 := sd_dy args in
  let dy1 :=
    map (fun r => if r <? ml self
                  then neg (sub (mulvec_coeff A (sd_x args) r)
                                (get (sd_b args) r))
                  else get dy0 r)
        (seq 0 (length dy0)) in
  let dy2 :=
    map (fun r => if length dy0 - mn self <=? r
                  then neg (get (sd_h args) (r - (length dy0 - mn self)))
                  else get dy1 r)
        (seq 0 (length dy0)) in
  Some (dx2, dy2).

End Residuals.

End Stepper.

(* ================================================================== *)
(** ** src/Optima/NewtonStep.cpp *)
(* ================================================================== *)

Module NewtonStep.

Import Dbl.

(** [MasterVector u = (x, p, w)]. *)
Record MasterVector : Type := mkMasterVector {
  u_x : Vector; u_p : Vector; u_w : Vector
}.

Section Model.

(** [LinearSolver], [ResidualFunction] and the canonical views are kept
    abstract: [linearsolver_solve] stands for [decompose] followed by
    [solve] and returns the Newton step [du]. *)
Variables LinearSolver CanonicalMatrixView CanonicalVectorView : Type.
Variable linearsolver_solve :
  LinearSolver -> CanonicalMatrixView -> CanonicalVectorView ->
  LinearSolver * MasterVector.

Record Impl : Type := mkImpl {
  linearsolver : LinearSolver;
  du : MasterVector
}.

(** [apply]: the object and the vector [u] after the call. *)
Definition apply (self : Impl) (xlower xupper : Vector)
    (Mc : CanonicalMatrixView) (ac : CanonicalVectorView)
    (uo : MasterVector) : Impl * MasterVector :=
  let '(ls, du') := linearsolver_solve (linearsolver self) Mc ac in
  let ux := zipWith add (u_x uo) (u_x du') in
  let up := zipWith add (u_p uo) (u_p du') in
  let uw := zipWith add (u_w uo) (u_w du') in
  let ux' := zipWith min (zipWith max ux xlower) xupper in
  (mkImpl ls du', mkMasterVector ux' up uw).

End Model.

End NewtonStep.

(* ================================================================== *)
(** ** src/Optima/BasicSolver.cpp *)
(* ================================================================== *)

Module BasicSolver.

Import Dbl Dense.
Local Open Scope nat_scope.

(** [StepMode] (src/Optima/Options.hpp). *)
Inductive StepMode : Type := Conservative | Aggressive.

(** [Options], the members the solver reads. *)
Record Options : Type := mkOptions {
  tolerance : double;
  max_iterations : nat;
  step : StepMode
}.

(** [Result] (src/Optima/Result.hpp), without the evaluation counters and
    the wall times, which the solver's logic never reads. *)
Record Result : Type := mkResult {
  succeeded : bool;
  iterations : nat;
  error : double;
  error_optimality : double;
  error_feasibility : double
}.

(** A default-constructed [Result]. *)
Definition Result_default : Result :=
  mkResult false 0 (Fin 0) (Fin 0) (Fin 0).

(** What an [ObjectiveResult] refers to: [f], [g] and [H]. *)
Record ObjectiveResult : Type := mkObjectiveResult {
  res_f : double; res_g : Vector; res_H : Matrix double
}.

(** What a [ConstraintResult] refers to: [h] and [J]. *)
Record ConstraintResult : Type := mkConstraintResult {
  res_h : Vector; res_J : Matrix double
}.

(** [BasicProblem]: dimensions, index sets of the bounded and fixed
    variables, and the two callbacks (a null [std::function] is [None]).
    A callback receives [x] and the slots it writes into. *)
Record BasicProblem : Type := mkBasicProblem {
  dims_x : nat;
  dims_b : nat;
  dims_h : nat;
  ilower : list nat;
  iupper : list nat;
  ifixed : list nat;
  objective : option (Vector -> ObjectiveResult -> ObjectiveResult);
  constraints_h : option (Vector -> ConstraintResult -> ConstraintResult)
}.

Record BasicParams : Type := mkBasicParams {
  params_b : Vector;
  params_xlower : Vector;
  params_xupper : Vector;
  params_xfixed : Vector
}.

Record BasicState : Type := mkBasicState {
  state_x : Vector;
  state_y : Vector
}.

(** The evaluations of the user callbacks (ghost). *)
Inductive Evaluation : Type :=
| EvalObjective (x : Vector)
| EvalConstraint (x : Vector).

(** [v(idx) = vals]. *)
Definition assignAt (v : Vector) (idx : list nat) (vals : Vector) : Vector :=
  fold_left (fun u ia => set u (fst ia) (snd ia)) (combine idx vals) v.

(** [for(Index i : idx) x[i] = op(x[i], bound[i])]. *)
Definition clampAt (op : double -> double -> double) (x : Vector)
    (idx : list nat) (bound : Vector) : Vector :=
  fold_left (fun u i => set u i (op (get u i) (get bound i))) idx x.

(** [H.allFinite()]. *)
Definition allFiniteM (H : Matrix double) : bool :=
  forallb (fun i => forallb (fun j => isfinite (coeff H i j))
                      (seq 0 (cols H)))
          (seq 0 (rows H)).

(** A matrix with [r] rows and [c] columns whose contents are not
    specified (modelled by zeros). *)
Definition resizedM (r c : nat) : Matrix double :=
  mkMatrix r c (fun _ _ => Fin 0).

Section Model.

(** [ActiveStepper], whose translation unit is not part of the sources
    read: [decompose({x, y, J, g, H})] and
    [solve({x, y, b, h, g}, {dx, dy, rx, ry, z})]. *)
Variable ActiveStepper : Type.
Variable stepper_decompose :
  ActiveStepper -> Vector -> Vector -> Matrix double -> Vector ->
  Matrix double -> ActiveStepper.
Variable stepper_solve :
  ActiveStepper -> Vector -> Vector -> Vector -> Vector -> Vector ->
  ActiveStepper * (Vector * Vector * Vector * Vector * Vector).

(** The Newton step and the residuals the stepper writes. *)
Record Step : Type := mkStep {
  dx : Vector; dy : Vector; rx : Vector; ry : Vector; z : Vector
}.

(** [BasicSolver::Impl].  The outputter and the timers are left out:
    they do not influence the state or the result.  [evals] is a ghost
    member listing the callback evaluations, oldest first. *)
Record Impl : Type := mkImpl {
  problem : BasicProblem;
  stepper : ActiveStepper;
  options : Options;
  h : Vector;
  J : Matrix double;
  f : double;
  g : Vector;
  H : Matrix double;
  result : Result;
  newton : Step;
  xtrial : Vector;
  dxtrial : Vector;
  xlower : Vector;
  xupper : Vector;
  n : nat;
  nx : nat;
  nf : nat;
  mb : nat;
  mh : nat;
  m : nat;
  evals : list Evaluation
}.

Definition with_bounds (s : Impl) (xl xu : Vector) : Impl :=
  mkImpl (problem s) (stepper s) (options s) (h s) (J s) (f s) (g s)
    (H s) (result s) (newton s) (xtrial s) (dxtrial s) xl xu
    (n s) (nx s) (nf s) (mb s) (mh s) (m s) (evals s).

Definition with_objective (s : Impl) (r : ObjectiveResult)
    (e : Evaluation) : Impl :=
  mkImpl (problem s) (stepper s) (options s) (h s) (J s) (res_f r)
    (res_g r) (res_H r) (result s) (newton s) (xtrial s) (dxtrial s)
    (xlower s) (xupper s) (n s) (nx s) (nf s) (mb s) (mh s) (m s)
    (evals s ++ [e]).

Definition with_constraint (s : Impl) (r : ConstraintResult)
    (e : Evaluation) : Impl :=
  mkImpl (problem s) (stepper s) (options s) (res_h r) (res_J r) (f s)
    (g s) (H s) (result s) (newton s) (xtrial s) (dxtrial s)
    (xlower s) (xupper s) (n s) (nx s) (nf s) (mb s) (mh s) (m s)
    (evals s ++ [e]).

Definition with_newton (s : Impl) (st : ActiveStepper) (nw : Step)
    : Impl :=
  mkImpl (problem s) st (options s) (h s) (J s) (f s) (g s) (H s)
    (result s) nw (xtrial s) (dxtrial s) (xlower s) (xupper s)
    (n s) (nx s) (nf s) (mb s) (mh s) (m s) (evals s).

Definition with_result (s : Impl) (r : Result) : Impl :=
  mkImpl (problem s) (stepper s) (options s) (h s) (J s) (f s) (g s)
    (H s) r (newton s) (xtrial s) (dxtrial s) (xlower s) (xupper s)
    (n s) (nx s) (nf s) (mb s) (mh s) (m s) (evals s).

Definition with_trial (s : Impl) (xt dxt : Vector) : Impl :=
  mkImpl (problem s) (stepper s) (options s) (h s) (J s) (f s) (g s)
    (H s) (result s) (newton s) xt dxt (xlower s) (xupper s)
    (n s) (nx s) (nf s) (mb s) (mh s) (m s) (evals s).

Definition with_options (s : Impl) (o : Options) : Impl :=
  mkImpl (problem s) (stepper s) o (h s) (J s) (f s) (g s)
    (H s) (result s) (newton s) (xtrial s) (dxtrial s) (xlower s)
    (xupper s) (n s) (nx s) (nf s) (mb s) (mh s) (m s) (evals s).

Definition isSome {A : Type} (o : option A) : bool :=
  match o with Some _ => true | None => false end.

(** [Impl(const BasicProblem&)]; [None] when an [Assert] throws.  The
    stepper and the options are the default-constructed ones. *)
Definition Impl_new (p : BasicProblem) (stepper0 : ActiveStepper)
    (options0 : Options) : option Impl :=
  let n := dims_x p in
  let mb := dims_b p in
  let mh := dims_h p in
  let m := mb + mh in
  let nf := length (ifixed p) in
  let nx := n - nf in
  if negb (isSome (objective p)) then None else
  if negb ((mh =? 0) || isSome (constraints_h p)) then None else
  Some (mkImpl p stepper0 options0
          (constants mh (Fin 0)) (resizedM mh n) (Fin 0)
          (constants n (Fin 0)) (resizedM n n) Result_default
          (mkStep [] [] [] [] []) (constants n (Fin 0)) []
          (constants n NInf) (constants n PInf)
          n nx nf mb mh m []).

(** [setOptions]. *)
Definition setOptions (s : Impl) (o : Options) : Impl := with_options s o.

(** [evaluateObjectiveFunction]; [None] when the callback is null. *)
Definition evaluateObjectiveFunction (s : Impl) (state : BasicState)
    : option Impl :=
  match objective (problem s) with
  | None => None
  | Some obj =>
      let res := mkObjectiveResult (f s) (g s) (H s) in
      Some (with_objective s (obj (state_x state) res)
              (EvalObjective (state_x state)))
  end.

(** [evaluateConstraintFunction]. *)
Definition evaluateConstraintFunction (s : Impl) (state : BasicState)
    : option Impl :=
  if mh s =? 0 then Some s else
  match constraints_h (problem s) with
  | None => None
  | Some ch =>
      let res := mkConstraintResult (h s) (J s) in
      Some (with_constraint s (ch (state_x state) res)
              (EvalConstraint (state_x state)))
  end.

(** [computeNewtonStep]. *)
Definition computeNewtonStep (s : Impl) (params : BasicParams)
    (state : BasicState) : Impl :=
  let x := state_x state in
  let y := state_y state in
  let b := params_b params in
  let st1 := stepper_decompose (stepper s) x y (J s) (g s) (H s) in
  let '(st2, (dx', dy', rx', ry', z')) :=
    stepper_solve st1 x y b (h s) (g s) in
  with_newton s st2 (mkStep dx' dy' rx' ry' z').

(** [updateResultErrors]. *)
Definition updateResultErrors (s : Impl) : Impl :=
  let eo := norminf (rx (newton s)) in
  let ef := norminf (ry (newton s)) in
  with_result s
    (mkResult (succeeded (result s)) (iterations (result s))
       (max eo ef) eo ef).

(** [initialize]; [None] when an [Assert] throws. *)
Definition initialize (s : Impl) (params : BasicParams)
    (state : BasicState) : option (Impl * BasicState) :=
  let il := ilower (problem s) in
  let iu := iupper (problem s) in
  let ifx := ifixed (problem s) in
  let s1 := with_bounds s (assignAt (xlower s) il (params_xlower params))
                          (assignAt (xupper s) iu (params_xupper params)) in
  if negb (length (state_x state) =? n s1) then None else
  if negb (length (state_y state) =? m s1) then None else
  let x1 := clampAt max (state_x state) il (xlower s1) in
  let x2 := clampAt min x1 iu (xupper s1) in
  let x3 := assignAt x2 ifx (params_xfixed params) in
  let state1 := mkBasicState x3 (state_y state) in
  match evaluateObjectiveFunction s1 state1 with
  | None => None
  | Some s2 =>
      match evaluateConstraintFunction s2 state1 with
      | None => None
      | Some s3 =>
          if negb (isfinite (f s3) && forallb isfinite (g s3)
                   && allFiniteM (H s3)) then None else
          let s4 := computeNewtonStep s3 params state1 in
          Some (updateResultErrors s4, state1)
      end
  end.

(** [applyNewtonSteppingAggressive]. *)
Definition applyNewtonSteppingAggressive (s : Impl) (params : BasicParams)
    (state : BasicState) : Impl * BasicState :=
  let x := state_x state in
  let y := state_y state in
  let il := ilower (problem s) in
  let iu := iupper (problem s) in
  let ifx := ifixed (problem s) in
  let xtrial0 := zipWith add x (dx (newton s)) in
  let xtrial1 := clampAt max xtrial0 il (xlower s) in
  let xtrial2 := clampAt min xtrial1 iu (xupper s) in
  let dxtrial' := zipWith sub xtrial2 x in
  let x1 := xtrial2 in
  let y1 := zipWith add y (dy (newton s)) in
  let x2 := assignAt x1 ifx (params_xfixed params) in
  (with_trial s xtrial2 dxtrial', mkBasicState x2 y1).

(** [applyNewtonSteppingConservative]: its body is commented out. *)
Definition applyNewtonSteppingConservative (s : Impl)
    (params : BasicParams) (state : BasicState) : Impl * BasicState :=
  (s, state).

(** [applyNewtonStepping]. *)
Definition applyNewtonStepping (s : Impl) (params : BasicParams)
    (state : BasicState) : Impl * BasicState :=
  match step (options s) with
  | Aggressive => applyNewtonSteppingAggressive s params state
  | _ => applyNewtonSteppingConservative s params state
  end.

(** [converged]. *)
Definition converged (s : Impl) : bool :=
  ltb (error (result s)) (tolerance (options s)).

Definition set_succeeded (s : Impl) (v : bool) : Impl :=
  with_result s
    (mkResult v (iterations (result s)) (error (result s))
       (error_optimality (result s)) (error_feasibility (result s))).

Definition set_iterations (s : Impl) (k : nat) : Impl :=
  with_result s
    (mkResult (succeeded (result s)) k (error (result s))
       (error_optimality (result s)) (error_feasibility (result s))).

(** The loop [for(iterations = 1; iterations <= maxiters && !succeeded;
    ++iterations)] once [iterations] has been initialized.  [fuel]
    bounds the number of evaluations of the loop condition; [None]
    when it runs out or when a null callback is invoked. *)
Fixpoint solve_loop (fuel : nat) (maxiters : nat) (params : BasicParams)
    (s : Impl) (state : BasicState) : option (Impl * BasicState) :=
  match fuel with
  | O => None
  | S fuel' =>
      if (iterations (result s) <=? maxiters)
         && negb (succeeded (result s)) then
        let '(s1, state1) := applyNewtonStepping s params state in
        let s2 := set_succeeded s1 (converged s1) in
        if succeeded (result s2) then Some (s2, state1) else
        match evaluateObjectiveFunction s2 state1 with
        | None => None
        | Some s3 =>
            let s4 := computeNewtonStep s3 params state1 in
            let s5 := updateResultErrors s4 in
            let s6 := set_iterations s5 (S (iterations (result s5))) in
            solve_loop fuel' maxiters params s6 state1
        end
      else Some (s, state)
  end.

(** [solve]: the object and the state after the call, and the returned
    result; [None] when an [Assert] throws. *)
Definition solve (s : Impl) (params : BasicParams) (state : BasicState)
    : option (Impl * BasicState * Result) :=
  if n s =? 0 then
    let s1 := set_succeeded s true in
    Some (s1, state, result s1)
  else
    let maxiters := max_iterations (options s) in
    let s1 := set_succeeded s false in
    match initialize s1 params state with
    | None => None
    | Some (s2, state2) =>
        let s3 := set_iterations s2 1 in
        match solve_loop (S maxiters) maxiters params s3 state2 with
        | None => None
        | Some (s4, state4) => Some (s4, state4, result s4)
        end
    end.

End Model.

End BasicSolver.

(* ================================================================== *)
(** ** src/Optima/Echelonizer.cpp *)
(* ================================================================== *)

Module Echelonizer.

Import Dense.
Local Open Scope nat_scope.

(** Matrices and vectors of numbers.  The members [S] and [Q] of the
    implementation keep their names, so the successor of [nat] and the
    type of rationals are written in full below them. *)
Local Abbreviation MatrixQ := (Matrix QArith_base.Q).
Local Abbreviation VectorQ := (list QArith_base.Q).

(** [Indices]: a vector of indices. *)
Definition Indices : Type := list nat.

(** [indices(n)]: 0, 1, ..., n - 1. *)
Definition indices (n : nat) : Indices := seq 0 n.

(** [v[i]] for an index vector and for a vector of numbers. *)
Definition at_ (v : Indices) (i : nat) : nat := nth i v 0.
Definition atQ (v : VectorQ) (i : nat) : QArith_base.Q := nth i v 0%Q.

(** [v[i] = a]. *)
Fixpoint set_at (v : Indices) (i : nat) (a : nat) : Indices :=
  match v, i with
  | [], _ => []
  | _ :: v', O => a :: v'
  | b :: v', S i' => b :: set_at v' i' a
  end.

(** [std::swap(v[i], v[j])]. *)
Definition swap_at (v : Indices) (i j : nat) : Indices :=
  set_at (set_at v i (at_ v j)) j (at_ v i).

(** The sum of [f 0], ..., [f (n - 1)]. *)
Fixpoint sumQ (n : nat) (f : nat -> QArith_base.Q) : QArith_base.Q :=
  match n with
  | O => 0%Q
  | S n' => (sumQ n' f + f n')%Q
  end.

(** The product [A * B]. *)
Definition mmul (A B : MatrixQ) : MatrixQ :=
  mkMatrix (rows A) (cols B)
    (fun i j => sumQ (cols A) (fun k => (coeff A i k * coeff B k j)%Q)).

(** [p.asPermutation()] as a dense matrix: the coefficient
    [(p[j], j)] is 1 for every [j]. *)
Definition asPermutation (p : Indices) : MatrixQ :=
  mkMatrix (length p) (length p)
    (fun i j => if i =? at_ p j then 1%Q else 0%Q).

(** [A * q.asPermutation()]: column [j] of the product is column [q[j]]
    of [A]. *)
Definition mulPermutation (A : MatrixQ) (q : Indices) : MatrixQ :=
  mkMatrix (rows A) (cols A) (fun i j => coeff A i (at_ q j)).

(** Modelled from the spec: the triangular solves of the host library
    (Eigen, not under src/).  [solveUnitLower L B] is the solution [X] of
    [L X = B] for the unit lower triangular part of [L], by forward
    substitution; [fwd_col] lists [X(0, j)], ..., [X(i - 1, j)]. *)
Fixpoint fwd_col (L : nat -> nat -> QArith_base.Q) (B : nat -> QArith_base.Q) (i : nat) : VectorQ :=
  match i with
  | O => []
  | S i' =>
      let prev := fwd_col L B i' in
      prev ++ [(B i' - sumQ i' (fun k => L i' k * atQ prev k))%Q]
  end.

Definition solveUnitLower (L B : MatrixQ) : MatrixQ :=
  mkMatrix (rows B) (cols B)
    (fun i j => atQ (fwd_col (coeff L) (fun i' => coeff B i' j) (Datatypes.S i)) i).

(** Modelled from the spec: [solveUpper U B] is the solution [X] of
    [U X = B] for the upper triangular part of the [r x r] matrix [U], by
    back substitution; [bwd_col] lists [X(r - t, j)], ..., [X(r - 1, j)]. *)
Fixpoint bwd_col (U : nat -> nat -> QArith_base.Q) (B : nat -> QArith_base.Q) (r t : nat)
    : VectorQ :=
  match t with
  | O => []
  | S t' =>
      let prev := bwd_col U B r t' in
      let i := r - Datatypes.S t' in
      ((B i - sumQ t' (fun k => U i (Datatypes.S i + k)%nat * atQ prev k)) / U i i)%Q
      :: prev
  end.

Definition solveUpper (U B : MatrixQ) : MatrixQ :=
  mkMatrix (rows B) (cols B)
    (fun i j =>
       atQ (bwd_col (coeff U) (fun i' => coeff B i' j) (rows U)
              (rows U - i)) 0).

(** Modelled from the spec: the full-pivoting LU decomposition of the
    host library ([Eigen::FullPivLU], not under src/), [P A Q = L U],
    as the echelonizer reads it: the packed factors, the two
    permutations, the largest pivot (an absolute value) and the current
    threshold. *)
Record FullPivLU : Type := mkFullPivLU {
  matrixLU : MatrixQ;
  permutationP : Indices;
  permutationQ : Indices;
  maxPivot : QArith_base.Q;
  lu_threshold : QArith_base.Q
}.

Definition lu_rows (lu : FullPivLU) : nat := rows (matrixLU lu).
Definition lu_cols (lu : FullPivLU) : nat := cols (matrixLU lu).

(** [lu.setThreshold(t)]. *)
Definition lu_setThreshold (lu : FullPivLU) (t : QArith_base.Q) : FullPivLU :=
  mkFullPivLU (matrixLU lu) (permutationP lu) (permutationQ lu)
    (maxPivot lu) t.

(** Modelled from the spec: [lu.rank()], by thresholded inspection of
    the diagonal of [U]: the number of pivots whose absolute value
    exceeds [|maxPivot| * threshold]. *)
Definition lu_rank (lu : FullPivLU) : nat :=
  length
    (filter
       (fun i => Dbl.Qltb (Qabs (maxPivot lu) * lu_threshold lu)
                          (Qabs (coeff (matrixLU lu) i i)))
       (seq 0 (Nat.min (lu_rows lu) (lu_cols lu)))).

(** [numBasicVariables]: the rank, and the decomposition with its
    threshold restored. *)
Definition numBasicVariables (lu : FullPivLU) : nat * FullPivLU :=
  if Dbl.Qltb (maxPivot lu) (10 * Dbl.epsilon) then
    let previous_threshold := lu_threshold lu in
    let lu1 := lu_setThreshold lu 1 in
    let r := lu_rank lu1 in
    (r, lu_setThreshold lu1 previous_threshold)
  else (lu_rank lu, lu).

(** [A.cwiseAbs().maxCoeff()]. *)
Definition maxAbsCoeff (A : MatrixQ) : QArith_base.Q :=
  fold_left
    (fun acc i =>
       fold_left (fun acc' j => Qmax acc' (Qabs (coeff A i j)))
                 (seq 0 (cols A)) acc)
    (seq 0 (rows A)) 0%Q.

(** [10^k] for an integer [k]. *)
Definition pow10 (k : Z) : QArith_base.Q := Qpower 10 k.

(** The search behind [ceil_log10]: the first [k], counting up from [k0],
    with [q <= 10^k]. *)
Fixpoint ceil_log10_from (q : QArith_base.Q) (k0 : Z) (fuel : nat) : Z :=
  match fuel with
  | O => k0
  | Datatypes.S fuel' =>
      if Qle_bool q (pow10 k0) then k0
      else ceil_log10_from q (k0 + 1)%Z fuel'
  end.

(** [std::ceil(std::log10(q))] for a positive [q]: the least integer [k]
    with [q <= 10^k]. *)
Definition ceil_log10 (q : QArith_base.Q) : Z :=
  let lo := (- (Z.log2 (Z.pos (Qden q)) + 1))%Z in
  let hi := (Z.log2 (Z.abs (Qnum q)) + 1)%Z in
  ceil_log10_from q lo (Z.to_nat (hi - lo)).

(** [sigma = 10^(1 + ceil(log10(max|A|)))], and 0 for an empty or zero
    matrix (where [log10] is minus infinity). *)
Definition compute_sigma (A : MatrixQ) : QArith_base.Q :=
  if size A =? 0 then 0%Q else
  let s := maxAbsCoeff A in
  if Qeq_bool s 0 then 0%Q else pow10 (1 + ceil_log10 s).

(** [Echelonizer::Impl]. *)
Record Impl : Type := mkImpl {
  lu : FullPivLU;
  R : MatrixQ;
  S : MatrixQ;
  P : Indices;
  Ptr : Indices;
  Q : Indices;
  Qaux : Indices;
  inv_ordering : Indices;
  M : VectorQ;
  Kb : Indices;
  Kn : Indices;
  R0 : MatrixQ;
  S0 : MatrixQ;
  Q0 : Indices;
  threshold : QArith_base.Q;
  sigma : QArith_base.Q
}.

(** A default-constructed [Impl]: empty matrices and vectors. *)
Definition Impl_default : Impl :=
  let empty := mkMatrix 0 0 (fun _ _ => 0%Q) in
  mkImpl (mkFullPivLU empty [] [] 0 0) empty empty [] [] [] [] [] []
    [] [] empty empty [] 0 0.

Definition with_RSQ (s : Impl) (R' S' : MatrixQ) (Q' : Indices)
    (M' : VectorQ) (Kb' Kn' : Indices) : Impl :=
  mkImpl (lu s) R' S' (P s) (Ptr s) Q' (Qaux s) (inv_ordering s) M'
    Kb' Kn' (R0 s) (S0 s) (Q0 s) (threshold s) (sigma s).

(** [M.row(i) *= c]. *)
Definition scaleRow (A : MatrixQ) (i : nat) (c : QArith_base.Q) : MatrixQ :=
  mkMatrix (rows A) (cols A)
    (fun i' j => if i' =? i then (coeff A i' j * c)%Q else coeff A i' j).

(** [M.row(i) -= c * M.row(k)]. *)
Definition subRow (A : MatrixQ) (i : nat) (c : QArith_base.Q) (k : nat) : MatrixQ :=
  mkMatrix (rows A) (cols A)
    (fun i' j => if i' =? i then (coeff A i' j - c * coeff A k j)%Q
                 else coeff A i' j).

(** [M.col(j) = v]. *)
Definition setColQ (A : MatrixQ) (j : nat) (v : VectorQ) : MatrixQ :=
  mkMatrix (rows A) (cols A)
    (fun i j' => if j' =? j then atQ v i else coeff A i j').

(** [M(i, j) = a]. *)
Definition setCoeff (A : MatrixQ) (i j : nat) (a : QArith_base.Q) : MatrixQ :=
  mkMatrix (rows A) (cols A)
    (fun i' j' => if (i' =? i) && (j' =? j) then a else coeff A i' j').

Section Model.

(** [lu.compute(A)] of the host library. *)
Variable eigen_fullPivLU : MatrixQ -> FullPivLU.

(** [std::sort(first, last, comp)] on a range of indices. *)
Variable std_sort : (nat -> nat -> bool) -> list nat -> list nat.

(** [compute]; [None] when the assertion [n >= m] fails. *)
Definition compute (self : Impl) (A : MatrixQ) : option Impl :=
  let m := rows A in
  let n := cols A in
  if negb (m <=? n) then None else
  let inv_ordering' := indices n in
  let lu0 := eigen_fullPivLU A in
  let '(r, lu') := numBasicVariables lu0 in
  let L := leftCols (matrixLU lu') m in
  let Ubb := topLeftCorner (matrixLU lu') r r in
  let Ubn := topRightCorner (matrixLU lu') r (n - r) in
  let P' := permutationP lu' in
  let Q' := permutationQ lu' in
  let Qaux' := Q' in
  let Ptr' :=
    fold_left (fun v i => set_at v (at_ P' i) i) (indices m)
              (repeat 0 m) in
  let R1 := asPermutation P' in
  let R2 := solveUnitLower L R1 in
  let R3 := setTopRows R2 r (solveUpper Ubb (topRows R2 r)) in
  let S1 := Ubn in
  let S2 := solveUpper Ubb S1 in
  let Kb' := indices r in
  let Kn' := indices (n - r) in
  let threshold' :=
    (Qabs (maxPivot lu') * lu_threshold lu'
     * inject_Z (Z.of_nat (Nat.max (rows A) (cols A))))%Q in
  let sigma' := compute_sigma A in
  Some (mkImpl lu' R3 S2 P' Ptr' Q' Qaux' inv_ordering' (M self)
          Kb' Kn' R3 S2 Q' threshold' sigma').

(** [updateWithSwapBasicVariable]; [None] when an assertion fails. *)
Definition updateWithSwapBasicVariable (self : Impl) (ib in_ : nat)
    : option Impl :=
  let '(r, lu') := numBasicVariables (lu self) in
  if negb (ib <? r) then None else
  if negb (in_ <? lu_cols lu' - r) then None else
  if negb (Dbl.Qltb (threshold self) (Qabs (coeff (S self) ib in_)))
  then None else
  let M' := col (S self) in_ in
  let m := rows (S self) in
  let aux := (1 / coeff (S self) ib in_)%Q in
  let R1 := scaleRow (R self) ib aux in
  let R2 :=
    fold_left
      (fun Racc i =>
         if negb (i =? ib)
         then subRow Racc i (coeff (S self) i in_) ib else Racc)
      (seq 0 m) R1 in
  let S1 := scaleRow (S self) ib aux in
  let S2 :=
    fold_left
      (fun Sacc i =>
         if negb (i =? ib)
         then subRow Sacc i (coeff Sacc i in_) ib else Sacc)
      (seq 0 m) S1 in
  let S3 := setColQ S2 in_ (map (fun a => (- a * aux)%Q) M') in
  let S4 := setCoeff S3 ib in_ aux in
  let Q' := swap_at (Q self) ib (m + in_) in
  Some (mkImpl lu' R2 S4 (P self) (Ptr self) Q' (Qaux self)
          (inv_ordering self) M' (Kb self) (Kn self) (R0 self)
          (S0 self) (Q0 self) (threshold self) (sigma self)).

(** The loop of [find_nonbasic_candidate(i, j)] over the columns [k]
    still to be inspected; [ntail] is the position in [Q] where the
    non-basic indices start. *)
Fixpoint find_nonbasic_loop (self : Impl) (w : VectorQ) (ntail : nat)
    (i : nat) (ks : list nat) (j : nat) (max : Dbl.double)
    : nat * Dbl.double :=
  match ks with
  | [] => (j, max)
  | k :: ks' =>
      if Qle_bool (Qabs (coeff (S self) i k)) (threshold self)
      then find_nonbasic_loop self w ntail i ks' j max
      else
        let tmp :=
          (atQ w (at_ (Q self) (ntail + k))
           * Qabs (coeff (S self) i k))%Q in
        if Dbl.gtb (Dbl.Fin tmp) max
        then find_nonbasic_loop self w ntail i ks' k (Dbl.Fin tmp)
        else find_nonbasic_loop self w ntail i ks' j max
  end.

(** [find_nonbasic_candidate(i, j)]: the candidate [j] and the returned
    maximum. *)
Definition find_nonbasic_candidate (self : Impl) (w : VectorQ)
    (nn : nat) (i : nat) : nat * Dbl.double :=
  find_nonbasic_loop self w (length (Q self) - nn) i (seq 0 nn) 0
    Dbl.NInf.

(** The loop [for(Index i = 0; i < nb; ++i)] of the greedy pass, over
    the rows still to be visited. *)
Fixpoint greedy_loop (self : Impl) (w : VectorQ) (nn : nat)
    (rows_left : list nat) : option Impl :=
  match rows_left with
  | [] => Some self
  | i :: rest =>
      let wi := atQ w (at_ (Q self) i) in
      let '(j, wj) := find_nonbasic_candidate self w nn i in
      if Dbl.ltb (Dbl.Fin wi) wj then
        match updateWithSwapBasicVariable self i j with
        | None => None
        | Some self' => greedy_loop self' w nn rest
        end
      else greedy_loop self w nn rest
  end.

(** [std::sort] applied to the first [k] entries of [v]. *)
Definition sort_prefix (comp : nat -> nat -> bool) (v : Indices)
    (k : nat) : Indices :=
  std_sort comp (firstn k v) ++ skipn k v.

(** [K.transpose().applyThisOnTheLeft(A)] on the first [k] rows of [A]:
    row [i] of the result is row [K[i]] of [A]. *)
Definition permuteRows (K : Indices) (k : nat) (A : MatrixQ)
    : MatrixQ :=
  mkMatrix (rows A) (cols A)
    (fun i j => if i <? k then coeff A (at_ K i) j else coeff A i j).

(** [K.applyThisOnTheRight(A)]: column [j] of the result is column
    [K[j]] of [A]. *)
Definition permuteCols (K : Indices) (A : MatrixQ) : MatrixQ :=
  mkMatrix (rows A) (cols A) (fun i j => coeff A i (at_ K j)).

(** [K.transpose().applyThisOnTheLeft(v.segment(start, k))]: entry
    [start + i] of the result is entry [start + K[i]] of [v]. *)
Definition permuteSegment (K : Indices) (start k : nat) (v : Indices)
    : Indices :=
  map (fun p => if (start <=? p) && (p <? start + k)
                then at_ v (start + at_ K (p - start)) else at_ v p)
      (seq 0 (length v)).

(** The reordering shared by [updateWithPriorityWeights] and
    [updateOrdering]. *)
Definition applyOrdering (self : Impl) (nb nn : nat) (Kb' Kn' : Indices)
    : Impl :=
  let S1 := permuteRows Kb' nb (S self) in
  let S2 := permuteCols Kn' S1 in
  let R1 := permuteRows Kb' nb (R self) in
  let Q1 := permuteSegment Kb' 0 nb (Q self) in
  let Q2 := permuteSegment Kn' (length Q1 - nn) nn Q1 in
  with_RSQ self R1 S2 Q2 (M self) Kb' Kn'.

(** [updateWithPriorityWeights]; [None] when an assertion fails. *)
Definition updateWithPriorityWeights (self : Impl) (w : VectorQ)
    : option Impl :=
  if negb (length w =? lu_cols (lu self)) then None else
  let '(r, lu') := numBasicVariables (lu self) in
  let n := lu_cols lu' in
  let nb := r in
  let nn := n - r in
  match (if 0 <? nn then greedy_loop self w nn (seq 0 nb)
         else Some self) with
  | None => None
  | Some self1 =>
      let Kb' :=
        sort_prefix
          (fun l r => Dbl.Qltb (atQ w (at_ (Q self1) r))
                               (atQ w (at_ (Q self1) l)))
          (Kb self1) nb in
      let Kn' :=
        sort_prefix
          (fun l r =>
             Dbl.Qltb (atQ w (at_ (Q self1) (length (Q self1) - nn + r)))
                      (atQ w (at_ (Q self1) (length (Q self1) - nn + l))))
          (Kn self1) nn in
      Some (applyOrdering self1 nb nn Kb' Kn')
  end.

(** [reset]. *)
Definition reset (self : Impl) : Impl :=
  with_RSQ self (R0 self) (S0 self) (Q0 self) (M self) (Kb self)
    (Kn self).

(** [cleanResidualRoundoffErrors]. *)
Definition cleanResidualRoundoffErrors (self : Impl) : Impl :=
  let clean (A : MatrixQ) :=
    mkMatrix (rows A) (cols A)
      (fun i j => (coeff A i j + sigma self - sigma self)%Q) in
  with_RSQ self (clean (R self)) (clean (S self)) (Q self) (M self)
    (Kb self) (Kn self).

(** [Echelonizer::C]: the canonical form [[I S]] on the first [nb]
    rows, zero below. *)
Definition C (self : Impl) : MatrixQ :=
  let m := lu_rows (lu self) in
  let n := lu_cols (lu self) in
  let nb := fst (numBasicVariables (lu self)) in
  mkMatrix m n
    (fun i j =>
       if i <? nb then
         if j <? nb then (if i =? j then 1%Q else 0%Q)
         else coeff (S self) i (j - nb)
       else 0%Q).

(** [R * A * Q]. *)
Definition RAQ (self : Impl) (A : MatrixQ) : MatrixQ :=
  mmul (R self) (mulPermutation A (Q self)).

End Model.

(** [updateOrdering(Kb, Kn)]; [None] when an assertion fails.  The
    arguments shadow the members [Kb] and [Kn], which are not written. *)
Definition updateOrdering (self : Impl) (Kb' Kn' : Indices)
    : option Impl :=
  let n := length (Q self) in
  let nb := rows (S self) in
  let nn := n - nb in
  if negb (nb =? length Kb') then None else
  if negb (nn =? length Kn') then None else
  let S1 := permuteRows Kb' nb (S self) in
  let S2 := permuteCols Kn' S1 in
  let R1 := permuteRows Kb' nb (R self) in
  let Q1 := permuteSegment Kb' 0 nb (Q self) in
  let Q2 := permuteSegment Kn' (length Q1 - nn) nn Q1 in
  Some (with_RSQ self R1 S2 Q2 (M self) (Kb self) (Kn self)).

(** The accessors of [Echelonizer]. *)
Definition numVariables (self : Impl) : nat := lu_cols (lu self).

Definition numEquations (self : Impl) : nat := lu_rows (lu self).

Definition numNonBasicVariables (self : Impl) : nat :=
  numVariables self - fst (numBasicVariables (lu self)).

(** [indicesEquations]. *)
Definition indicesEquations (self : Impl) : Indices := Ptr self.

(** [indicesBasicVariables]: [Q().head(numBasicVariables())]. *)
Definition indicesBasicVariables (self : Impl) : Indices :=
  firstn (fst (numBasicVariables (lu self))) (Q self).

(** [indicesNonBasicVariables]: [Q().tail(numNonBasicVariables())]. *)
Definition indicesNonBasicVariables (self : Impl) : Indices :=
  skipn (length (Q self) - numNonBasicVariables self) (Q self).

End Echelonizer.

(* ================================================================== *)
(** ** src/Optima/Exception.cpp *)
(* ================================================================== *)

Module Exception.

Import Ascii String.
Local Open Scope string_scope.

(** The search of [std::find_end] from the position [pos] on: the
    position of the last occurrence of [pat] seen, [best] when there is
    none. *)
Fixpoint find_end_from (s pat : string) (pos best : nat) : nat :=
  match s with
  | EmptyString => best
  | String _ s' =>
      find_end_from s' pat (Datatypes.S pos)
        (if prefix pat s then pos else best)
  end.

(** [std::find_end(s.begin(), s.end(), pat.begin(), pat.end()) -
    s.begin()]: the position of the last occurrence of [pat] in [s];
    the size of [s] when [pat] is empty or does not occur. *)
Definition find_end (s pat : string) : nat :=
  match pat with
  | EmptyString => length s
  | _ => find_end_from s pat 0 (length s)
  end.

(** [ss << line] for an [int]: its decimal numeral, with a minus sign
    when negative. *)
Definition show_int (line : Z) : string :=
  DecimalString.NilZero.string_of_int (Z.to_int line).

(** [internal::location]. *)
Definition location (file : string) (line : Z) : string :=
  let str := "Optima/" in
  let pos := find_end file str in
  substring pos (length file - pos) file ++ ":" ++ show_int line.

End Exception.

(* ================================================================== *)
(** * Properties *)
(* ================================================================== *)

(** ** ResidualFunction: what an aborted update leaves behind *)

Module ResidualFunctionSpec.

Import Dbl ResidualFunction.

Section Spec.

Variables Matrix MatrixRWQ Stability2 CanonicalMatrix ResidualVector : Type.

Local Abbreviation Impl :=
  (Impl Matrix MatrixRWQ Stability2 CanonicalMatrix ResidualVector).

(** The cached state of the residual function: the echelon form of
    [W] (with its priority weights), the stability classification, the
    canonical Jacobian and the residual vector. *)
Definition same_cached_state (a b : Impl) : Prop :=
  RWQ b = RWQ a /\ wx b = wx a /\ stability b = stability a /\
  jacobian b = jacobian a /\ residual b = residual a.

(** What the callbacks leave behind when the first failure is the one
    of [f], of [h] or of [v]. *)
Definition aborted_at (status : ResidualFunctionUpdateStatus)
    (a b : Impl) : Prop :=
  (status_f status = FAILED /\
   calls b = calls a ++ [CallF] /\
   hres b = hres a /\ vres b = vres a)
  \/
  (status_f status = SUCCEEDED /\ status_h status = FAILED /\
   calls b = calls a ++ [CallF; CallH] /\
   vres b = vres a)
  \/
  (status_f status = SUCCEEDED /\ status_h status = SUCCEEDED /\
   status_v status = FAILED /\
   calls b = calls a ++ [CallF; CallH; CallV]).

End Spec.

End ResidualFunctionSpec.

(** ** BasicSolver: the iterates of the Newton loop *)

Module BasicSolverSpec.

Import Dbl Dense BasicSolver.
Local Open Scope nat_scope.

Section Spec.

Variable ActiveStepper : Type.
Variable stepper_decompose :
  ActiveStepper -> Vector -> Vector -> Matrix double -> Vector ->
  Matrix double -> ActiveStepper.
Variable stepper_solve :
  ActiveStepper -> Vector -> Vector -> Vector -> Vector -> Vector ->
  ActiveStepper * (Vector * Vector * Vector * Vector * Vector).

Local Abbreviation Impl := (Impl ActiveStepper).

(** One pass through the body of the loop of [solve] that does not
    leave it: the Newton stepping, the convergence test, the
    re-evaluation of the objective, the next Newton step and its
    errors, and the increment of [iterations]. *)
Definition loop_body (params : BasicParams) (s : Impl)
    (state : BasicState) : option (Impl * BasicState) :=
  let '(s1, state1) := applyNewtonStepping s params state in
  let s2 := set_succeeded s1 (converged s1) in
  match evaluateObjectiveFunction s2 state1 with
  | None => None
  | Some s3 =>
      let s4 := computeNewtonStep stepper_decompose stepper_solve
                  s3 params state1 in
      let s5 := updateResultErrors s4 in
      Some (set_iterations s5 (S (iterations (result s5))), state1)
  end.

(** The solver and the state after [k] passes. *)
Fixpoint iterate (k : nat) (params : BasicParams) (s : Impl)
    (state : BasicState) : option (Impl * BasicState) :=
  match k with
  | O => Some (s, state)
  | S k' =>
      match loop_body params s state with
      | None => None
      | Some (s1, state1) => iterate k' params s1 state1
      end
  end.

(** The members a step of the solver never writes. *)
Definition same_setup (a b : Impl) : Prop :=
  problem b = problem a /\ options b = options a /\ n b = n a.

(** The error stored in the result is the one of the stored residuals. *)
Definition errors_updated (s : Impl) : Prop :=
  error (result s)
    = max (norminf (rx (newton s))) (norminf (ry (newton s))).

(** The convergence test passes after [k] passes of the loop: the error
    [max(||rx||_inf, ||ry||_inf)] of the residuals computed by the
    [k]-th pass (by [initialize] for [k = 0]) is below the tolerance.
    It is the test the loop evaluates in its iteration [k + 1]. *)
Definition converged_after (k : nat) (params : BasicParams) (s0 : Impl)
    (state0 : BasicState) : Prop :=
  exists sk statek,
    iterate k params s0 state0 = Some (sk, statek) /\
    error (result sk)
      = max (norminf (rx (newton sk))) (norminf (ry (newton sk))) /\
    ltb (error (result sk)) (tolerance (options s0)) = true.

(** The solvers a program can hold for a problem [p]: the constructed
    one, and the ones left by [setOptions] and [solve]. *)
Inductive reachable (p : BasicProblem) : Impl -> Prop :=
| reach_new : forall stepper0 options0 s,
    Impl_new p stepper0 options0 = Some s -> reachable p s
| reach_setOptions : forall s o,
    reachable p s -> reachable p (setOptions s o)
| reach_solve : forall s params state s' state' res,
    reachable p s ->
    solve stepper_decompose stepper_solve s params state
      = Some (s', state', res) ->
    reachable p s'.

End Spec.

(** [xlower <= x <= xupper], componentwise. *)
Definition within_bounds (xlower xupper x : Vector) : Prop :=
  forall i, i < length x ->
    leb (get xlower i) (get x i) = true /\
    leb (get x i) (get xupper i) = true.

(** The projection of a full step [t] onto the bounds: a component that
    would cross a bound is clamped to it, the others are unchanged. *)
Definition projected (xlower xupper t x : Vector) (i : nat) : Prop :=
  (ltb (get t i) (get xlower i) = true /\ get x i = get xlower i)
  \/
  (ltb (get xupper i) (get t i) = true /\ get x i = get xupper i)
  \/
  (ltb (get t i) (get xlower i) = false /\
   ltb (get xupper i) (get t i) = false /\ get x i = get t i).

End BasicSolverSpec.

(** ** Stepper: the contract of the saddle point solver *)

Module StepperSpec.

Import Dbl Dense Stepper.
Local Open Scope nat_scope.

Section Spec.

Variable SaddlePointSolver : Type.
Variable spsolver_solve_inplace :
  SaddlePointSolver -> Vector -> Vector -> Vector * Vector.

(** Modelled from the spec: [SaddlePointSolver::solve] of
    Optima/SaddlePointSolver.hpp, the class [Stepper] includes, which is
    not among the sources (Core/SaddlePointSolver.cpp is an earlier
    class with another interface): "Unstable components of dx are set
    to 0", for the unstable variables [ju] the solver was decomposed
    with. *)
Definition unstable_components_zero (sp : SaddlePointSolver)
    (ju : list nat) : Prop :=
  forall a b i,
    In i ju -> i < length a ->
    get (fst (spsolver_solve_inplace sp a b)) i = Fin 0.

End Spec.

(** The step after the NaN entries of [raw] were replaced: no NaN is
    left, a NaN became a zero step and the other entries are kept. *)
Definition nan_replaced (raw step : Vector) : Prop :=
  length step = length raw /\
  forall i, i < length raw ->
    isNaN (get step i) = false /\
    (isNaN (get raw i) = true -> get step i = Fin 0) /\
    (isNaN (get raw i) = false -> get step i = get raw i).

End StepperSpec.

(** ** The rank of a factorization *)

Module RankSpec.

Import Dbl Dense.
Local Open Scope nat_scope.

(** The rule as the specification words it, for the absolute diagonal
    [D] of [U] of an [m x n] factorization: the number of diagonal
    entries above [maxPivot * eps * max(m, n)], and above the absolute
    threshold 1 when the largest pivot is below [10 * eps]. *)
Definition claimed_rank (D : list double) (m n : nat) : nat :=
  let maxPivot := LU.maxCoeff D in
  let tau :=
    if ltb maxPivot (Fin (10 * epsilon)) then Fin 1
    else mul (mul maxPivot (Fin epsilon))
             (Fin (inject_Z (Z.of_nat (Nat.max m n)))) in
  length (filter (fun d => gtb d tau) D).

(** [decompose] inspects the diagonal from its end: the rank [r] leaves
    out exactly the trailing entries that are not above [tau]. *)
Definition trailing_rank (D : list double) (tau : double) (n r : nat)
    : Prop :=
  r <= n /\
  (forall i, r <= i -> i < n -> leb (get D i) tau = true) /\
  (0 < r -> leb (get D (r - 1)) tau = false).

End RankSpec.

(** ** Echelonizer: the canonical form and its orderings *)

Module EchelonizerSpec.

Import Dense.
Module E := Echelonizer.
Local Open Scope nat_scope.

(** The unit lower triangular factor [L] and the upper triangular factor
    [U] packed in [matrixLU]. *)
Definition Lfull (lu : E.FullPivLU) (i k : nat) : Q :=
  if k <? i then coeff (E.matrixLU lu) i k
  else if k =? i then 1%Q else 0%Q.

Definition Ufull (lu : E.FullPivLU) (i j : nat) : Q :=
  if i <=? j then coeff (E.matrixLU lu) i j else 0%Q.

(** The detected rank. *)
Definition rank_of (lu : E.FullPivLU) : nat :=
  fst (E.numBasicVariables lu).

(** [lu] is an exact full-pivoting factorization of [A]:
    [P A Q = L U], with a threshold that is not negative. *)
Definition exact_factorization (A : Matrix Q) (lu : E.FullPivLU) : Prop :=
  E.lu_rows lu = rows A /\
  E.lu_cols lu = cols A /\
  length (E.permutationP lu) = rows A /\
  length (E.permutationQ lu) = cols A /\
  (0 <= E.lu_threshold lu)%Q /\
  forall i j, i < rows A -> j < cols A ->
    (E.sumQ (rows A)
       (fun k => coeff (E.asPermutation (E.permutationP lu)) i k
                 * coeff A k (E.at_ (E.permutationQ lu) j))
     == E.sumQ (rows A) (fun k => Lfull lu i k * Ufull lu k j))%Q.

(** The detected rank is the rank of [U]: the pivots kept are not zero
    and the rows of [U] left out are zero. *)
Definition rank_exact (lu : E.FullPivLU) : Prop :=
  (forall i, i < rank_of lu -> ~ (coeff (E.matrixLU lu) i i == 0)%Q) /\
  (forall i j, rank_of lu <= i -> i < E.lu_rows lu ->
               i <= j -> j < E.lu_cols lu ->
               (coeff (E.matrixLU lu) i j == 0)%Q).

(** The shape of an echelonizer that holds a factorization of an
    [m x n] matrix. *)
Definition well_formed (self : E.Impl) (m n : nat) : Prop :=
  let r := rank_of (E.lu self) in
  E.lu_rows (E.lu self) = m /\
  E.lu_cols (E.lu self) = n /\
  rows (E.R self) = m /\ cols (E.R self) = m /\
  rows (E.S self) = r /\ cols (E.S self) = n - r /\
  length (E.Q self) = n /\
  r <= m /\ m <= n /\
  (0 <= E.threshold self)%Q /\
  Permutation (E.Kb self) (seq 0 r) /\
  Permutation (E.Kn self) (seq 0 (n - r)).

(** The canonical identity [R A Q = [I S]], padded with zero rows. *)
Definition canonical_identity (self : E.Impl) (A : Matrix Q) : Prop :=
  forall i j, i < rows A -> j < cols A ->
    (coeff (E.RAQ self A) i j == coeff (E.C self) i j)%Q.

Definition canonical (self : E.Impl) (A : Matrix Q) : Prop :=
  well_formed self (rows A) (cols A) /\ canonical_identity self A.

(** The identity holds to within the tolerance [tol]. *)
Definition canonical_within (tol : Q) (self : E.Impl) (A : Matrix Q)
    : Prop :=
  forall i j, i < rows A -> j < cols A ->
    (Qabs (coeff (E.RAQ self A) i j - coeff (E.C self) i j) <= tol)%Q.

(** The weights of the variables at the positions [lo], ..., [hi - 1]
    of the ordering [q] do not increase. *)
Definition descending (w : list Q) (q : list nat) (lo hi : nat) : Prop :=
  forall a b, lo <= a -> a < b -> b < hi ->
    (E.atQ w (E.at_ q b) <= E.atQ w (E.at_ q a))%Q.

(** The contract of [std::sort] for the comparators of the echelonizer,
    [comp(l, r) = key(l) > key(r)]: the result is a permutation of the
    range, in an order in which no key increases. *)
Definition sort_contract
    (std_sort : (nat -> nat -> bool) -> list nat -> list nat) : Prop :=
  forall (key : nat -> Q) (l : list nat),
    Permutation (std_sort (fun a b => Dbl.Qltb (key b) (key a)) l) l /\
    StronglySorted (fun a b => (key b <= key a)%Q)
      (std_sort (fun a b => Dbl.Qltb (key b) (key a)) l).

(** A stable sort: insertion sort, an element moving only past the
    elements that [comp] puts before it. *)
Fixpoint insert_sorted (comp : nat -> nat -> bool) (a : nat)
    (l : list nat) : list nat :=
  match l with
  | [] => [a]
  | b :: l' => if comp b a then b :: insert_sorted comp a l' else a :: l
  end.

Fixpoint insertion_sort (comp : nat -> nat -> bool) (l : list nat)
    : list nat :=
  match l with
  | [] => []
  | a :: l' => insert_sorted comp a (insertion_sort comp l')
  end.

(** The order of the variables the specification words: the basic and
    the non-basic variables, each stable-sorted by descending weight. *)
Definition stable_order (w : list Q) (nb : nat) (q : list nat)
    : list nat :=
  let comp a b := Dbl.Qltb (E.atQ w b) (E.atQ w a) in
  insertion_sort comp (firstn nb q) ++ insertion_sort comp (skipn nb q).

(** What [find_nonbasic_candidate(i, j)] returns for the row [i]: minus
    infinity when no column has a pivot above the threshold; otherwise a
    column [j] with such a pivot that maximizes [|S(i, j)| * w_j] among
    them, together with that maximum. *)
Definition best_candidate (self : E.Impl) (w : list Q) (nn i j : nat)
    (wj : Dbl.double) : Prop :=
  let value k :=
    (E.atQ w (E.at_ (E.Q self) (length (E.Q self) - nn + k))
     * Qabs (coeff (E.S self) i k))%Q in
  let eligible k :=
    (E.threshold self < Qabs (coeff (E.S self) i k))%Q in
  ((forall k, k < nn -> ~ eligible k) /\ wj = Dbl.NInf /\ j = 0)
  \/
  (j < nn /\ eligible j /\ wj = Dbl.Fin (value j) /\
   forall k, k < nn -> eligible k -> (value k <= value j)%Q).

(** The greedy pass of [updateWithPriorityWeights]. *)
Definition greedy_pass (self : E.Impl) (w : list Q) : option E.Impl :=
  let r := rank_of (E.lu self) in
  let nn := E.lu_cols (E.lu self) - r in
  if 0 <? nn then E.greedy_loop self w nn (seq 0 r) else Some self.

(** The comparators of the two sorts. *)
Definition comp_basic (self : E.Impl) (w : list Q) (l r : nat) : bool :=
  Dbl.Qltb (E.atQ w (E.at_ (E.Q self) r)) (E.atQ w (E.at_ (E.Q self) l)).

Definition comp_nonbasic (self : E.Impl) (w : list Q) (nn : nat)
    (l r : nat) : bool :=
  Dbl.Qltb (E.atQ w (E.at_ (E.Q self) (length (E.Q self) - nn + r)))
           (E.atQ w (E.at_ (E.Q self) (length (E.Q self) - nn + l))).

End EchelonizerSpec.

(** ** Further properties of the solver, the echelonizer and the stepper *)

Module BasicSolverUse.

Import Dbl BasicSolver.
Local Open Scope nat_scope.

(** The number of evaluations of the objective and of the constraint
    function in a list of evaluations. *)
Definition count_objective (l : list Evaluation) : nat :=
  length (filter (fun e => match e with
                           | EvalObjective _ => true
                           | EvalConstraint _ => false
                           end) l).

Definition count_constraint (l : list Evaluation) : nat :=
  length (filter (fun e => match e with
                           | EvalObjective _ => false
                           | EvalConstraint _ => true
                           end) l).

(** The fixed variables hold their values: [x(ifixed) = xfixed]. *)
Definition fixed_at (ifixed : list nat) (xfixed x : Vector) : Prop :=
  forall k, k < length ifixed -> get x (nth k ifixed 0) = get xfixed k.

End BasicSolverUse.

Module ResidualFunctionUse.

Import Dbl.

(** One coefficient of the priority weights that
    [updateEchelonFormMatrixW] computes from [x] and its bounds. *)
Definition priority_weight (x l u : double) : double :=
  let w1 := min (sub x l) (sub u x) in
  let w2 := if isInf w1 then abs x else w1 in
  if gtb w2 (Fin 0) then w2 else Fin (-1).

(** The vector of the priority weights before the test against zero:
    the distance to the nearest bound, and [abs(x)] where it is
    infinite. *)
Definition raw_weights (x l u : Vector) : Vector :=
  let wx1 := zipWith min (zipWith sub x l) (zipWith sub u x) in
  select (map isInf wx1) (map abs x) wx1.

End ResidualFunctionUse.

Module DblSpec.

Import Dbl.

(** Two doubles are the same number: NaN and the infinities are compared
    by kind, finite numbers by value. *)
Definition eqv (a b : double) : Prop :=
  match a, b with
  | NaN, NaN | NInf, NInf | PInf, PInf => True
  | Fin x, Fin y => (x == y)%Q
  | _, _ => False
  end.

(** A finite number that is not negative. *)
Definition magnitude (d : double) : Prop :=
  exists q, d = Fin q /\ (0 <= q)%Q.

End DblSpec.

Module EchelonizerUse.

Import Dense.
Module E := Echelonizer.
Local Open Scope nat_scope.

(** The updates a user applies to a computed echelonizer. *)
Inductive Update : Type :=
| SwapBasicVariable (ib in_ : nat)
| PriorityWeights (w : list Q)
| Ordering (Kb Kn : E.Indices)
| CleanResidualRoundoffErrors.

Section Run.

Variable std_sort : (nat -> nat -> bool) -> list nat -> list nat.

Definition apply_update (self : E.Impl) (u : Update) : option E.Impl :=
  match u with
  | SwapBasicVariable ib in_ => E.updateWithSwapBasicVariable self ib in_
  | PriorityWeights w => E.updateWithPriorityWeights std_sort self w
  | Ordering Kb Kn => E.updateOrdering self Kb Kn
  | CleanResidualRoundoffErrors => Some (E.cleanResidualRoundoffErrors self)
  end.

(** A sequence of updates, the first one first; [None] when an
    assertion fails on the way. *)
Fixpoint apply_updates (self : E.Impl) (us : list Update)
    : option E.Impl :=
  match us with
  | [] => Some self
  | u :: us' =>
      match apply_update self u with
      | None => None
      | Some self' => apply_updates self' us'
      end
  end.

End Run.

(** The members [reset] restores from, and the factorization. *)
Definition same_backup (a b : E.Impl) : Prop :=
  E.lu b = E.lu a /\ E.R0 b = E.R0 a /\ E.S0 b = E.S0 a /\
  E.Q0 b = E.Q0 a.

(** The reorderings among the updates are given permutations of the [r]
    basic and of the [n - r] non-basic positions. *)
Definition valid_update (r n : nat) (u : Update) : Prop :=
  match u with
  | Ordering Kb Kn =>
      Permutation Kb (seq 0 r) /\ Permutation Kn (seq 0 (n - r))
  | _ => True
  end.

(** The index vector [q] lists each of the [n] variables once. *)
Definition lists_each_variable_once (q : E.Indices) (n : nat) : Prop :=
  Permutation q (seq 0 n).

End EchelonizerUse.

Module ExceptionSpec.

Import Ascii String.

(** The string [s] without its first [k] characters. *)
Fixpoint drop (k : nat) (s : string) : string :=
  match k, s with
  | O, _ => s
  | Datatypes.S k', String _ s' => drop k' s'
  | Datatypes.S _, EmptyString => EmptyString
  end.

(** [pat] occurs in [s] at the position [k]. *)
Definition occurs_at (pat s : string) (k : nat) : bool :=
  prefix pat (drop k s).

End ExceptionSpec.

(** ** Concrete problems *)

Module Examples.

Import Dense.
Module E := Echelonizer.
Local Open Scope nat_scope.

(** A matrix given by its rows. *)
Definition ofRows (T : Type) (zero : T) (r c : nat) (l : list (list T))
    : Matrix T :=
  mkMatrix r c (fun i j => nth j (nth i l []) zero).

(** *** Echelonizer *)

(** A [1 x 1] matrix with a pivot far below [10 * eps], and its
    factorization: no pivoting, [L = [1]], [U = A]. *)
Definition A_tiny : Matrix Q := ofRows 0%Q 1 1 [[1 / 10 ^ 20]%Q].

Definition lu_tiny : E.FullPivLU :=
  E.mkFullPivLU A_tiny [0] [0] (1 / 10 ^ 20)%Q (Dbl.epsilon * 1)%Q.

(** A [2 x 3] matrix of rank 2 and its full-pivoting factorization:
    the largest entry 4 is brought to the front by [P = [1, 0]] and
    [Q = [2, 1, 0]]; then [L = I] and [U = [[4, 1, 0], [0, 2, 1]]]. *)
Definition A_wide : Matrix Q :=
  ofRows 0%Q 2 3 [[1; 2; 0]; [0; 1; 4]]%Q.

Definition lu_wide : E.FullPivLU :=
  E.mkFullPivLU (ofRows 0%Q 2 3 [[4; 1; 0]; [0; 2; 1]]%Q)
    [1; 0] [2; 1; 0] 4%Q (Dbl.epsilon * 2)%Q.

(** The [2 x 2] identity and its factorization. *)
Definition A_id : Matrix Q := ofRows 0%Q 2 2 [[1; 0]; [0; 1]]%Q.

Definition lu_id : E.FullPivLU :=
  E.mkFullPivLU A_id [0; 1] [0; 1] 1%Q (Dbl.epsilon * 2)%Q.

Definition the (s : option E.Impl) : E.Impl :=
  match s with Some s' => s' | None => E.Impl_default end.

Definition ech_tiny : E.Impl :=
  the (E.compute (fun _ => lu_tiny) E.Impl_default A_tiny).

Definition ech_wide : E.Impl :=
  the (E.compute (fun _ => lu_wide) E.Impl_default A_wide).

Definition ech_id : E.Impl :=
  the (E.compute (fun _ => lu_id) E.Impl_default A_id).

(** The identity after a first update with the weights [(1, 2)]. *)
Definition ech_id_updated : E.Impl :=
  the (E.updateWithPriorityWeights EchelonizerSpec.insertion_sort ech_id
         [1; 2]%Q).

(** *** LU *)

(** A [1 x 1] matrix with a pivot far below [10 * eps]; its
    partial-pivoting factorization is the matrix itself. *)
Definition D_tiny : Matrix Dbl.double :=
  ofRows Dbl.NaN 1 1 [[Dbl.Fin (1 / 10 ^ 20)]].

Definition partialPivLU_trivial (A : Matrix Dbl.double) : LU.PartialPivLU :=
  LU.mkPartialPivLU A (seq 0 (rows A)).

(** A factorization of rank 1 of a [2 x 2] matrix, and a right-hand
    side. *)
Definition lu_rank_one : LU.Impl :=
  LU.mkImpl
    (LU.mkPartialPivLU
       (ofRows Dbl.NaN 2 2 [[Dbl.Fin 1; Dbl.Fin 2]; [Dbl.Fin 0; Dbl.Fin 0]])
       [0; 1])
    1.

Definition rhs_two : Matrix Dbl.double :=
  ofRows Dbl.NaN 2 1 [[Dbl.Fin 3]; [Dbl.Fin 6]].

(** The factorization [decompose] keeps for [D_tiny]. *)
Definition lu_of_tiny : LU.Impl :=
  match LU.decompose partialPivLU_trivial D_tiny with
  | Some impl => impl
  | None => LU.mkImpl (partialPivLU_trivial D_tiny) 0
  end.

(** Stand-ins for the host library on these inputs: the permutation is
    the identity, the unit lower factor is [[1]], and the upper factor is
    solved for by dividing by its diagonal. *)
Definition permute_identity (_ : list nat) (X : Matrix Dbl.double)
    : Matrix Dbl.double := X.

Definition solve_identity (_ X : Matrix Dbl.double) : Matrix Dbl.double := X.

Definition solve_diagonal (M X : Matrix Dbl.double) : Matrix Dbl.double :=
  mkMatrix (rows X) (cols X)
    (fun i j => Dbl.div (coeff X i j) (coeff M i i)).

Definition solved_two : Matrix Dbl.double :=
  match LU.solve permute_identity solve_identity solve_diagonal
          lu_rank_one rhs_two with
  | Some X => X
  | None => rhs_two
  end.

(** *** Stepper *)

(** A saddle point solver that answers with a NaN for the second dual
    variable, and one that sets the component of the unstable variable 1
    to zero. *)
Definition spsolver_nan (_ : unit) (_ _ : Matrix Dbl.double)
    (x _ _ _ : Dbl.Vector) : Dbl.Vector * Dbl.Vector :=
  (x, [Dbl.Fin 1; Dbl.NaN]).

Definition spsolver_unstable_zero (_ : unit) (a b : Dbl.Vector)
    : Dbl.Vector * Dbl.Vector :=
  (Dbl.set a 1 (Dbl.Fin 0), b).

Definition stepper_two : Stepper.Impl unit :=
  Stepper.mkImpl
    (ofRows Dbl.NaN 2 2 [[Dbl.Fin 1; Dbl.Fin 1]; [Dbl.Fin 2; Dbl.Fin 2]])
    [] [] 2 2 0 2 tt.

Definition solve_args_two : Stepper.StepperSolveArgs :=
  Stepper.mkSolveArgs [Dbl.Fin 1; Dbl.Fin 2] [Dbl.Fin 0; Dbl.Fin 0]
    [Dbl.Fin 3; Dbl.Fin 6] [Dbl.Fin 1; Dbl.Fin 1]
    (ofRows Dbl.NaN 2 2 [[Dbl.Fin 1; Dbl.Fin 0]; [Dbl.Fin 0; Dbl.Fin 1]])
    [] (Stepper.mkStability [0; 1] [] []) [] [].

Definition stepped_two : Stepper.Impl unit * Dbl.Vector * Dbl.Vector :=
  match Stepper.solve spsolver_nan stepper_two solve_args_two with
  | Some r => r
  | None => (stepper_two, [], [])
  end.

Definition raw_two
    : Dbl.Vector * Dbl.Vector * Dbl.Vector * Dbl.Vector :=
  Stepper.solve_raw spsolver_nan stepper_two solve_args_two.

(** One parameter; the first variable is stable, the second unstable. *)
Definition sens_args_two : Stepper.StepperSensitivitiesArgs :=
  let col2 (a b : Q) := ofRows Dbl.NaN 2 1 [[Dbl.Fin a]; [Dbl.Fin b]] in
  Stepper.mkSensitivitiesArgs (col2 0 0)%Q (col2 0 0)%Q (col2 0 0)%Q
    (col2 1 2)%Q (col2 3 4)%Q (ofRows Dbl.NaN 0 1 [])
    (Stepper.mkStability [0] [1] []).

Definition sens_two
    : Matrix Dbl.double * Matrix Dbl.double * Matrix Dbl.double :=
  match Stepper.sensitivities spsolver_unstable_zero stepper_two
          sens_args_two with
  | Some r => r
  | None =>
      (ofRows Dbl.NaN 0 0 [], ofRows Dbl.NaN 0 0 [], ofRows Dbl.NaN 0 0 [])
  end.

(** *** BasicSolver and NewtonStep *)

(** The stepper of the examples: the Newton step of [f(x) = |x|^2 / 2],
    [dx = -g], with the optimality residual [|g|]. *)
Definition stepper_decompose (st : unit) (_ _ : Dbl.Vector)
    (_ : Matrix Dbl.double) (_ : Dbl.Vector) (_ : Matrix Dbl.double)
    : unit := st.

Definition stepper_solve (st : unit) (_ _ _ _ g : Dbl.Vector)
    : unit * (Dbl.Vector * Dbl.Vector * Dbl.Vector * Dbl.Vector
              * Dbl.Vector) :=
  (st, (map Dbl.neg g, [], map Dbl.abs g, [], g)).

Definition objective_square (x : Dbl.Vector)
    (res : BasicSolver.ObjectiveResult) : BasicSolver.ObjectiveResult :=
  BasicSolver.mkObjectiveResult
    (fold_left (fun acc a => Dbl.add acc (Dbl.mul a a)) x (Dbl.Fin 0))
    x
    (mkMatrix (length x) (length x)
       (fun i j => if i =? j then Dbl.Fin 1 else Dbl.Fin 0)).

Definition options_default : BasicSolver.Options :=
  BasicSolver.mkOptions (Dbl.Fin (1 / 10 ^ 6)) 200 BasicSolver.Aggressive.

(** One variable with the bounds [0 <= x <= 1]. *)
Definition problem_one : BasicSolver.BasicProblem :=
  BasicSolver.mkBasicProblem 1 0 0 [0] [0] [] (Some objective_square) None.

(** Two variables, the first one with the bounds [0 <= x <= 1]. *)
Definition problem_two : BasicSolver.BasicProblem :=
  BasicSolver.mkBasicProblem 2 0 0 [0] [0] [] (Some objective_square) None.

(** No variable at all. *)
Definition problem_none : BasicSolver.BasicProblem :=
  BasicSolver.mkBasicProblem 0 0 0 [] [] [] (Some objective_square) None.

Definition params_one : BasicSolver.BasicParams :=
  BasicSolver.mkBasicParams [] [Dbl.Fin 0] [Dbl.Fin 1] [].

Definition params_none : BasicSolver.BasicParams :=
  BasicSolver.mkBasicParams [] [] [] [].

Definition solver_of (p : BasicSolver.BasicProblem)
    : BasicSolver.Impl unit :=
  match BasicSolver.Impl_new p tt options_default with
  | Some s => s
  | None =>
      BasicSolver.mkImpl p tt options_default [] (BasicSolver.resizedM 0 0)
        (Dbl.Fin 0) [] (BasicSolver.resizedM 0 0)
        BasicSolver.Result_default (BasicSolver.mkStep [] [] [] [] [])
        [] [] [] [] 0 0 0 0 0 0 []
  end.

Definition state_one : BasicSolver.BasicState :=
  BasicSolver.mkBasicState [Dbl.Fin 1] [].

Definition state_two : BasicSolver.BasicState :=
  BasicSolver.mkBasicState [Dbl.Fin (1 / 2); Dbl.Fin 7] [].

Definition state_none : BasicSolver.BasicState :=
  BasicSolver.mkBasicState [] [].

(** The solver of [problem_one] after [initialize]. *)
Definition initialized_one : BasicSolver.Impl unit * BasicSolver.BasicState :=
  match BasicSolver.initialize stepper_decompose stepper_solve
          (BasicSolver.set_succeeded (solver_of problem_one) false)
          params_one state_one with
  | Some p => p
  | None => (solver_of problem_one, state_one)
  end.

(** A solver about to step out of the bounds of the first variable. *)
Definition solver_stepping : BasicSolver.Impl unit :=
  BasicSolver.with_newton
    (BasicSolver.with_bounds (solver_of problem_two)
       [Dbl.Fin 0; Dbl.NInf] [Dbl.Fin 1; Dbl.PInf])
    tt (BasicSolver.mkStep [Dbl.Fin 5; Dbl.Fin (-3)] [] [] [] []).

Definition newton_impl : NewtonStep.Impl unit :=
  NewtonStep.mkImpl tt (NewtonStep.mkMasterVector [] [] []).

Definition newton_solver (_ : unit) (_ _ : unit)
    : unit * NewtonStep.MasterVector :=
  (tt, NewtonStep.mkMasterVector [Dbl.Fin 5; Dbl.Fin (-3)] [] []).

Definition newton_uo : NewtonStep.MasterVector :=
  NewtonStep.mkMasterVector [Dbl.Fin (1 / 2); Dbl.Fin 7] [] [].

(** *** ResidualFunction *)
Definition rf_dims : ResidualFunction.MasterDims :=
  ResidualFunction.mkDims 1 0 0 0 0.

(** [f] succeeds, [h] fails, [v] would succeed. *)
Definition rf_problem : ResidualFunction.MasterProblem unit :=
  ResidualFunction.mkMasterProblem rf_dims
    (Some (fun r _ _ _ => (true, r)))
    (Some (fun r _ _ _ => (false, r)))
    (Some (fun r _ _ _ => (true, r)))
    [] [Dbl.NInf] [Dbl.PInf].

Definition rf_impl : ResidualFunction.Impl unit unit unit unit unit :=
  ResidualFunction.mkImpl rf_dims
    (ResidualFunction.mkObjectiveResult (Dbl.Fin 0) [] tt tt false)
    (ResidualFunction.mkConstraintResult [] tt tt)
    (ResidualFunction.mkConstraintResult [] tt tt)
    tt [] tt tt tt [].

Definition rf_u : ResidualFunction.MasterVector :=
  ResidualFunction.mkMasterVector [Dbl.Fin 1] [] [].

Definition rf_status0 : ResidualFunction.ResidualFunctionUpdateStatus :=
  ResidualFunction.mkStatus true true true.

(** Stand-ins for the classes kept abstract. *)
Definition rf_jb (_ : unit) : list nat := [].
Definition rf_RWQ_update (_ _ _ : unit) (_ : Dbl.Vector) : unit := tt.
Definition rf_asMatrixViewW (_ : unit) : unit * unit := (tt, tt).
Definition rf_Stability2_update (st : unit) (_ : unit)
    (_ _ _ _ : Dbl.Vector) : unit := st.
Definition rf_Stability2_status (_ : unit) : list nat * list nat := ([], []).
Definition rf_CanonicalMatrix_update (c : unit)
    (_ : ResidualFunction.MasterMatrix unit unit) : unit := c.
Definition rf_ResidualVector_update (r : unit)
    (_ : ResidualFunction.ResidualVectorUpdateArgs unit unit) : unit := r.

Definition rf_update (jac : bool)
    : option (ResidualFunction.ResidualFunctionUpdateStatus
              * ResidualFunction.Impl unit unit unit unit unit) :=
  ResidualFunction.updateWith rf_jb rf_RWQ_update rf_asMatrixViewW
    rf_Stability2_update rf_Stability2_status rf_CanonicalMatrix_update
    rf_ResidualVector_update jac rf_status0 rf_impl rf_problem rf_u.

Definition rf_after (jac : bool)
    : ResidualFunction.ResidualFunctionUpdateStatus
      * ResidualFunction.Impl unit unit unit unit unit :=
  match rf_update jac with
  | Some r => r
  | None => (rf_status0, rf_impl)
  end.

End Examples.

(* ================================================================== *)
(** ** More instances: whole runs of the solver and of the updates *)
(* ================================================================== *)

Module Runs.

Import Dense Examples.
Module E := Echelonizer.
Local Open Scope nat_scope.

(** *** BasicSolver *)

(** What [solve] returns, and the arguments when an assertion fails. *)
Definition solved
    (stepper_solve :
       unit -> Dbl.Vector -> Dbl.Vector -> Dbl.Vector -> Dbl.Vector ->
       Dbl.Vector ->
       unit * (Dbl.Vector * Dbl.Vector * Dbl.Vector * Dbl.Vector
               * Dbl.Vector))
    (s : BasicSolver.Impl unit) (params : BasicSolver.BasicParams)
    (state : BasicSolver.BasicState)
    : BasicSolver.Impl unit * BasicSolver.BasicState * BasicSolver.Result :=
  match BasicSolver.solve stepper_decompose stepper_solve s params
          state with
  | Some r => r
  | None => (s, state, BasicSolver.Result_default)
  end.

(** The solver after [initialize], called as [solve] calls it. *)
Definition initialized (s : BasicSolver.Impl unit)
    (params : BasicSolver.BasicParams) (state : BasicSolver.BasicState)
    : BasicSolver.Impl unit * BasicSolver.BasicState :=
  match BasicSolver.initialize stepper_decompose stepper_solve s params
          state with
  | Some p => p
  | None => (s, state)
  end.

Definition solved_one
    : BasicSolver.Impl unit * BasicSolver.BasicState * BasicSolver.Result :=
  solved stepper_solve (solver_of problem_one) params_one state_one.

(** The same solver in the [Conservative] step mode, with at most five
    iterations. *)
Definition solver_conservative : BasicSolver.Impl unit :=
  BasicSolver.setOptions (solver_of problem_one)
    (BasicSolver.mkOptions (Dbl.Fin (1 / 10 ^ 6)) 5
       BasicSolver.Conservative).

Definition initialized_conservative
    : BasicSolver.Impl unit * BasicSolver.BasicState :=
  initialized (BasicSolver.set_succeeded solver_conservative false)
    params_one state_one.

Definition solved_conservative
    : BasicSolver.Impl unit * BasicSolver.BasicState * BasicSolver.Result :=
  solved stepper_solve solver_conservative params_one state_one.

(** A starting point above the upper bound of [problem_one]. *)
Definition state_far : BasicSolver.BasicState :=
  BasicSolver.mkBasicState [Dbl.Fin 7] [].

Definition initialized_far
    : BasicSolver.Impl unit * BasicSolver.BasicState :=
  initialized (solver_of problem_one) params_one state_far.

(** Two variables: the first one within [0 <= x <= 1], the second one
    fixed at 3; at most five iterations. *)
Definition problem_fixed : BasicSolver.BasicProblem :=
  BasicSolver.mkBasicProblem 2 0 0 [0] [0] [1] (Some objective_square)
    None.

Definition params_fixed : BasicSolver.BasicParams :=
  BasicSolver.mkBasicParams [] [Dbl.Fin 0] [Dbl.Fin 1] [Dbl.Fin 3].

Definition solver_fixed : BasicSolver.Impl unit :=
  BasicSolver.setOptions (solver_of problem_fixed)
    (BasicSolver.mkOptions (Dbl.Fin (1 / 10 ^ 6)) 5
       BasicSolver.Aggressive).

(** A stepper whose step has the size of [x]: [dx = -x]. *)
Definition stepper_solve_sized (st : unit) (x _ _ _ g : Dbl.Vector)
    : unit * (Dbl.Vector * Dbl.Vector * Dbl.Vector * Dbl.Vector
              * Dbl.Vector) :=
  (st, (map Dbl.neg x, [], map Dbl.abs g, [], g)).

Definition solved_fixed
    : BasicSolver.Impl unit * BasicSolver.BasicState * BasicSolver.Result :=
  solved stepper_solve_sized solver_fixed params_fixed state_two.

(** A stepper whose step is finite whatever [x] is: [dx = -1]. *)
Definition stepper_solve_unit (st : unit) (x _ _ _ g : Dbl.Vector)
    : unit * (Dbl.Vector * Dbl.Vector * Dbl.Vector * Dbl.Vector
              * Dbl.Vector) :=
  (st, (map (fun _ => Dbl.Fin (-1)) x, [], map Dbl.abs g, [], g)).

Definition solved_bounded
    : BasicSolver.Impl unit * BasicSolver.BasicState * BasicSolver.Result :=
  solved stepper_solve_unit (solver_of problem_one) params_one state_far.

(** *** LU *)

(** The zero matrix, which is its own factorization. *)
Definition A_zero : Matrix Dbl.double :=
  ofRows Dbl.NaN 2 2 [[Dbl.Fin 0; Dbl.Fin 0]; [Dbl.Fin 0; Dbl.Fin 0]].

Definition lu_of_zero : LU.Impl :=
  match LU.decompose partialPivLU_trivial A_zero with
  | Some impl => impl
  | None => LU.mkImpl (partialPivLU_trivial A_zero) 0
  end.

(** *** ResidualFunction *)

Definition rf_dims_two : ResidualFunction.MasterDims :=
  ResidualFunction.mkDims 2 0 0 0 0.

(** Two variables, [0 <= x0 <= 1] and [0 <= x1]; the three callbacks
    succeed and do not read their options. *)
Definition rf_problem_ok : ResidualFunction.MasterProblem unit :=
  ResidualFunction.mkMasterProblem rf_dims_two
    (Some (fun r _ _ _ => (true, r)))
    (Some (fun r _ _ _ => (true, r)))
    (Some (fun r _ _ _ => (true, r)))
    [] [Dbl.Fin 0; Dbl.Fin 0] [Dbl.Fin 1; Dbl.PInf].

Definition rf_impl_two : ResidualFunction.Impl unit unit unit unit unit :=
  ResidualFunction.mkImpl rf_dims_two
    (ResidualFunction.mkObjectiveResult (Dbl.Fin 0) [] tt tt false)
    (ResidualFunction.mkConstraintResult [] tt tt)
    (ResidualFunction.mkConstraintResult [] tt tt)
    tt [] tt tt tt [].

(** [x0] inside its bounds, [x1] on its lower bound. *)
Definition rf_u_two : ResidualFunction.MasterVector :=
  ResidualFunction.mkMasterVector [Dbl.Fin (1 / 4); Dbl.Fin 0] [] [].

Definition rf_update_ok (jac : bool)
    : option (ResidualFunction.ResidualFunctionUpdateStatus
              * ResidualFunction.Impl unit unit unit unit unit) :=
  ResidualFunction.updateWith rf_jb rf_RWQ_update rf_asMatrixViewW
    rf_Stability2_update rf_Stability2_status rf_CanonicalMatrix_update
    rf_ResidualVector_update jac rf_status0 rf_impl_two rf_problem_ok
    rf_u_two.

Definition rf_after_ok (jac : bool)
    : ResidualFunction.ResidualFunctionUpdateStatus
      * ResidualFunction.Impl unit unit unit unit unit :=
  match rf_update_ok jac with
  | Some r => r
  | None => (rf_status0, rf_impl_two)
  end.

(** *** Echelonizer *)

(** A swap, an update with priority weights, a reordering and a
    clean-up, applied to the echelonizer of [A_wide]. *)
Definition updates_wide : list EchelonizerUse.Update :=
  [ EchelonizerUse.SwapBasicVariable 0 0;
    EchelonizerUse.PriorityWeights [5; 1; 3]%Q;
    EchelonizerUse.Ordering [1; 0] [0];
    EchelonizerUse.CleanResidualRoundoffErrors ].

Definition ech_wide_updated : E.Impl :=
  the (EchelonizerUse.apply_updates EchelonizerSpec.insertion_sort
         ech_wide updates_wide).

Definition ech_wide_swapped : E.Impl :=
  the (E.updateWithSwapBasicVariable ech_wide 0 0).

(** *** Stepper *)

(** Two variables and one linear equation [x0 + 2 x1 = b]; the second
    variable is unstable. *)
Definition stepper_residuals : Stepper.Impl unit :=
  Stepper.mkImpl (ofRows Dbl.NaN 1 2 [[Dbl.Fin 1; Dbl.Fin 2]])
    [] [] 2 1 0 1 tt.

Definition checker_two : Stepper.Stability :=
  Stepper.mkStability [0] [1] [].

Definition spsolver_residuals_zero (_ : unit) (_ : Matrix Dbl.double)
    (_ _ _ ry ey : Dbl.Vector) : Dbl.Vector * Dbl.Vector :=
  (ry, ey).

Definition residuals_args_two : Stepper.StepperResidualsArgs :=
  Stepper.mkResidualsArgs [Dbl.Fin 1; Dbl.Fin 0] [Dbl.Fin 3]
    [Dbl.Fin 1] [] [Dbl.Fin (-5); Dbl.Fin 4]
    [Dbl.Fin 0; Dbl.Fin 0] [Dbl.Fin 0] [Dbl.Fin 0; Dbl.Fin 0]
    [Dbl.Fin 0] [Dbl.Fin 0; Dbl.Fin 0].

Definition residuals_two : Stepper.Residuals :=
  match Stepper.residuals (fun c : Stepper.Stability => c)
          spsolver_residuals_zero stepper_residuals checker_two
          residuals_args_two with
  | Some r => r
  | None => Stepper.mkResiduals [] [] [] [] []
  end.

Definition descent_args_two : Stepper.StepperSteepestDescentLagrangeArgs :=
  Stepper.mkDescentArgs [Dbl.Fin 1; Dbl.Fin 0] [Dbl.Fin 3]
    [Dbl.Fin 1] [] [Dbl.Fin (-5); Dbl.Fin 4]
    [Dbl.Fin 0; Dbl.Fin 0] [Dbl.Fin 0].

Definition descent_two : Dbl.Vector * Dbl.Vector :=
  match Stepper.steepestDescentLagrange (SaddlePointSolver := unit)
          (fun c : Stepper.Stability => c) stepper_residuals checker_two
          descent_args_two with
  | Some r => r
  | None => ([], [])
  end.

(** *** NewtonStep *)

(** Crossed bounds for the first variable, none for the second. *)
Definition crossed_lower : Dbl.Vector := [Dbl.Fin 1; Dbl.NInf].
Definition crossed_upper : Dbl.Vector := [Dbl.Fin 0; Dbl.PInf].

End Runs.

(* ================================================================== *)
(** ** Comparisons and vectors of doubles *)
(* ================================================================== *)

Module DblFacts.

Import Dbl.
Local Open Scope nat_scope.

Lemma Qltb_lt : forall a b : Q, Qltb a b = true <-> (a < b)%Q.
Proof.
  intros a b. unfold Qltb.
  destruct (Qcompare_spec a b) as [H|H|H]; split; intros H';
    try discriminate; try reflexivity; try assumption.
  - rewrite H in H'. exfalso. exact (Qlt_irrefl _ H').
  - exfalso. exact (Qlt_irrefl _ (Qlt_trans _ _ _ H H')).
Qed.

Lemma Qltb_ge : forall a b : Q, Qltb a b = false <-> (b <= a)%Q.
Proof.
  intros a b. split; intros H.
  - apply Qnot_lt_le. intros Hlt. apply Qltb_lt in Hlt. congruence.
  - destruct (Qltb a b) eqn:E; [ | reflexivity ].
    apply Qltb_lt in E. exfalso. exact (Qlt_not_le _ _ E H).
Qed.

Lemma ltb_irrefl : forall a, ltb a a = false.
Proof.
  intros [| |x|]; cbn; try reflexivity.
  apply Qltb_ge. apply Qle_refl.
Qed.

Lemma leb_refl : forall a, isNaN a = false -> leb a a = true.
Proof.
  intros [| |x|] H; cbn in *; try reflexivity; try discriminate.
  apply Qle_bool_iff. apply Qle_refl.
Qed.

Lemma ltb_false_leb :
  forall a b, isNaN a = false -> isNaN b = false ->
              ltb a b = false -> leb b a = true.
Proof.
  intros [| |x|] [| |y|] Ha Hb H; cbn in *;
    try reflexivity; try discriminate.
  apply Qle_bool_iff. apply Qltb_ge. exact H.
Qed.

Lemma leb_ltb_false : forall a b, leb a b = true -> ltb b a = false.
Proof.
  intros [| |x|] [| |y|] H; cbn in *; try reflexivity; try discriminate.
  apply Qltb_ge. apply Qle_bool_iff. exact H.
Qed.

Lemma leb_not_NaN :
  forall a b, leb a b = true -> isNaN a = false /\ isNaN b = false.
Proof.
  intros [| |x|] [| |y|] H; cbn in *; split;
    try reflexivity; try discriminate.
Qed.

Lemma max_idem : forall a b, max (max a b) b = max a b.
Proof.
  intros a b. unfold max.
  destruct (ltb a b) eqn:E; [ rewrite ltb_irrefl | rewrite E ];
    reflexivity.
Qed.

Lemma min_idem : forall a b, min (min a b) b = min a b.
Proof.
  intros a b. unfold min.
  destruct (ltb b a) eqn:E; [ rewrite ltb_irrefl | rewrite E ];
    reflexivity.
Qed.

Lemma max_NInf : forall a, max a NInf = a.
Proof. intros [| |x|]; reflexivity. Qed.

Lemma min_PInf : forall a, min a PInf = a.
Proof. intros [| |x|]; reflexivity. Qed.

(** The clamp [min(max(t, l), u)] of a number onto consistent bounds. *)
Lemma clamp_within :
  forall t l u,
    isNaN t = false -> leb l u = true ->
    leb l (min (max t l) u) = true /\ leb (min (max t l) u) u = true.
Proof.
  intros t l u Ht Hlu.
  destruct (leb_not_NaN _ _ Hlu) as (Hl & Hu).
  assert (Hm : isNaN (max t l) = false)
    by (unfold max; destruct (ltb t l); assumption).
  assert (Hlm : leb l (max t l) = true).
  { unfold max. destruct (ltb t l) eqn:E.
    - apply leb_refl. exact Hl.
    - apply ltb_false_leb; assumption. }
  unfold min. destruct (ltb u (max t l)) eqn:E.
  - split; [ exact Hlu | apply leb_refl; exact Hu ].
  - split; [ exact Hlm | apply ltb_false_leb; assumption ].
Qed.

Lemma clamp_cases :
  forall t l u,
    leb l u = true ->
    (ltb t l = true /\ min (max t l) u = l) \/
    (ltb u t = true /\ min (max t l) u = u) \/
    (ltb t l = false /\ ltb u t = false /\ min (max t l) u = t).
Proof.
  intros t l u Hlu. unfold max, min.
  destruct (ltb t l) eqn:E1.
  - left. split; [ reflexivity | ].
    rewrite (leb_ltb_false _ _ Hlu). reflexivity.
  - right. destruct (ltb u t) eqn:E2.
    + left. split; reflexivity.
    + right. repeat split.
Qed.

(** *** Vectors *)

Lemma length_set : forall v i a, length (set v i a) = length v.
Proof.
  induction v as [|b v IH]; intros [|i] a; cbn; try reflexivity.
  rewrite IH. reflexivity.
Qed.

Lemma get_set_same :
  forall v i a, i < length v -> get (set v i a) i = a.
Proof.
  unfold get.
  induction v as [|b v IH]; intros [|i] a H; cbn in *; try lia.
  - reflexivity.
  - apply IH. lia.
Qed.

Lemma get_set_other :
  forall v i j a, i <> j -> get (set v i a) j = get v j.
Proof.
  unfold get.
  induction v as [|b v IH]; intros [|i] [|j] a H; cbn; try reflexivity.
  - lia.
  - apply IH. lia.
Qed.

Lemma length_zipWith :
  forall f u v, length (zipWith f u v) = Nat.min (length u) (length v).
Proof.
  intros f. induction u as [|a u IH]; intros [|b v]; cbn; try reflexivity.
  rewrite IH. reflexivity.
Qed.

Lemma get_zipWith :
  forall f u v i,
    i < length u -> i < length v ->
    get (zipWith f u v) i = f (get u i) (get v i).
Proof.
  unfold get. intros f.
  induction u as [|a u IH]; intros [|b v] [|i] Hu Hv; cbn in *; try lia.
  - reflexivity.
  - apply IH; lia.
Qed.

Lemma length_select :
  forall c a b,
    length c = length a -> length b = length a ->
    length (select c a b) = length a.
Proof.
  induction c as [|ci c IH]; intros [|ai a] [|bi b] Hc Hb; cbn in *;
    try reflexivity; try discriminate.
  rewrite IH; [ reflexivity | lia | lia ].
Qed.

Lemma get_select :
  forall c a b i,
    i < length c -> i < length a -> i < length b ->
    get (select c a b) i = if nth i c false then get a i else get b i.
Proof.
  unfold get.
  induction c as [|ci c IH]; intros [|ai a] [|bi b] [|i] Hc Ha Hb;
    cbn in *; try lia.
  - reflexivity.
  - apply IH; lia.
Qed.

Lemma get_constants :
  forall n a i, i < n -> get (constants n a) i = a.
Proof.
  unfold get, constants. intros n a i H. apply nth_repeat_lt. exact H.
Qed.

Lemma memb_In : forall i l, Dense.memb i l = true <-> In i l.
Proof.
  intros i l. unfold Dense.memb. rewrite existsb_exists. split.
  - intros (x & Hx & E). apply Nat.eqb_eq in E. subst. exact Hx.
  - intros H. exists i. split; [ exact H | apply Nat.eqb_refl ].
Qed.

End DblFacts.

(* ================================================================== *)
(** ** ResidualFunction: a failed callback aborts the update *)
(* ================================================================== *)

Module ResidualFunctionProofs.

Import Dbl ResidualFunction ResidualFunctionSpec.

(** Case analysis on the scrutinee of the first [match] of a hypothesis. *)
Ltac case_match_in H :=
  match type of H with
  | context [match ?e with _ => _ end] => destruct e eqn:?
  end.

Section Proofs.

Variables Matrix MatrixRWQ Stability2 CanonicalMatrix ResidualVector : Type.
Variable RWQ_jb : MatrixRWQ -> list nat.
Variable RWQ_update : MatrixRWQ -> Matrix -> Matrix -> Vector -> MatrixRWQ.
Variable RWQ_asMatrixViewW : MatrixRWQ -> Matrix * Matrix.
Variable Stability2_update :
  Stability2 -> MatrixRWQ -> Vector -> Vector -> Vector -> Vector ->
  Stability2.
Variable Stability2_status : Stability2 -> list nat * list nat.
Variable CanonicalMatrix_update :
  CanonicalMatrix -> MasterMatrix Matrix MatrixRWQ -> CanonicalMatrix.
Variable ResidualVector_update :
  ResidualVector -> ResidualVectorUpdateArgs Matrix CanonicalMatrix ->
  ResidualVector.

Local Abbreviation Impl :=
  (Impl Matrix MatrixRWQ Stability2 CanonicalMatrix ResidualVector).

Local Abbreviation run :=
  (updateWith RWQ_jb RWQ_update RWQ_asMatrixViewW
     Stability2_update Stability2_status CanonicalMatrix_update
     ResidualVector_update).

Lemma evalCallbacks_failed :
  forall status0 jac cf ch cv (self : Impl) u status self',
    evalCallbacks RWQ_jb status0 jac cf ch cv self u = (status, self') ->
    status_is_FAILED status = true ->
    same_cached_state self self' /\ aborted_at status self self'.
Proof.
  intros status0 jac cf ch cv self u status self' Hrun Hfail.
  unfold evalCallbacks in Hrun.
  destruct (cf (fres self) (u_x u) (u_p u) _) as [sf fres'] eqn:Ef.
  cbn [fst snd] in Hrun.
  destruct sf; cbn [Bool.eqb FAILED] in Hrun.
  - cbn [hres vres calls] in Hrun.
    destruct (ch (hres self) (u_x u) (u_p u) _) as [sh hres'] eqn:Eh.
    destruct sh; cbn [Bool.eqb FAILED] in Hrun.
    + cbn [hres vres calls] in Hrun.
      destruct (cv (vres self) (u_x u) (u_p u) _) as [sv vres'] eqn:Ev.
      inversion Hrun; subst; clear Hrun.
      destruct sv.
      * discriminate Hfail.
      * split; [ repeat split | ].
        right; right. cbn. rewrite <- !app_assoc. cbn.
        repeat split; reflexivity.
    + inversion Hrun; subst; clear Hrun.
      split; [ repeat split | ].
      right; left. cbn. rewrite <- !app_assoc. cbn.
      repeat split; reflexivity.
  - inversion Hrun; subst; clear Hrun.
    split; [ repeat split | ].
    left. cbn. repeat split; reflexivity.
Qed.

Lemma evalCallbacks_succeeded_status :
  forall status0 jac cf ch cv (self : Impl) u status self',
    evalCallbacks RWQ_jb status0 jac cf ch cv self u = (status, self') ->
    status_is_FAILED status = false ->
    status = mkStatus SUCCEEDED SUCCEEDED SUCCEEDED /\
    calls self' = calls self ++ [CallF; CallH; CallV].
Proof.
  intros status0 jac cf ch cv self u status self' Hrun Hok.
  unfold evalCallbacks in Hrun.
  destruct (cf (fres self) (u_x u) (u_p u) _) as [sf fres'].
  destruct sf; cbn [Bool.eqb FAILED] in Hrun.
  - cbn [hres vres calls] in Hrun.
    destruct (ch (hres self) (u_x u) (u_p u) _) as [sh hres'].
    destruct sh; cbn [Bool.eqb FAILED] in Hrun.
    + cbn [hres vres calls] in Hrun.
      destruct (cv (vres self) (u_x u) (u_p u) _) as [sv vres'].
      inversion Hrun; subst; clear Hrun.
      destruct sv; [ | discriminate Hok ].
      split; [ reflexivity | ].
      cbn. rewrite <- !app_assoc. reflexivity.
    + inversion Hrun; subst. discriminate Hok.
  - inversion Hrun; subst. discriminate Hok.
Qed.

(** C8.  [update] ([jac = true]) and [updateSkipJacobian]
    ([jac = false]) return a status with one outcome per callback.
    When the returned status is a failed one, the call stopped at the
    first callback that reported failure: the callbacks after it were
    not invoked (the ghost list of calls ends with the failed one and
    the result slots of the later callbacks are untouched), and the
    echelon form of W, the stability classification, the canonical
    Jacobian and the residual vector are the ones from before the
    call. *)
Theorem update_aborts_on_failed_callback :
  forall jac status0 (self : Impl) problem u status self',
    run jac status0 self problem u = Some (status, self') ->
    status_is_FAILED status = true ->
    same_cached_state self self' /\ aborted_at status self self'.
Proof.
  intros jac status0 self problem u status self' Hrun Hfail.
  unfold updateWith in Hrun.
  destruct (sanitycheck self problem u); cbn [negb] in Hrun;
    [ | discriminate Hrun ].
  destruct (f problem) as [cf|]; [ | discriminate Hrun ].
  destruct (h problem) as [ch|]; [ | discriminate Hrun ].
  destruct (v problem) as [cv|]; [ | discriminate Hrun ].
  destruct (evalCallbacks RWQ_jb status0 jac cf ch cv self u)
    as [status1 self1] eqn:Eev.
  destruct (status_is_FAILED status1) eqn:Est.
  - inversion Hrun; subst; clear Hrun.
    eapply evalCallbacks_failed; eassumption.
  - case_match_in Hrun; [ | discriminate Hrun ].
    inversion Hrun; subst; clear Hrun.
    rewrite Est in Hfail. discriminate Hfail.
Qed.

(** Conversely the status is a failed one exactly when the sequence of
    callbacks stopped at a failure; when all three succeeded the status
    carries three successes and every callback ran once. *)
Lemma update_status_ok_all_called :
  forall jac status0 (self : Impl) problem u status self',
    run jac status0 self problem u = Some (status, self') ->
    status_is_FAILED status = false ->
    status = mkStatus SUCCEEDED SUCCEEDED SUCCEEDED /\
    calls self' = calls self ++ [CallF; CallH; CallV].
Proof.
  intros jac status0 self problem u status self' Hrun Hok.
  unfold updateWith in Hrun.
  destruct (sanitycheck self problem u); cbn [negb] in Hrun;
    [ | discriminate Hrun ].
  destruct (f problem) as [cf|]; [ | discriminate Hrun ].
  destruct (h problem) as [ch|]; [ | discriminate Hrun ].
  destruct (v problem) as [cv|]; [ | discriminate Hrun ].
  destruct (evalCallbacks RWQ_jb status0 jac cf ch cv self u)
    as [status1 self1] eqn:Eev.
  destruct (status_is_FAILED status1) eqn:Est.
  - inversion Hrun; subst. rewrite Est in Hok. discriminate Hok.
  - destruct (updateCachedState RWQ_update RWQ_asMatrixViewW
                Stability2_update Stability2_status
                CanonicalMatrix_update ResidualVector_update
                self1 problem u) as [s2|] eqn:Eup;
      [ | discriminate Hrun ].
    inversion Hrun; subst; clear Hrun.
    destruct (evalCallbacks_succeeded_status _ _ _ _ _ _ _ Eev Est)
      as [Hs Hc].
    split; [ exact Hs | ].
    unfold updateCachedState in Eup.
    destruct (updateEchelonFormMatrixW RWQ_update self1 problem u)
      as [s1'|] eqn:Eech; [ | discriminate Eup ].
    inversion Eup; subst; clear Eup. cbn.
    unfold updateEchelonFormMatrixW in Eech.
    destruct (forallb _ _); [ | discriminate Eech ].
    inversion Eech; subst; clear Eech. cbn. exact Hc.
Qed.

End Proofs.

End ResidualFunctionProofs.

(* ================================================================== *)
(** ** BasicSolver: the outcome of [solve] *)
(* ================================================================== *)

Module BasicSolverProofs.

Import Dbl Dense BasicSolver BasicSolverSpec.
Local Open Scope nat_scope.

Section Proofs.

Variable ActiveStepper : Type.
Variable stepper_decompose :
  ActiveStepper -> Vector -> Vector -> Matrix double -> Vector ->
  Matrix double -> ActiveStepper.
Variable stepper_solve :
  ActiveStepper -> Vector -> Vector -> Vector -> Vector -> Vector ->
  ActiveStepper * (Vector * Vector * Vector * Vector * Vector).

Local Abbreviation Impl := (Impl ActiveStepper).
Local Abbreviation computeNewtonStep' :=
  (computeNewtonStep stepper_decompose stepper_solve).
Local Abbreviation solve' := (solve stepper_decompose stepper_solve).
Local Abbreviation solve_loop' :=
  (solve_loop stepper_decompose stepper_solve).
Local Abbreviation initialize' :=
  (initialize stepper_decompose stepper_solve).
Local Abbreviation loop_body' :=
  (loop_body stepper_decompose stepper_solve).
Local Abbreviation iterate' := (iterate stepper_decompose stepper_solve).

(** *** What each step leaves untouched *)

Lemma same_setup_refl : forall a : Impl, same_setup a a.
Proof. intros a. repeat split. Qed.

Lemma same_setup_trans :
  forall a b c : Impl,
    same_setup a b -> same_setup b c -> same_setup a c.
Proof.
  intros a b c (H1 & H2 & H3) (H4 & H5 & H6).
  repeat split; congruence.
Qed.

Lemma applyNewtonStepping_result :
  forall (s : Impl) params state,
    result (fst (applyNewtonStepping s params state)) = result s /\
    same_setup s (fst (applyNewtonStepping s params state)).
Proof.
  intros s params state. unfold applyNewtonStepping.
  destruct (step (options s)); cbn; repeat split.
Qed.

Lemma converged_applyNewtonStepping :
  forall (s : Impl) params state,
    converged (fst (applyNewtonStepping s params state)) = converged s.
Proof.
  intros s params state. unfold converged.
  destruct (applyNewtonStepping_result s params state)
    as (Hr & _ & Ho & _).
  rewrite Hr, Ho. reflexivity.
Qed.

Lemma evaluateObjectiveFunction_some :
  forall (s : Impl) state obj,
    objective (problem s) = Some obj ->
    exists s', evaluateObjectiveFunction s state = Some s' /\
               result s' = result s /\ same_setup s s'.
Proof.
  intros s state obj Hobj. unfold evaluateObjectiveFunction.
  rewrite Hobj. eexists. split; [ reflexivity | ].
  cbn. repeat split.
Qed.

Lemma computeNewtonStep_result :
  forall (s : Impl) params state,
    result (computeNewtonStep' s params state) = result s /\
    same_setup s (computeNewtonStep' s params state).
Proof.
  intros s params state. unfold computeNewtonStep.
  destruct (stepper_solve _ _ _ _ _ _) as [st2 [[[[dx' dy'] rx'] ry'] z']].
  cbn. repeat split.
Qed.

(** [updateResultErrors] stores [max(||rx||_inf, ||ry||_inf)]. *)
Lemma updateResultErrors_error :
  forall s : Impl,
    error (result (updateResultErrors s))
      = max (norminf (rx (newton s))) (norminf (ry (newton s))) /\
    newton (updateResultErrors s) = newton s /\
    succeeded (result (updateResultErrors s)) = succeeded (result s) /\
    iterations (result (updateResultErrors s)) = iterations (result s) /\
    same_setup s (updateResultErrors s).
Proof. intros s. cbn. repeat split. Qed.

Lemma loop_body_some :
  forall (s : Impl) params state obj,
    objective (problem s) = Some obj ->
    exists s' state',
      loop_body' params s state = Some (s', state') /\
      succeeded (result s') = converged s /\
      iterations (result s') = S (iterations (result s)) /\
      errors_updated s' /\ same_setup s s'.
Proof.
  intros s params state obj Hobj. unfold loop_body.
  pose proof (applyNewtonStepping_result s params state) as (Hr & Hs).
  pose proof (converged_applyNewtonStepping s params state) as Hc.
  destruct (applyNewtonStepping s params state) as [s1 state1].
  cbn [fst] in Hr, Hs, Hc.
  set (s2 := set_succeeded s1 (converged s1)).
  assert (Hobj2 : objective (problem s2) = Some obj).
  { destruct Hs as (Hp & _). cbn. rewrite Hp. exact Hobj. }
  destruct (evaluateObjectiveFunction_some s2 state1 Hobj2)
    as (s3 & He & Hr3 & Hs3).
  rewrite He.
  pose proof (computeNewtonStep_result s3 params state1) as (Hr4 & Hs4).
  set (s4 := computeNewtonStep' s3 params state1) in *.
  pose proof (updateResultErrors_error s4)
    as (He5 & Hn5 & Hsu5 & Hit5 & Hs5).
  eexists. eexists. split; [ reflexivity | ].
  cbn [result set_iterations with_result succeeded iterations].
  repeat split.
  - rewrite Hsu5, Hr4, Hr3. cbn. exact Hc.
  - rewrite Hit5, Hr4, Hr3. cbn. rewrite Hr. reflexivity.
  - destruct Hs as (Hp & _), Hs3 as (Hp3 & _), Hs4 as (Hp4 & _).
    cbn in *. congruence.
  - destruct Hs as (_ & Ho & _), Hs3 as (_ & Ho3 & _),
      Hs4 as (_ & Ho4 & _).
    cbn in *. congruence.
  - destruct Hs as (_ & _ & Hn), Hs3 as (_ & _ & Hn3),
      Hs4 as (_ & _ & Hn4).
    cbn in *. congruence.
Qed.

(** *** The loop of [solve] *)

(** One evaluation of the loop condition that enters the body. *)
Lemma solve_loop_enter :
  forall fuel maxiters params (s : Impl) state,
    iterations (result s) <= maxiters ->
    succeeded (result s) = false ->
    solve_loop' (S fuel) maxiters params s state =
    if converged s
    then Some (set_succeeded (fst (applyNewtonStepping s params state))
                 true,
               snd (applyNewtonStepping s params state))
    else match loop_body' params s state with
         | None => None
         | Some (s1, state1) => solve_loop' fuel maxiters params s1 state1
         end.
Proof.
  intros fuel maxiters params s state Hit Hsucc.
  cbn [solve_loop]. unfold loop_body.
  replace (iterations (result s) <=? maxiters) with true
    by (symmetry; apply Nat.leb_le; exact Hit).
  rewrite Hsucc. cbn [andb negb].
  rewrite <- (converged_applyNewtonStepping s params state).
  destruct (applyNewtonStepping s params state) as [s1 state1].
  cbn [fst snd].
  destruct (converged s1) eqn:Econv.
  - cbn. reflexivity.
  - cbn [set_succeeded with_result result succeeded].
    destruct (evaluateObjectiveFunction _ state1); reflexivity.
Qed.

(** One evaluation of the loop condition that leaves the loop. *)
Lemma solve_loop_leave :
  forall fuel maxiters params (s : Impl) state,
    maxiters < iterations (result s) ->
    solve_loop' (S fuel) maxiters params s state = Some (s, state).
Proof.
  intros fuel maxiters params s state Hit.
  cbn [solve_loop].
  replace (iterations (result s) <=? maxiters) with false
    by (symmetry; apply Nat.leb_gt; exact Hit).
  reflexivity.
Qed.

(** With [d] iterations left and [succeeded] still false, the loop
    returns; it succeeds exactly when the convergence test passes
    after fewer than [d] passes, and otherwise runs all [d] passes. *)
Lemma solve_loop_unroll :
  forall maxiters params d (s : Impl) state obj,
    objective (problem s) = Some obj ->
    succeeded (result s) = false ->
    iterations (result s) + d = S maxiters ->
    exists s' state',
      solve_loop' (S d) maxiters params s state = Some (s', state') /\
      same_setup s s' /\
      (succeeded (result s') = true <->
       exists k sk statek,
         k < d /\ iterate' k params s state = Some (sk, statek) /\
         converged sk = true) /\
      (succeeded (result s') = true ->
       iterations (result s) <= iterations (result s') <= maxiters) /\
      (succeeded (result s') = false ->
       iterations (result s') = S maxiters /\
       iterate' d params s state = Some (s', state')).
Proof.
  intros maxiters params d.
  induction d as [|d IH]; intros s state obj Hobj Hsucc Hit.
  - exists s, state.
    rewrite solve_loop_leave by lia.
    split; [ reflexivity | ].
    split; [ apply same_setup_refl | ].
    split; [ | split ].
    + split.
      * intros H. congruence.
      * intros (k & _ & _ & Hk & _). lia.
    + intros H. congruence.
    + intros _. split; [ lia | reflexivity ].
  - rewrite solve_loop_enter by (lia || assumption).
    destruct (converged s) eqn:Econv.
    + (* the convergence test passes: the loop is left *)
      pose proof (applyNewtonStepping_result s params state) as (Hr & Hs).
      eexists. eexists. split; [ reflexivity | ].
      split; [ destruct Hs as (Hp & Ho & Hn); repeat split; assumption | ].
      cbn [set_succeeded result with_result succeeded iterations].
      split; [ | split ].
      * split; [ | reflexivity ].
        intros _. exists 0, s, state.
        split; [ lia | ]. split; [ reflexivity | exact Econv ].
      * intros _. rewrite Hr. lia.
      * intros H. discriminate H.
    + destruct (loop_body_some s params state Hobj)
        as (s6 & state6 & Hbody & Hsu6 & Hit6 & _ & Hs6).
      rewrite Hbody.
      assert (Hobj6 : objective (problem s6) = Some obj).
      { destruct Hs6 as (Hp & _). rewrite Hp. exact Hobj. }
      assert (Hsucc6 : succeeded (result s6) = false) by congruence.
      assert (Hit6' : iterations (result s6) + d = S maxiters) by lia.
      destruct (IH s6 state6 obj Hobj6 Hsucc6 Hit6')
        as (s' & state' & Hloop & Hs' & Hiff & Hle & Hcap).
      exists s', state'. split; [ exact Hloop | ].
      split; [ eapply same_setup_trans; eassumption | ].
      split; [ | split ].
      * split.
        -- intros H. apply Hiff in H.
           destruct H as (k & sk & statek & Hk & Hiter & Hconv).
           exists (S k), sk, statek.
           split; [ lia | ]. split; [ | exact Hconv ].
           cbn [iterate]. rewrite Hbody. exact Hiter.
        -- intros (k & sk & statek & Hk & Hiter & Hconv).
           apply Hiff. destruct k as [|k].
           ++ cbn in Hiter. inversion Hiter; subst. congruence.
           ++ exists k, sk, statek.
              split; [ lia | ]. split; [ | exact Hconv ].
              cbn [iterate] in Hiter. rewrite Hbody in Hiter.
              exact Hiter.
      * intros H. specialize (Hle H). lia.
      * intros H. destruct (Hcap H) as (Hcap1 & Hcap2).
        split; [ exact Hcap1 | ].
        cbn [iterate]. rewrite Hbody. exact Hcap2.
Qed.

(** The iterates keep the setup of the solver, and their stored error
    is the one of their stored residuals. *)
Lemma iterate_invariants :
  forall params k (s : Impl) state sk statek obj,
    objective (problem s) = Some obj ->
    errors_updated s ->
    iterate' k params s state = Some (sk, statek) ->
    same_setup s sk /\ errors_updated sk.
Proof.
  intros params k.
  induction k as [|k IH]; intros s state sk statek obj Hobj Herr Hiter.
  - cbn in Hiter. inversion Hiter; subst.
    split; [ apply same_setup_refl | exact Herr ].
  - cbn [iterate] in Hiter.
    destruct (loop_body_some s params state Hobj)
      as (s1 & state1 & Hbody & _ & _ & Herr1 & Hs1).
    rewrite Hbody in Hiter.
    assert (Hobj1 : objective (problem s1) = Some obj).
    { destruct Hs1 as (Hp & _). rewrite Hp. exact Hobj. }
    destruct (IH s1 state1 sk statek obj Hobj1 Herr1 Hiter)
      as (Hsk & Herrk).
    split; [ eapply same_setup_trans; eassumption | exact Herrk ].
Qed.

(** What [initialize] establishes. *)
Lemma initialize_facts :
  forall (s : Impl) params state s0 state0,
    initialize' s params state = Some (s0, state0) ->
    (exists obj, objective (problem s0) = Some obj) /\
    errors_updated s0 /\
    succeeded (result s0) = succeeded (result s) /\
    same_setup s s0.
Proof.
  intros s params state s0 state0 Hinit.
  unfold initialize in Hinit.
  set (s1 := with_bounds s _ _) in Hinit.
  destruct (length (state_x state) =? n s1); cbn [negb] in Hinit;
    [ | discriminate Hinit ].
  destruct (length (state_y state) =? m s1); cbn [negb] in Hinit;
    [ | discriminate Hinit ].
  set (state1 := mkBasicState _ _) in Hinit.
  unfold evaluateObjectiveFunction in Hinit.
  destruct (objective (problem s1)) as [obj|] eqn:Eobj;
    [ | discriminate Hinit ].
  set (s2 := with_objective s1 _ _) in Hinit.
  assert (H2 : exists s3, evaluateConstraintFunction s2 state1 = Some s3)
    by (destruct (evaluateConstraintFunction s2 state1);
        [ eexists; reflexivity | discriminate Hinit ]).
  destruct H2 as (s3 & E3). rewrite E3 in Hinit.
  assert (H3 : result s3 = result s /\ same_setup s s3).
  { unfold evaluateConstraintFunction in E3.
    destruct (mh s2 =? 0).
    - inversion E3; subst. cbn. repeat split.
    - destruct (constraints_h (problem s2));
        inversion E3; subst. cbn. repeat split. }
  destruct H3 as (Hr3 & Hs3).
  destruct (isfinite (f s3) && forallb isfinite (g s3)
            && allFiniteM (H s3)); cbn [negb] in Hinit;
    [ | discriminate Hinit ].
  inversion Hinit; subst s0 state0; clear Hinit.
  pose proof (computeNewtonStep_result s3 params state1) as (Hr4 & Hs4).
  set (s4 := computeNewtonStep' s3 params state1) in *.
  pose proof (updateResultErrors_error s4)
    as (He5 & Hn5 & Hsu5 & Hit5 & Hs5).
  assert (Hsetup : same_setup s (updateResultErrors s4)).
  { eapply same_setup_trans; [ exact Hs3 | ].
    eapply same_setup_trans; [ exact Hs4 | exact Hs5 ]. }
  split; [ | split; [ | split ] ].
  - exists obj. destruct Hsetup as (Hp & _). rewrite Hp. exact Eobj.
  - unfold errors_updated. rewrite He5, Hn5. reflexivity.
  - rewrite Hsu5, Hr4, Hr3. reflexivity.
  - exact Hsetup.
Qed.


(** *** A problem without variables *)

Lemma solve_n_zero :
  forall (s : Impl) params state,
    n s = 0 ->
    solve' s params state
      = Some (set_succeeded s true, state,
              result (set_succeeded s true)).
Proof.
  intros s params state Hn. unfold solve. rewrite Hn. reflexivity.
Qed.

(** A solver of a problem without variables has never evaluated a
    callback and has never counted an iteration. *)
Lemma reachable_zero_variables :
  forall p (s : Impl),
    reachable stepper_decompose stepper_solve p s ->
    dims_x p = 0 ->
    n s = 0 /\ iterations (result s) = 0 /\ evals s = [].
Proof.
  intros p s Hreach Hp.
  induction Hreach as [stepper0 options0 s Hnew
                      | s o Hreach IH
                      | s params state s' state' res Hreach IH Hsolve].
  - unfold Impl_new in Hnew.
    destruct (isSome (objective p)); cbn [negb] in Hnew;
      [ | discriminate Hnew ].
    destruct ((dims_h p =? 0) || isSome (constraints_h p));
      cbn [negb] in Hnew; [ | discriminate Hnew ].
    inversion Hnew; subst; clear Hnew. cbn.
    repeat split. exact Hp.
  - destruct IH as (Hn & Hit & Hev). cbn. repeat split; assumption.
  - destruct IH as (Hn & Hit & Hev).
    rewrite (solve_n_zero s params state Hn) in Hsolve.
    inversion Hsolve; subst; clear Hsolve. cbn.
    repeat split; assumption.
Qed.

(** C10.  On a problem with zero variables [solve] returns at once with
    [succeeded = true] and [iterations = 0]: no objective or constraint
    callback is evaluated (the list of evaluations is the one from
    before the call, and it is empty) and the state is the one passed
    in. *)
Theorem solve_zero_variables :
  forall p (s : Impl) params state,
    reachable stepper_decompose stepper_solve p s ->
    dims_x p = 0 ->
    exists s',
      solve' s params state = Some (s', state, result s') /\
      succeeded (result s') = true /\
      iterations (result s') = 0 /\
      evals s' = evals s /\
      evals s' = [].
Proof.
  intros p s params state Hreach Hp.
  destruct (@reachable_zero_variables p s Hreach Hp) as (Hn & Hit & Hev).
  exists (set_succeeded s true).
  split; [ apply solve_n_zero; exact Hn | ].
  cbn. repeat split; assumption.
Qed.

End Proofs.

End BasicSolverProofs.

(* ================================================================== *)
(** ** The iterate stays within its bounds *)
(* ================================================================== *)

Module BoundsProofs.

Import Dbl Dense BasicSolver BasicSolverSpec DblFacts.
Local Open Scope nat_scope.

Lemma length_clampAt :
  forall op idx x bound, length (clampAt op x idx bound) = length x.
Proof.
  intros op. unfold clampAt.
  induction idx as [|j idx IH]; intros x bound; cbn.
  - reflexivity.
  - rewrite IH. apply length_set.
Qed.

(** The loop [for(Index i : idx) x[i] = op(x[i], bound[i])] with an
    idempotent [op] applies [op] once to the listed components. *)
Lemma get_clampAt :
  forall op,
    (forall a b, op (op a b) b = op a b) ->
    forall idx x bound i,
      i < length x ->
      get (clampAt op x idx bound) i
        = if memb i idx then op (get x i) (get bound i) else get x i.
Proof.
  intros op Hidem. unfold clampAt.
  induction idx as [|j idx IH]; intros x bound i Hi; cbn [fold_left memb existsb].
  - reflexivity.
  - rewrite IH by (rewrite length_set; exact Hi).
    fold (memb i idx).
    destruct (Nat.eqb_spec i j) as [E|E].
    + subst j. rewrite get_set_same by exact Hi. cbn [orb].
      destruct (memb i idx); [ apply Hidem | reflexivity ].
    + rewrite get_set_other by congruence. cbn [orb]. reflexivity.
Qed.

Lemma length_assignAt :
  forall idx vals v, length (assignAt v idx vals) = length v.
Proof.
  unfold assignAt. intros idx vals.
  generalize (combine idx vals) as l.
  induction l as [|[j a] l IH]; intros v; cbn.
  - reflexivity.
  - rewrite IH. apply length_set.
Qed.

(** After [v(idx) = vals] a component holds one of the assigned values,
    or is untouched. *)
Lemma get_assignAt :
  forall idx vals v i,
    (exists a, In (i, a) (combine idx vals) /\
               get (assignAt v idx vals) i = a)
    \/ get (assignAt v idx vals) i = get v i.
Proof.
  unfold assignAt. intros idx vals.
  generalize (combine idx vals) as l.
  induction l as [|[j a] l IH]; intros v i; cbn [fold_left fst snd].
  - right. reflexivity.
  - destruct (IH (set v j a) i) as [(a' & Hin & Hget)|Hget].
    + left. exists a'. split; [ right; exact Hin | exact Hget ].
    + destruct (Nat.eq_dec j i) as [E|E].
      * subst j. destruct (le_lt_dec (length v) i) as [Hlen|Hlen].
        -- right. rewrite Hget. unfold get.
           rewrite !nth_overflow;
             [ reflexivity | exact Hlen | rewrite length_set; exact Hlen ].
        -- left. exists a. split; [ left; reflexivity | ].
           rewrite Hget. apply get_set_same. exact Hlen.
      * right. rewrite Hget. apply get_set_other. exact E.
Qed.

Lemma get_assignAt_other :
  forall idx vals v i,
    ~ In i idx -> get (assignAt v idx vals) i = get v i.
Proof.
  intros idx vals v i Hnin.
  destruct (get_assignAt idx vals v i) as [(a & Hin & _)|H].
  - exfalso. apply Hnin. eapply in_combine_l. exact Hin.
  - exact H.
Qed.

(** The two clamping loops of the solver bring every component of a
    number-valued vector [t] to [min(max(t, xlower), xupper)], given
    that a variable outside [ilower] ([iupper]) has the bound minus
    (plus) infinity. *)
Lemma get_clamped :
  forall t il iu xl xu i,
    i < length t ->
    (~ In i il -> get xl i = NInf) ->
    (~ In i iu -> get xu i = PInf) ->
    get (clampAt min (clampAt max t il xl) iu xu) i
      = min (max (get t i) (get xl i)) (get xu i).
Proof.
  intros t il iu xl xu i Hi Hl Hu.
  rewrite (@get_clampAt min min_idem) by (rewrite length_clampAt; exact Hi).
  rewrite (@get_clampAt max max_idem) by exact Hi.
  destruct (memb i il) eqn:El; destruct (memb i iu) eqn:Eu.
  - reflexivity.
  - rewrite Hu, min_PInf; [ reflexivity | ].
    intros H. apply memb_In in H. congruence.
  - rewrite Hl, max_NInf; [ reflexivity | ].
    intros H. apply memb_In in H. congruence.
  - rewrite Hl, max_NInf, Hu, min_PInf; [ reflexivity | | ];
      intros H; apply memb_In in H; congruence.
Qed.

Section Proofs.

Variable ActiveStepper : Type.
Variables LinearSolver CanonicalMatrixView CanonicalVectorView : Type.
Variable linearsolver_solve :
  LinearSolver -> CanonicalMatrixView -> CanonicalVectorView ->
  LinearSolver * NewtonStep.MasterVector.

Local Abbreviation Impl := (Impl ActiveStepper).

(** The aggressive stepping of [BasicSolver]. *)
Lemma aggressive_step_within_bounds :
  forall (s : Impl) params state,
    let x := state_x state in
    let t := zipWith add x (dx (newton s)) in
    let x' := state_x (snd (applyNewtonSteppingAggressive s params
                              state)) in
    length x = n s -> length (dx (newton s)) = n s ->
    (forall i, i < n s -> isNaN (get t i) = false) ->
    (forall i, i < n s ->
               leb (get (xlower s) i) (get (xupper s) i) = true) ->
    (forall i, i < n s -> ~ In i (ilower (problem s)) ->
               get (xlower s) i = NInf) ->
    (forall i, i < n s -> ~ In i (iupper (problem s)) ->
               get (xupper s) i = PInf) ->
    (forall i a,
        In (i, a) (combine (ifixed (problem s)) (params_xfixed params)) ->
        leb (get (xlower s) i) a = true /\
        leb a (get (xupper s) i) = true) ->
    length x' = n s /\
    within_bounds (xlower s) (xupper s) x' /\
    (forall i, i < n s -> ~ In i (ifixed (problem s)) ->
               projected (xlower s) (xupper s) t x' i).
Proof.
  intros s params state x t x' Hx Hdx Hnum Hcons Hl Hu Hfix.
  assert (Ht : length t = n s).
  { unfold t. rewrite length_zipWith. fold x. lia. }
  assert (Hx' : length x' = n s).
  { unfold x'. cbn. rewrite length_assignAt, !length_clampAt.
    fold x. fold t. exact Ht. }
  assert (Hclamp : forall i, i < n s ->
            get (clampAt min (clampAt max t (ilower (problem s))
                                (xlower s))
                   (iupper (problem s)) (xupper s)) i
            = min (max (get t i) (get (xlower s) i))
                  (get (xupper s) i)).
  { intros i Hi.
    apply get_clamped; [ lia | apply Hl | apply Hu ]; exact Hi. }
  split; [ exact Hx' | ]. split.
  - intros i Hi. rewrite Hx' in Hi.
    unfold x'. cbn [applyNewtonSteppingAggressive snd state_x].
    fold x. fold t.
    destruct (get_assignAt (ifixed (problem s)) (params_xfixed params)
                (clampAt min (clampAt max t (ilower (problem s))
                                (xlower s))
                   (iupper (problem s)) (xupper s)) i)
      as [(a & Hin & Hget)|Hget]; rewrite Hget.
    + exact (Hfix i a Hin).
    + rewrite Hclamp by exact Hi.
      apply clamp_within; [ apply Hnum | apply Hcons ]; exact Hi.
  - intros i Hi Hnfix.
    unfold projected, x'.
    cbn [applyNewtonSteppingAggressive snd state_x].
    fold x. fold t.
    rewrite get_assignAt_other by exact Hnfix.
    rewrite Hclamp by exact Hi.
    apply clamp_cases. apply Hcons. exact Hi.
Qed.

(** [NewtonStep::apply]. *)
Lemma newton_step_within_bounds :
  forall (self : NewtonStep.Impl LinearSolver) xlower xupper
         (Mc : CanonicalMatrixView) (ac : CanonicalVectorView) uo,
    let r := NewtonStep.apply linearsolver_solve self xlower xupper
               Mc ac uo in
    let t := zipWith add (NewtonStep.u_x uo)
               (NewtonStep.u_x (NewtonStep.du (fst r))) in
    let x' := NewtonStep.u_x (snd r) in
    length xlower = length t -> length xupper = length t ->
    (forall i, i < length t -> isNaN (get t i) = false) ->
    (forall i, i < length t ->
               leb (get xlower i) (get xupper i) = true) ->
    length x' = length t /\
    within_bounds xlower xupper x' /\
    (forall i, i < length t -> projected xlower xupper t x' i).
Proof.
  intros self xlower xupper Mc ac uo r t x' Hl Hu Hnum Hcons.
  unfold x', t, r, NewtonStep.apply in *.
  destruct (linearsolver_solve (NewtonStep.linearsolver self) Mc ac)
    as [ls du'].
  cbn [fst snd NewtonStep.u_x NewtonStep.du] in *.
  set (t0 := zipWith add (NewtonStep.u_x uo) (NewtonStep.u_x du')) in *.
  assert (Hlen : length (zipWith min (zipWith max t0 xlower) xupper)
                 = length t0).
  { rewrite !length_zipWith. lia. }
  assert (Hget : forall i, i < length t0 ->
            get (zipWith min (zipWith max t0 xlower) xupper) i
            = min (max (get t0 i) (get xlower i)) (get xupper i)).
  { intros i Hi.
    rewrite get_zipWith by (rewrite ?length_zipWith; lia).
    rewrite get_zipWith by lia. reflexivity. }
  split; [ exact Hlen | ]. split.
  - intros i Hi. rewrite Hlen in Hi. rewrite Hget by exact Hi.
    apply clamp_within; [ apply Hnum | apply Hcons ]; exact Hi.
  - intros i Hi. unfold projected. rewrite Hget by exact Hi.
    apply clamp_cases. apply Hcons. exact Hi.
Qed.


End Proofs.

End BoundsProofs.

(* ================================================================== *)
(** ** LU and Stepper: NaN rows and zero steps; sensitivities *)
(* ================================================================== *)

Module StepperProofs.

Import Dbl Dense Stepper StepperSpec DblFacts.
Local Open Scope nat_scope.

Lemma nth_map_isNaN :
  forall v i, i < length v -> nth i (map isNaN v) false = isNaN (get v i).
Proof.
  unfold get. induction v as [|a v IH]; intros [|i] H; cbn in *; try lia.
  - reflexivity.
  - apply IH. lia.
Qed.

(** [v = v.array().isNaN().select(0.0, v)]. *)
Lemma select_isNaN :
  forall v,
    nan_replaced v (select (map isNaN v) (constants (length v) (Fin 0)) v).
Proof.
  intros v.
  assert (Hc : length (constants (length v) (Fin 0)) = length v)
    by apply repeat_length.
  split.
  - rewrite length_select; rewrite ?Hc, ?length_map; reflexivity.
  - intros i Hi.
    rewrite get_select by (rewrite ?Hc, ?length_map; exact Hi).
    rewrite nth_map_isNaN by exact Hi.
    rewrite get_constants by exact Hi.
    destruct (isNaN (get v i)) eqn:E.
    + repeat split; intros; try reflexivity; discriminate.
    + repeat split; intros; try assumption; try reflexivity; discriminate.
Qed.

Section Proofs.

Variable applyThisOnTheLeft : list nat -> Matrix double -> Matrix double.
Variable solveUnitLower : Matrix double -> Matrix double -> Matrix double.
Variable solveUpper : Matrix double -> Matrix double -> Matrix double.

Variable SaddlePointSolver : Type.
Variable spsolver_solve :
  SaddlePointSolver -> Matrix double -> Matrix double ->
  Vector -> Vector -> Vector -> Vector -> Vector * Vector.
Variable spsolver_solve_inplace :
  SaddlePointSolver -> Vector -> Vector -> Vector * Vector.

Local Abbreviation Impl := (Impl SaddlePointSolver).

(** [LU::solve] fills the rows beyond the rank with NaN. *)
Lemma LU_solve_nan_rows :
  forall (self : LU.Impl) X X',
    LU.solve applyThisOnTheLeft solveUnitLower solveUpper self X
      = Some X' ->
    rows X' = rows X /\ cols X' = cols X /\
    forall i j, LU.rank self <= i -> i < rows X -> coeff X' i j = NaN.
Proof.
  intros self X X' H. unfold LU.solve in H.
  destruct (rows (LU.matrixLU (LU.lu self)) =? rows X) eqn:E;
    cbn [negb] in H; [ | discriminate H ].
  apply Nat.eqb_eq in E.
  inversion H; subst X'; clear H. cbn.
  repeat split.
  intros i j Hr Hi.
  replace (rows X - (rows (LU.matrixLU (LU.lu self)) - LU.rank self)
           <=? i) with true
    by (symmetry; apply Nat.leb_le; lia).
  reflexivity.
Qed.

(** [Stepper::solve] replaces the NaN entries of both steps. *)
Lemma Stepper_solve_no_nan :
  forall (self : Impl) args self' dx' dy',
    solve spsolver_solve self args = Some (self', dx', dy') ->
    nan_replaced (fst (fst (fst (solve_raw spsolver_solve self args))))
                 dx' /\
    nan_replaced (snd (fst (fst (solve_raw spsolver_solve self args))))
                 dy'.
Proof.
  intros self args self' dx' dy' H. unfold solve in H.
  destruct (negb _); [ discriminate H | ].
  destruct (solve_raw spsolver_solve self args)
    as [[[dx1 dy1] xbar'] ybar'].
  inversion H; subst; clear H. cbn [fst snd].
  split; apply select_isNaN.
Qed.

(** C3.  [LU::solve] fills the rows of the solution beyond the detected
    rank (the linearly dependent rows) with NaN, and [Stepper::solve]
    replaces every NaN component of the steps [dx = xbar - xprime] and
    [dy = ybar - y] by 0: after [Stepper::solve] no component of [dx]
    or [dy] is NaN, the components that were NaN are zero steps (the
    variable is frozen for the step) and the others are kept. *)
Theorem nan_rows_give_zero_steps :
  (forall (self : LU.Impl) X X',
      LU.solve applyThisOnTheLeft solveUnitLower solveUpper self X
        = Some X' ->
      rows X' = rows X /\ cols X' = cols X /\
      forall i j, LU.rank self <= i -> i < rows X -> coeff X' i j = NaN)
  /\
  (forall (self : Impl) args self' dx' dy',
      solve spsolver_solve self args = Some (self', dx', dy') ->
      nan_replaced (fst (fst (fst (solve_raw spsolver_solve self args))))
                   dx' /\
      nan_replaced (snd (fst (fst (solve_raw spsolver_solve self args))))
                   dy').
Proof.
  split.
  - apply LU_solve_nan_rows.
  - apply Stepper_solve_no_nan.
Qed.

(** *** Sensitivities *)

Lemma solve_columns_dims :
  forall sp cols_left X Y,
    rows (fst (solve_columns spsolver_solve_inplace sp cols_left X Y))
      = rows X.
Proof.
  intros sp. induction cols_left as [|c rest IH]; intros X Y;
    cbn [solve_columns].
  - reflexivity.
  - destruct (spsolver_solve_inplace sp (col X c) (col Y c)) as [xi yi].
    rewrite IH. reflexivity.
Qed.

(** After the loop over the columns, the rows of the unstable variables
    are zero in every column that was solved. *)
Lemma solve_columns_unstable :
  forall sp ju j,
    unstable_components_zero spsolver_solve_inplace sp ju ->
    forall cols_left X Y,
      (In j cols_left \/
       forall i, In i ju -> i < rows X -> coeff X i j = Fin 0) ->
      forall i, In i ju -> i < rows X ->
        coeff (fst (solve_columns spsolver_solve_inplace sp cols_left
                      X Y)) i j = Fin 0.
Proof.
  intros sp ju j Hsp.
  induction cols_left as [|c rest IH]; intros X Y Hj i Hi Hrow;
    cbn [solve_columns].
  - destruct Hj as [[]|Hz]. cbn. apply Hz; assumption.
  - destruct (spsolver_solve_inplace sp (col X c) (col Y c))
      as [xi yi] eqn:Esol.
    apply IH; [ | exact Hi | exact Hrow ].
    destruct (Nat.eq_dec c j) as [E|E].
    + subst c. right. intros i' Hi' Hrow'. cbn.
      rewrite Nat.eqb_refl.
      change (nth i' xi NaN) with (get xi i').
      replace xi with (fst (spsolver_solve_inplace sp (col X j)
                              (col Y j)))
        by (rewrite Esol; reflexivity).
      apply Hsp; [ exact Hi' | ].
      unfold col. rewrite length_map, length_seq. exact Hrow'.
    + destruct Hj as [[Hj|Hj]|Hz].
      * congruence.
      * left. exact Hj.
      * right. intros i' Hi' Hrow'. cbn.
        replace (j =? c) with false
          by (symmetry; apply Nat.eqb_neq; congruence).
        apply Hz; assumption.
Qed.

(** C7.  With a saddle point solver that returns zero for the unstable
    components, [sensitivities] produces, in every parameter column
    [j], [dxdp(i, j) = 0] and
    [dzdp(i, j) = dgdp(i, j) + (tr(W) dydp)(i, j)] for every unstable
    variable [i], and [dzdp(i, j) = 0] for every stable variable [i]
    (the stable and the unstable variables being disjoint). *)
Theorem sensitivities_unstable_and_stable :
  forall (self : Impl) args dxdp' dydp' dzdp',
    sensitivities spsolver_solve_inplace self args
      = Some (dxdp', dydp', dzdp') ->
    unstable_components_zero spsolver_solve_inplace (spsolver self)
      (indicesUnstableVariables (sens_stability args)) ->
    (forall i, In i (indicesStableVariables (sens_stability args)) ->
               ~ In i (indicesUnstableVariables (sens_stability args))) ->
    forall j, j < cols (dxdp args) ->
      (forall i,
          In i (indicesUnstableVariables (sens_stability args)) ->
          i < n self ->
          coeff dxdp' i j = Fin 0 /\
          coeff dzdp' i j
            = add (coeff (dgdp args) i j)
                  (trmul_coeff (W self) dydp' i j)) /\
      (forall i,
          In i (indicesStableVariables (sens_stability args)) ->
          coeff dzdp' i j = Fin 0).
Proof.
  intros self args dxdp' dydp' dzdp' H Hsp Hdisj j Hj.
  unfold sensitivities in H.
  destruct (negb _) eqn:Edims; [ discriminate H | ].
  apply negb_false_iff in Edims.
  repeat (apply andb_true_iff in Edims; destruct Edims as [Edims ?]).
  apply Nat.eqb_eq in Edims.
  set (is_ := indicesStableVariables (sens_stability args)) in *.
  set (iu := indicesUnstableVariables (sens_stability args)) in *.
  set (X0 := fillRows _ iu (Fin 0)) in H.
  set (Y0 := setBottomRows _ _ _) in H.
  pose proof (@solve_columns_unstable (spsolver self) iu j Hsp
                (seq 0 (cols (dxdp args))) X0 Y0) as Hzero.
  destruct (solve_columns spsolver_solve_inplace (spsolver self)
              (seq 0 (cols (dxdp args))) X0 Y0) as [X3 Y3].
  inversion H; subst dxdp' dydp' dzdp'; clear H.
  cbn [fst] in Hzero.
  split.
  - intros i Hi Hn. split.
    + apply Hzero; [ | exact Hi | ].
      * left. apply in_seq. lia.
      * unfold X0. cbn. lia.
    + cbn. apply memb_In in Hi. rewrite Hi. reflexivity.
  - intros i Hi. cbn.
    replace (memb i iu) with false.
    + apply memb_In in Hi. rewrite Hi. reflexivity.
    + symmetry. destruct (memb i iu) eqn:E; [ | reflexivity ].
      apply memb_In in E. exfalso. exact (Hdisj i Hi E).
Qed.

End Proofs.

End StepperProofs.

(* ================================================================== *)
(** ** The rank: LU::decompose and Echelonizer::numBasicVariables *)
(* ================================================================== *)

Module RankProofs.

Import Dbl Dense RankSpec.
Local Open Scope nat_scope.

Lemma rank_loop_spec :
  forall D tau n steps i rank,
    rank + i = S n -> steps = rank ->
    let r := LU.rank_loop D tau n steps i rank in
    r <= rank /\
    (forall k, r <= k -> k < rank -> leb (get D k) tau = true) /\
    (0 < r -> leb (get D (r - 1)) tau = false).
Proof.
  intros D tau n steps.
  induction steps as [|steps IH]; intros i rank Hinv Hsteps; cbn.
  - subst rank. repeat split; intros; lia.
  - subst rank.
    replace (i <=? n) with true by (symmetry; apply Nat.leb_le; lia).
    replace (n - i) with steps by lia.
    destruct (leb (get D steps) tau) eqn:E.
    + replace (S steps - 1) with steps by lia.
      destruct (IH (S i) steps) as (H1 & H2 & H3); [ lia | reflexivity | ].
      split; [ lia | ]. split; [ | exact H3 ].
      intros k Hk1 Hk2.
      destruct (Nat.eq_dec k steps) as [->|Hne];
        [ exact E | apply H2; lia ].
    + split; [ lia | ]. split; [ intros; lia | ].
      intros _. replace (S steps - 1) with steps by lia. exact E.
Qed.

(** [LU::decompose]: the rank leaves out the trailing diagonal entries
    that do not exceed [maxdiagcoeff * eps * n], whatever the size of the
    largest pivot. *)
Lemma LU_decompose_rank :
  forall eigen_compute A impl,
    LU.decompose eigen_compute A = Some impl ->
    let D := map abs (diagonal (LU.matrixLU (eigen_compute A))) in
    rows A = cols A /\
    LU.lu impl = eigen_compute A /\
    trailing_rank D (LU.decompose_threshold D (cols A)) (cols A)
      (LU.rank impl).
Proof.
  intros eigen_compute A impl H D. unfold LU.decompose in H.
  destruct (cols A =? rows A) eqn:E; cbn [negb] in H; [ | discriminate H ].
  apply Nat.eqb_eq in E.
  inversion H; subst impl; clear H. cbn [LU.lu LU.rank].
  split; [ symmetry; exact E | ]. split; [ reflexivity | ].
  fold D.
  destruct (@rank_loop_spec D (LU.decompose_threshold D (cols A))
              (cols A) (cols A) 1 (cols A)) as (H1 & H2 & H3);
    [ lia | reflexivity | ].
  split; [ exact H1 | ]. split; assumption.
Qed.

Lemma lu_setThreshold_restore :
  forall lu t,
    Echelonizer.lu_setThreshold (Echelonizer.lu_setThreshold lu t)
      (Echelonizer.lu_threshold lu) = lu.
Proof. intros [LUm p q mp th] t. reflexivity. Qed.

(** [Echelonizer::numBasicVariables]: the rank of the factorization,
    evaluated with the threshold 1 when the largest pivot is below
    [10 * eps]; the threshold of the factorization is restored. *)
Lemma numBasicVariables_spec :
  forall lu,
    Echelonizer.numBasicVariables lu
    = (if Qltb (Echelonizer.maxPivot lu) (10 * epsilon)
       then Echelonizer.lu_rank (Echelonizer.lu_setThreshold lu 1)
       else Echelonizer.lu_rank lu,
       lu).
Proof.
  intros lu. unfold Echelonizer.numBasicVariables.
  destruct (Qltb (Echelonizer.maxPivot lu) (10 * epsilon)).
  - rewrite lu_setThreshold_restore. reflexivity.
  - reflexivity.
Qed.

Lemma filter_all_false :
  forall (A : Type) (f : A -> bool) (l : list A),
    (forall x, In x l -> f x = false) -> filter f l = [].
Proof.
  intros A f. induction l as [|a l IH]; intros H; cbn.
  - reflexivity.
  - rewrite (H a) by (left; reflexivity).
    apply IH. intros x Hx. apply H. right. exact Hx.
Qed.

(** With the threshold 1 no pivot exceeds [|maxPivot| * 1] when
    [maxPivot] is the largest absolute pivot: the rank is 0, as with an
    absolute threshold of 1. *)
Lemma lu_rank_threshold_one :
  forall lu,
    (forall i, i < Nat.min (Echelonizer.lu_rows lu) (Echelonizer.lu_cols lu) ->
       (Qabs (coeff (Echelonizer.matrixLU lu) i i)
          <= Echelonizer.maxPivot lu)%Q) ->
    Echelonizer.lu_rank (Echelonizer.lu_setThreshold lu 1) = 0.
Proof.
  intros lu Hmax. unfold Echelonizer.lu_rank.
  rewrite filter_all_false; [ reflexivity | ].
  intros i Hi. apply in_seq in Hi. destruct Hi as [_ Hi].
  rewrite Nat.add_0_l in Hi.
  unfold Echelonizer.lu_rows, Echelonizer.lu_cols in Hi, Hmax.
  cbn [Echelonizer.lu_setThreshold Echelonizer.maxPivot
       Echelonizer.lu_threshold Echelonizer.matrixLU] in Hi |- *.
  apply DblFacts.Qltb_ge.
  assert (H : (Qabs (coeff (Echelonizer.matrixLU lu) i i)
               <= Echelonizer.maxPivot lu)%Q)
    by (apply Hmax; exact Hi).
  assert (H0 : (0 <= Echelonizer.maxPivot lu)%Q).
  { eapply Qle_trans; [ apply Qabs_nonneg | exact H ]. }
  rewrite (Qabs_pos _ H0). rewrite Qmult_1_r. exact H.
Qed.

Section Echelon.

Variable eigen_fullPivLU : Matrix Q -> Echelonizer.FullPivLU.

Lemma compute_some :
  forall self A,
    rows A <= cols A ->
    exists s, Echelonizer.compute eigen_fullPivLU self A = Some s.
Proof.
  intros self A H. unfold Echelonizer.compute.
  replace (rows A <=? cols A) with true
    by (symmetry; apply Nat.leb_le; exact H).
  cbn [negb]. rewrite numBasicVariables_spec.
  eexists. reflexivity.
Qed.

Lemma compute_none :
  forall self A,
    cols A < rows A ->
    Echelonizer.compute eigen_fullPivLU self A = None.
Proof.
  intros self A H. unfold Echelonizer.compute.
  replace (rows A <=? cols A) with false
    by (symmetry; apply Nat.leb_gt; exact H).
  reflexivity.
Qed.

(** C9.  [compute(A)] asserts that [A] has at least as many columns as
    rows: the assertion fails for every matrix with more rows than
    columns, and for no other matrix. *)
Theorem compute_requires_wide_matrix :
  forall self A,
    Echelonizer.compute eigen_fullPivLU self A = None
    <-> cols A < rows A.
Proof.
  intros self A. split.
  - intros H. destruct (le_lt_dec (rows A) (cols A)) as [Hle|Hlt].
    + destruct (compute_some self A Hle) as (s & Hs). congruence.
    + exact Hlt.
  - apply compute_none.
Qed.

(** The threshold [compute] stores for the pivots of later swaps. *)
Lemma compute_threshold :
  forall self A s,
    Echelonizer.compute eigen_fullPivLU self A = Some s ->
    Echelonizer.lu s = eigen_fullPivLU A /\
    (Echelonizer.threshold s
     = Qabs (Echelonizer.maxPivot (eigen_fullPivLU A))
       * Echelonizer.lu_threshold (eigen_fullPivLU A)
       * inject_Z (Z.of_nat (Nat.max (rows A) (cols A))))%Q.
Proof.
  intros self A s H. unfold Echelonizer.compute in H.
  destruct (rows A <=? cols A); cbn [negb] in H; [ | discriminate H ].
  rewrite numBasicVariables_spec in H.
  inversion H; subst s; clear H. cbn. split; reflexivity.
Qed.

(** C6, as amended.  [LU::decompose] obtains the rank by thresholded
    inspection of the absolute diagonal of [U], from its end, with
    the relative threshold [maxPivot * eps * n] (the matrix is square,
    [n = max(m, n)]), whatever the size of the largest pivot.
    [Echelonizer::numBasicVariables] returns the rank of the
    full-pivoting factorization, evaluated with the threshold set to 1
    when the largest pivot is below [10 * eps] (the rank is then 0, as
    with an absolute threshold of 1); and [compute] stores
    [|maxPivot| * relTol * max(m, n)], with [relTol] the threshold of
    the factorization, as the threshold of the echelonizer. *)
Theorem rank_by_thresholded_inspection :
  (forall eigen_compute A impl,
      LU.decompose eigen_compute A = Some impl ->
      let D := map abs (diagonal (LU.matrixLU (eigen_compute A))) in
      rows A = cols A /\
      LU.lu impl = eigen_compute A /\
      trailing_rank D
        (mul (mul (LU.maxCoeff D) (Fin epsilon))
             (Fin (inject_Z (Z.of_nat (cols A)))))
        (cols A) (LU.rank impl))
  /\
  (forall lu,
      Echelonizer.numBasicVariables lu
      = (if Qltb (Echelonizer.maxPivot lu) (10 * epsilon)
         then Echelonizer.lu_rank (Echelonizer.lu_setThreshold lu 1)
         else Echelonizer.lu_rank lu,
         lu))
  /\
  (forall lu,
      (forall i,
          i < Nat.min (Echelonizer.lu_rows lu) (Echelonizer.lu_cols lu) ->
          (Qabs (coeff (Echelonizer.matrixLU lu) i i)
             <= Echelonizer.maxPivot lu)%Q) ->
      Echelonizer.lu_rank (Echelonizer.lu_setThreshold lu 1) = 0)
  /\
  (forall self A s,
      Echelonizer.compute eigen_fullPivLU self A = Some s ->
      Echelonizer.lu s = eigen_fullPivLU A /\
      (Echelonizer.threshold s
       = Qabs (Echelonizer.maxPivot (eigen_fullPivLU A))
         * Echelonizer.lu_threshold (eigen_fullPivLU A)
         * inject_Z (Z.of_nat (Nat.max (rows A) (cols A))))%Q).
Proof.
  split; [ | split; [ | split ] ].
  - apply LU_decompose_rank.
  - apply numBasicVariables_spec.
  - apply lu_rank_threshold_one.
  - apply compute_threshold.
Qed.

End Echelon.

End RankProofs.

(* ================================================================== *)
(** ** Finite sums of rationals *)
(* ================================================================== *)

Unset Implicit Arguments.

Module SumFacts.

Module E := Echelonizer.
Local Open Scope Q_scope.

Lemma sumQ_ext :
  forall n f g,
    (forall k, (k < n)%nat -> f k == g k) -> E.sumQ n f == E.sumQ n g.
Proof.
  induction n as [|n IH]; intros f g H; cbn.
  - reflexivity.
  - rewrite (IH f g) by (intros k Hk; apply H; lia).
    rewrite (H n) by lia. reflexivity.
Qed.

Lemma sumQ_zero :
  forall n f, (forall k, (k < n)%nat -> f k == 0) -> E.sumQ n f == 0.
Proof.
  induction n as [|n IH]; intros f H; cbn.
  - reflexivity.
  - rewrite IH by (intros k Hk; apply H; lia).
    rewrite (H n) by lia. ring.
Qed.

Lemma sumQ_scale :
  forall n c f, E.sumQ n (fun k => c * f k) == c * E.sumQ n f.
Proof.
  induction n as [|n IH]; intros c f; cbn.
  - ring.
  - rewrite IH. ring.
Qed.

Lemma sumQ_plus :
  forall n f g,
    E.sumQ n (fun k => f k + g k) == E.sumQ n f + E.sumQ n g.
Proof.
  induction n as [|n IH]; intros f g; cbn.
  - ring.
  - rewrite IH. ring.
Qed.

Lemma sumQ_minus :
  forall n f g,
    E.sumQ n (fun k => f k - g k) == E.sumQ n f - E.sumQ n g.
Proof.
  induction n as [|n IH]; intros f g; cbn.
  - ring.
  - rewrite IH. ring.
Qed.

(** A sum with a single term that is not zero. *)
Lemma sumQ_single :
  forall n j f,
    (j < n)%nat ->
    (forall k, (k < n)%nat -> k <> j -> f k == 0) ->
    E.sumQ n f == f j.
Proof.
  induction n as [|n IH]; intros j f Hj H; cbn.
  - lia.
  - destruct (Nat.eq_dec j n) as [->|Hne].
    + rewrite sumQ_zero by (intros k Hk; apply H; lia). ring.
    + rewrite (IH j) by (try lia; intros k Hk Hkj; apply H; lia).
      rewrite (H n) by lia. ring.
Qed.

Lemma sumQ_exchange :
  forall n m (f : nat -> nat -> Q),
    E.sumQ n (fun k => E.sumQ m (fun l => f k l))
    == E.sumQ m (fun l => E.sumQ n (fun k => f k l)).
Proof.
  induction n as [|n IH]; intros m f; cbn.
  - symmetry. apply sumQ_zero. intros; reflexivity.
  - rewrite IH. rewrite <- sumQ_plus. reflexivity.
Qed.

(** A sum whose terms vanish from [i] on. *)
Lemma sumQ_truncate :
  forall n i f,
    (i <= n)%nat ->
    (forall k, (i <= k)%nat -> (k < n)%nat -> f k == 0) ->
    E.sumQ n f == E.sumQ i f.
Proof.
  induction n as [|n IH]; intros i f Hi H.
  - replace i with 0%nat by lia. reflexivity.
  - destruct (Nat.eq_dec i (S n)) as [->|Hne]; [ reflexivity | ].
    cbn. rewrite (IH i) by (try lia; intros k Hk1 Hk2; apply H; lia).
    rewrite (H n) by lia. ring.
Qed.

(** Splitting a sum at [i]: the terms before [i], the term [i] and the
    terms after it. *)
Lemma sumQ_split :
  forall n i f,
    (i < n)%nat ->
    E.sumQ n f
    == E.sumQ i f + f i + E.sumQ (n - S i) (fun k => f (S i + k)%nat).
Proof.
  induction n as [|n IH]; intros i f Hi.
  - lia.
  - destruct (Nat.eq_dec i n) as [->|Hne].
    + replace (S n - S n)%nat with 0%nat by lia. cbn. ring.
    + replace (S n - S i)%nat with (S (n - S i)) by lia.
      cbn [E.sumQ]. rewrite (IH i) by lia.
      replace (S i + (n - S i))%nat with n by lia. ring.
Qed.

(** Matrix products are associative: the coefficient form used below. *)
Lemma sumQ_assoc :
  forall n m (a : nat -> Q) (b : nat -> nat -> Q) (c : nat -> Q),
    E.sumQ n (fun k => a k * E.sumQ m (fun l => b k l * c l))
    == E.sumQ m (fun l => E.sumQ n (fun k => a k * b k l) * c l).
Proof.
  intros n m a b c.
  transitivity
    (E.sumQ n (fun k => E.sumQ m (fun l => a k * b k l * c l))).
  - apply sumQ_ext. intros k _.
    transitivity (E.sumQ m (fun l => a k * (b k l * c l))).
    + symmetry. apply sumQ_scale.
    + apply sumQ_ext. intros l _. ring.
  - rewrite sumQ_exchange. apply sumQ_ext. intros l _.
    transitivity (c l * E.sumQ n (fun k => a k * b k l)); [ | ring ].
    transitivity (E.sumQ n (fun k => c l * (a k * b k l))).
    + apply sumQ_ext. intros k _. ring.
    + apply sumQ_scale.
Qed.

End SumFacts.

(* ================================================================== *)
(** ** Echelonizer: a swap preserves the canonical identity *)
(* ================================================================== *)

Module SwapProofs.

Import Dense EchelonizerSpec SumFacts.
Local Open Scope nat_scope.

(** Boolean tests on indices, turned into facts. *)
Ltac nat_tests :=
  repeat match goal with
  | H : (_ =? _) = true |- _ => apply Nat.eqb_eq in H
  | H : (_ =? _) = false |- _ => apply Nat.eqb_neq in H
  | H : (_ <? _) = true |- _ => apply Nat.ltb_lt in H
  | H : (_ <? _) = false |- _ => apply Nat.ltb_ge in H
  | H : (_ <=? _) = true |- _ => apply Nat.leb_le in H
  | H : (_ <=? _) = false |- _ => apply Nat.leb_gt in H
  end.

Ltac split_tests :=
  repeat match goal with
  | |- context [if ?b then _ else _] => destruct b eqn:?
  end; nat_tests.

Lemma length_set_at :
  forall v i a, length (E.set_at v i a) = length v.
Proof.
  induction v as [|b v IH]; intros [|i] a; cbn; try reflexivity.
  rewrite IH. reflexivity.
Qed.

Lemma at_set_at :
  forall v i a j,
    E.at_ (E.set_at v i a) j
    = if (j =? i) && (i <? length v) then a else E.at_ v j.
Proof.
  unfold E.at_.
  induction v as [|b v IH]; intros [|i] a [|j]; cbn; try reflexivity.
  - rewrite Bool.andb_false_r. reflexivity.
  - rewrite IH. reflexivity.
Qed.

Lemma length_swap_at :
  forall v a b, length (E.swap_at v a b) = length v.
Proof.
  intros v a b. unfold E.swap_at. rewrite !length_set_at. reflexivity.
Qed.

Lemma at_swap_at :
  forall v a b j,
    a < length v -> b < length v ->
    E.at_ (E.swap_at v a b) j
    = if j =? b then E.at_ v a
      else if j =? a then E.at_ v b else E.at_ v j.
Proof.
  intros v a b j Ha Hb. unfold E.swap_at.
  rewrite !at_set_at, length_set_at.
  replace (b <? length v) with true by (symmetry; apply Nat.ltb_lt; lia).
  replace (a <? length v) with true by (symmetry; apply Nat.ltb_lt; lia).
  rewrite !Bool.andb_true_r. reflexivity.
Qed.

(** The loop [for(i = 0; i < m; ++i) if(i != ib) M.row(i) -= c(i) *
    M.row(ib)], where the factor [c(i)] is read from the row [i] of the
    matrix being updated (or from elsewhere): every row but [ib] is
    updated once, with the factor and the row [ib] of the start. *)
Lemma fold_subRow :
  forall (cf : Matrix Q -> nat -> Q) (ib : nat),
    (forall Acc i0 c i, i <> i0 -> i0 <> ib ->
                        cf (E.subRow Acc i0 c ib) i = cf Acc i) ->
    forall l A0,
      NoDup l ->
      let A' :=
        fold_left
          (fun Acc i =>
             if negb (i =? ib) then E.subRow Acc i (cf Acc i) ib else Acc)
          l A0 in
      rows A' = rows A0 /\ cols A' = cols A0 /\
      forall i k,
        coeff A' i k
        = if memb i l && negb (i =? ib)
          then (coeff A0 i k - cf A0 i * coeff A0 ib k)%Q
          else coeff A0 i k.
Proof.
  intros cf ib Hcf.
  induction l as [|i0 l IH]; intros A0 Hnd; cbn [fold_left].
  - repeat split.
  - inversion Hnd as [|? ? Hnin Hnd']; subst.
    set (A1 := if negb (i0 =? ib)
               then E.subRow A0 i0 (cf A0 i0) ib else A0).
    destruct (IH A1 Hnd') as (Hr & Hc & Hco).
    assert (Hdims : rows A1 = rows A0 /\ cols A1 = cols A0)
      by (unfold A1; destruct (negb (i0 =? ib)); split; reflexivity).
    split; [ rewrite Hr; apply Hdims | ].
    split; [ rewrite Hc; apply Hdims | ].
    intros i k. rewrite Hco.
    unfold memb. cbn [existsb]. fold (memb i l).
    destruct (Nat.eqb_spec i i0) as [->|Hne].
    + assert (Hm : memb i0 l = false).
      { destruct (memb i0 l) eqn:Em; [ | reflexivity ].
        apply DblFacts.memb_In in Em. contradiction. }
      rewrite Hm. cbn [orb andb]. unfold A1.
      destruct (Nat.eqb_spec i0 ib) as [->|Hib]; cbn [negb].
      * reflexivity.
      * cbn. rewrite Nat.eqb_refl. reflexivity.
    + cbn [orb].
      assert (Hrow : forall k', coeff A1 i k' = coeff A0 i k').
      { intros k'. unfold A1.
        destruct (negb (i0 =? ib)); [ | reflexivity ].
        cbn. replace (i =? i0) with false
          by (symmetry; apply Nat.eqb_neq; exact Hne).
        reflexivity. }
      assert (Hrowib : forall k', coeff A1 ib k' = coeff A0 ib k').
      { intros k'. unfold A1.
        destruct (Nat.eqb_spec i0 ib) as [->|Hib]; cbn [negb];
          [ reflexivity | ].
        cbn. replace (ib =? i0) with false
          by (symmetry; apply Nat.eqb_neq; congruence).
        reflexivity. }
      assert (Hcf1 : cf A1 i = cf A0 i).
      { unfold A1.
        destruct (Nat.eqb_spec i0 ib) as [->|Hib]; cbn [negb];
          [ reflexivity | ].
        apply Hcf; assumption. }
      rewrite Hrow, Hrowib, Hcf1. reflexivity.
Qed.

Lemma memb_seq : forall i n, memb i (seq 0 n) = (i <? n).
Proof.
  intros i n. destruct (i <? n) eqn:E.
  - apply DblFacts.memb_In. apply in_seq. apply Nat.ltb_lt in E. lia.
  - destruct (memb i (seq 0 n)) eqn:Em; [ | reflexivity ].
    apply DblFacts.memb_In in Em. apply in_seq in Em.
    apply Nat.ltb_ge in E. lia.
Qed.

Lemma atQ_map_col :
  forall (f : Q -> Q) (A : Matrix Q) j i,
    i < rows A ->
    E.atQ (map f (col A j)) i = f (coeff A i j).
Proof.
  intros f A j i Hi. unfold E.atQ, col.
  rewrite map_map.
  rewrite (nth_indep _ 0%Q (f (coeff A 0 j)))
    by (rewrite length_map, length_seq; exact Hi).
  rewrite (map_nth (fun i' => f (coeff A i' j)) (seq 0 (rows A)) 0 i).
  rewrite seq_nth by exact Hi. reflexivity.
Qed.

(** The state a legal swap leaves, coefficient by coefficient. *)
Lemma swap_result :
  forall self ib in_ self',
    E.updateWithSwapBasicVariable self ib in_ = Some self' ->
    let r := rank_of (E.lu self) in
    let s := coeff (E.S self) ib in_ in
    let aux := (1 / s)%Q in
    ib < r /\ in_ < E.lu_cols (E.lu self) - r /\
    (E.threshold self < Qabs s)%Q /\
    E.lu self' = E.lu self /\
    E.threshold self' = E.threshold self /\
    E.Kb self' = E.Kb self /\ E.Kn self' = E.Kn self /\
    E.Q self' = E.swap_at (E.Q self) ib (rows (E.S self) + in_) /\
    rows (E.R self') = rows (E.R self) /\
    cols (E.R self') = cols (E.R self) /\
    rows (E.S self') = rows (E.S self) /\
    cols (E.S self') = cols (E.S self) /\
    (forall i k,
        coeff (E.R self') i k
        = if i =? ib then (coeff (E.R self) ib k * aux)%Q
          else if i <? rows (E.S self)
               then (coeff (E.R self) i k
                     - coeff (E.S self) i in_
                       * (coeff (E.R self) ib k * aux))%Q
               else coeff (E.R self) i k) /\
    (forall i j,
        i < rows (E.S self) ->
        coeff (E.S self') i j
        = if (i =? ib) && (j =? in_) then aux
          else if j =? in_ then (- coeff (E.S self) i in_ * aux)%Q
          else if i =? ib then (coeff (E.S self) ib j * aux)%Q
          else (coeff (E.S self) i j
                - coeff (E.S self) i in_
                  * (coeff (E.S self) ib j * aux))%Q).
Proof.
  intros self ib in_ self' H r s aux.
  unfold E.updateWithSwapBasicVariable in H.
  rewrite RankProofs.numBasicVariables_spec in H.
  fold (rank_of (E.lu self)) in r.
  change (if Dbl.Qltb (E.maxPivot (E.lu self)) (10 * Dbl.epsilon)
          then E.lu_rank (E.lu_setThreshold (E.lu self) 1)
          else E.lu_rank (E.lu self))
    with (fst (if Dbl.Qltb (E.maxPivot (E.lu self)) (10 * Dbl.epsilon)
               then E.lu_rank (E.lu_setThreshold (E.lu self) 1)
               else E.lu_rank (E.lu self), E.lu self)) in H.
  rewrite <- RankProofs.numBasicVariables_spec in H.
  fold (rank_of (E.lu self)) in H. fold r in H.
  destruct (ib <? r) eqn:E1; cbn [negb] in H; [ | discriminate H ].
  destruct (in_ <? E.lu_cols (E.lu self) - r) eqn:E2; cbn [negb] in H;
    [ | discriminate H ].
  destruct (Dbl.Qltb (E.threshold self) (Qabs (coeff (E.S self) ib in_)))
    eqn:E3; cbn [negb] in H; [ | discriminate H ].
  nat_tests. apply DblFacts.Qltb_lt in E3.
  inversion H; subst self'; clear H.
  cbn [E.lu E.threshold E.Kb E.Kn E.Q E.R E.S].
  (* the two loops *)
  destruct (@fold_subRow (fun _ i => coeff (E.S self) i in_) ib
              (fun _ _ _ _ _ _ => eq_refl)
              (seq 0 (rows (E.S self)))
              (E.scaleRow (E.R self) ib aux)
              (seq_NoDup _ _)) as (HRr & HRc & HR).
  destruct (@fold_subRow (fun Acc i => coeff Acc i in_) ib)
    with (l := seq 0 (rows (E.S self)))
         (A0 := E.scaleRow (E.S self) ib aux)
    as (HSr & HSc & HS).
  { intros Acc i0 c i Hne _. cbn.
    replace (i =? i0) with false
      by (symmetry; apply Nat.eqb_neq; exact Hne).
    reflexivity. }
  { apply seq_NoDup. }
  fold s. fold aux.
  split; [ exact E1 | ]. split; [ exact E2 | ]. split; [ exact E3 | ].
  split; [ reflexivity | ]. split; [ reflexivity | ].
  split; [ reflexivity | ]. split; [ reflexivity | ].
  split; [ reflexivity | ].
  split; [ exact HRr | ]. split; [ exact HRc | ].
  split; [ cbn; exact HSr | ]. split; [ cbn; exact HSc | ].
  split.
  - intros i k. rewrite HR. rewrite memb_seq. cbn.
    destruct (Nat.eqb_spec i ib) as [->|Hne].
    + rewrite Nat.eqb_refl.
      rewrite Bool.andb_false_r. reflexivity.
    + rewrite Nat.eqb_refl. cbn [negb]. rewrite Bool.andb_true_r.
      reflexivity.
  - intros i j Hi. cbn [E.setCoeff E.setColQ coeff].
    rewrite (atQ_map_col (fun a => (- a * aux)%Q)) by exact Hi.
    rewrite HS. rewrite memb_seq.
    replace (i <? rows (E.S self)) with true
      by (symmetry; apply Nat.ltb_lt; exact Hi).
    cbn [andb E.scaleRow coeff].
    rewrite Nat.eqb_refl.
    destruct (Nat.eqb_spec i ib) as [->|Hne];
      destruct (Nat.eqb_spec j in_) as [->|Hnj];
      cbn [andb negb]; reflexivity.
Qed.

(** Tests on indices that follow from the hypotheses are evaluated. *)
Ltac decide_test :=
  match goal with
  | |- context [?a =? ?b] =>
      first [ replace (a =? b) with true
                by (symmetry; apply Nat.eqb_eq; lia)
            | replace (a =? b) with false
                by (symmetry; apply Nat.eqb_neq; lia) ]
  | |- context [?a <? ?b] =>
      first [ replace (a <? b) with true
                by (symmetry; apply Nat.ltb_lt; lia)
            | replace (a <? b) with false
                by (symmetry; apply Nat.ltb_ge; lia) ]
  | |- context [?a <=? ?b] =>
      first [ replace (a <=? b) with true
                by (symmetry; apply Nat.leb_le; lia)
            | replace (a <=? b) with false
                by (symmetry; apply Nat.leb_gt; lia) ]
  end.

Ltac decide_tests := repeat decide_test; cbn [andb orb negb].

Lemma Qabs_pos_nonzero :
  forall t x : Q, (0 <= t)%Q -> (t < Qabs x)%Q -> ~ (x == 0)%Q.
Proof.
  intros t x Ht Hx Hz. rewrite Hz in Hx. cbn in Hx.
  exact (Qlt_irrefl _ (Qle_lt_trans _ _ _ Ht Hx)).
Qed.

(** A legal swap of a basic and a non-basic variable preserves the
    canonical form. *)
Lemma swap_preserves_canonical :
  forall self A ib in_ self',
    canonical self A ->
    E.updateWithSwapBasicVariable self ib in_ = Some self' ->
    canonical self' A.
Proof.
  intros self A ib in_ self' [Hwf Hid] Hswap.
  destruct Hwf as (Hlr & Hlc & HRr & HRc & HSr & HSc & HQ & Hrm & Hmn
                   & Hth & HKb & HKn).
  destruct (swap_result self ib in_ self' Hswap)
    as (Hib & Hin & Hpiv & Hlu & Hthr & HKb' & HKn' & HQ' & HRr' & HRc'
        & HSr' & HSc' & HR' & HS').
  set (r := rank_of (E.lu self)) in *.
  set (m := rows A) in *. set (n := cols A) in *.
  set (s := coeff (E.S self) ib in_) in *.
  assert (Hs : ~ (s == 0)%Q) by (eapply Qabs_pos_nonzero; eassumption).
  rewrite Hlc in Hin.
  split.
  - (* the shape *)
    unfold well_formed. rewrite Hlu, Hthr, HKb', HKn', HQ'.
    rewrite length_swap_at. fold r.
    repeat split; try assumption; try congruence.
    all: unfold m, n in *; congruence.
  - (* the identity *)
    intros i j Hi Hj. fold m in Hi. fold n in Hj.
    set (sigma := if j =? ib then r + in_
                  else if j =? r + in_ then ib else j).
    assert (Hsigma : sigma < n) by (unfold sigma; split_tests; lia).
    assert (Hat : E.at_ (E.Q self') j = E.at_ (E.Q self) sigma).
    { rewrite HQ', HSr. rewrite at_swap_at by lia.
      unfold sigma. split_tests; subst; try reflexivity; lia. }
    pose (Ev := fun i' =>
                  E.sumQ m (fun k => coeff (E.R self) i' k
                                     * coeff A k (E.at_ (E.Q self) sigma))%Q).
    assert (HE : forall i', i' < m ->
                   (Ev i' == coeff (E.C self) i' sigma)%Q).
    { intros i' Hi'. specialize (Hid i' sigma Hi' Hsigma).
      unfold E.RAQ, E.mmul, E.mulPermutation in Hid.
      cbn [coeff cols] in Hid. rewrite HRc in Hid. exact Hid. }
    assert (Hrow :
              (coeff (E.RAQ self' A) i j ==
               if i =? ib then (1 / s) * Ev ib
               else if i <? r
                    then Ev i - coeff (E.S self) i in_ * (1 / s) * Ev ib
                    else Ev i)%Q).
    { unfold E.RAQ, E.mmul, E.mulPermutation. cbn [coeff cols].
      rewrite HRc', HRc, Hat. fold m.
      destruct (Nat.eqb_spec i ib) as [->|Hne].
      - transitivity
          (E.sumQ m
             (fun k => (1 / s)
                       * (coeff (E.R self) ib k
                          * coeff A k (E.at_ (E.Q self) sigma)))%Q).
        + apply sumQ_ext. intros k _. rewrite HR'.
          rewrite Nat.eqb_refl. ring.
        + apply sumQ_scale.
      - destruct (i <? r) eqn:Eir.
        + transitivity
            (E.sumQ m
               (fun k =>
                  coeff (E.R self) i k
                  * coeff A k (E.at_ (E.Q self) sigma)
                  - (coeff (E.S self) i in_ * (1 / s))
                    * (coeff (E.R self) ib k
                       * coeff A k (E.at_ (E.Q self) sigma)))%Q).
          * apply sumQ_ext. intros k _. rewrite HR', HSr.
            replace (i =? ib) with false
              by (symmetry; apply Nat.eqb_neq; exact Hne).
            fold r. rewrite Eir. ring.
          * rewrite sumQ_minus.
            rewrite (sumQ_scale m (coeff (E.S self) i in_ * (1 / s))).
            reflexivity.
        + apply sumQ_ext. intros k _. rewrite HR', HSr.
          replace (i =? ib) with false
            by (symmetry; apply Nat.eqb_neq; exact Hne).
          fold r. rewrite Eir. reflexivity. }
    rewrite Hrow.
    assert (HC : forall i',
               coeff (E.C self) i' sigma
               = if i' <? r
                 then if sigma <? r
                      then (if i' =? sigma then 1%Q else 0%Q)
                      else coeff (E.S self) i' (sigma - r)
                 else 0%Q) by reflexivity.
    assert (HC' : coeff (E.C self') i j
                  = if i <? r
                    then if j <? r
                         then (if i =? j then 1%Q else 0%Q)
                         else coeff (E.S self') i (j - r)
                    else 0%Q)
      by (unfold E.C; cbn [coeff]; rewrite Hlu; reflexivity).
    rewrite HC'. clear HC'.
    destruct (Nat.eqb_spec i ib) as [->|Hne].
    + (* the row of the pivot *)
      rewrite (HE ib) by lia. rewrite HC.
      decide_tests. unfold sigma.
      destruct (Nat.eqb_spec j ib) as [->|Hj1].
      * decide_tests. replace (r + in_ - r) with in_ by lia.
        fold s. field. exact Hs.
      * destruct (Nat.eqb_spec j (r + in_)) as [->|Hj2].
        -- decide_tests. rewrite HS' by lia.
           replace (r + in_ - r) with in_ by lia.
           decide_tests. ring.
        -- destruct (j <? r) eqn:Ejr; nat_tests; decide_tests.
           ++ ring.
           ++ rewrite HS' by lia. decide_tests. fold s. ring.
    + destruct (i <? r) eqn:Eir; nat_tests.
      * (* another basic row *)
        rewrite (HE i), (HE ib) by lia. rewrite !HC.
        decide_tests. unfold sigma.
        destruct (Nat.eqb_spec j ib) as [->|Hj1].
        -- decide_tests. replace (r + in_ - r) with in_ by lia.
           fold s. field. exact Hs.
        -- destruct (Nat.eqb_spec j (r + in_)) as [->|Hj2].
           ++ decide_tests. rewrite HS' by lia.
              replace (r + in_ - r) with in_ by lia.
              decide_tests. fold s. ring.
           ++ destruct (j <? r) eqn:Ejr; nat_tests; decide_tests.
              ** destruct (Nat.eqb_spec i j); ring.
              ** rewrite HS' by lia. decide_tests. fold s. ring.
      * (* a row below the rank *)
        rewrite (HE i) by lia. rewrite HC.
        decide_tests. reflexivity.
Qed.

End SwapProofs.

(* ================================================================== *)
(** ** Echelonizer: [compute] establishes the canonical form *)
(* ================================================================== *)

Module ComputeProofs.

Import Dense EchelonizerSpec SumFacts SwapProofs.
Local Open Scope nat_scope.

Lemma numBasicVariables_pair :
  forall lu, E.numBasicVariables lu = (rank_of lu, lu).
Proof.
  intros lu. unfold rank_of.
  rewrite RankProofs.numBasicVariables_spec. reflexivity.
Qed.

Lemma filter_length_le :
  forall (A : Type) (f : A -> bool) (l : list A),
    length (filter f l) <= length l.
Proof.
  intros A f. induction l as [|a l IH]; cbn.
  - lia.
  - destruct (f a); cbn; lia.
Qed.

Lemma rank_of_le :
  forall lu, rank_of lu <= Nat.min (E.lu_rows lu) (E.lu_cols lu).
Proof.
  intros lu. unfold rank_of.
  rewrite RankProofs.numBasicVariables_spec. cbn [fst].
  destruct (Dbl.Qltb _ _); unfold E.lu_rank;
    (eapply Nat.le_trans; [ apply filter_length_le | ]);
    rewrite length_seq; apply Nat.le_refl.
Qed.

(** *** Forward substitution *)

Lemma length_fwd_col :
  forall L B i, length (E.fwd_col L B i) = i.
Proof.
  intros L B. induction i as [|i IH]; cbn.
  - reflexivity.
  - rewrite length_app, IH. cbn. lia.
Qed.

Lemma fwd_col_prefix :
  forall L B i k,
    k < i -> E.atQ (E.fwd_col L B i) k = E.atQ (E.fwd_col L B (S k)) k.
Proof.
  intros L B. induction i as [|i IH]; intros k Hk.
  - lia.
  - destruct (Nat.eq_dec k i) as [->|Hne]; [ reflexivity | ].
    cbn [E.fwd_col]. unfold E.atQ.
    rewrite app_nth1 by (rewrite length_fwd_col; lia).
    apply IH. lia.
Qed.

(** The unknown [i] of the forward substitution. *)
Lemma fwd_col_step :
  forall L B i,
    E.atQ (E.fwd_col L B (S i)) i
    = (B i - E.sumQ i (fun k => L i k * E.atQ (E.fwd_col L B i) k))%Q.
Proof.
  intros L B i. cbn [E.fwd_col]. unfold E.atQ.
  rewrite app_nth2 by (rewrite length_fwd_col; lia).
  rewrite length_fwd_col, Nat.sub_diag. reflexivity.
Qed.

(** The product of the unit lower triangular factor with a column. *)
Lemma lower_sum :
  forall lu m i (f : nat -> Q),
    i < m ->
    (E.sumQ m (fun k => Lfull lu i k * f k)
     == E.sumQ i (fun k => coeff (E.matrixLU lu) i k * f k) + f i)%Q.
Proof.
  intros lu m i f Hi.
  rewrite (sumQ_split m i) by exact Hi.
  rewrite (sumQ_zero (m - S i)).
  - unfold Lfull at 2. decide_tests.
    rewrite (sumQ_ext i _ (fun k => coeff (E.matrixLU lu) i k * f k)%Q).
    + ring.
    + intros k Hk. unfold Lfull. decide_tests. reflexivity.
  - intros k Hk. unfold Lfull. decide_tests. ring.
Qed.

(** [solveUnitLower] solves [L X = B]. *)
Lemma solveUnitLower_correct :
  forall lu (B : Matrix Q) m i j,
    i < m ->
    (E.sumQ m
       (fun k => Lfull lu i k
                 * coeff (E.solveUnitLower (leftCols (E.matrixLU lu) m) B)
                     k j)
     == coeff B i j)%Q.
Proof.
  intros lu B m i j Hi.
  rewrite lower_sum by exact Hi.
  cbn [E.solveUnitLower coeff leftCols].
  rewrite fwd_col_step.
  rewrite (sumQ_ext i _
             (fun k => coeff (E.matrixLU lu) i k
                       * E.atQ (E.fwd_col (coeff (E.matrixLU lu))
                                  (fun i' => coeff B i' j) i) k)%Q).
  - ring.
  - intros k Hk. rewrite (fwd_col_prefix _ _ i k Hk). reflexivity.
Qed.

(** A unit lower triangular matrix can be cancelled on the left. *)
Lemma lower_cancel :
  forall lu m (Y Z : nat -> Q),
    (forall i, i < m ->
       (E.sumQ m (fun k => Lfull lu i k * Y k)
        == E.sumQ m (fun k => Lfull lu i k * Z k))%Q) ->
    forall i, i < m -> (Y i == Z i)%Q.
Proof.
  intros lu m Y Z H i.
  induction i as [i IH] using lt_wf_ind. intros Hi.
  specialize (H i Hi). rewrite !lower_sum in H by exact Hi.
  rewrite (sumQ_ext i _ (fun k => coeff (E.matrixLU lu) i k * Z k)%Q) in H.
  - apply (Qplus_inj_l _ _
             (E.sumQ i (fun k => coeff (E.matrixLU lu) i k * Z k)%Q)).
    exact H.
  - intros k Hk. rewrite (IH k Hk) by lia. reflexivity.
Qed.

(** *** Back substitution *)

Lemma length_bwd_col :
  forall U B r t, length (E.bwd_col U B r t) = t.
Proof.
  intros U B r. induction t as [|t IH]; cbn.
  - reflexivity.
  - rewrite IH. reflexivity.
Qed.

Lemma bwd_col_suffix :
  forall U B r t k,
    k < t ->
    E.atQ (E.bwd_col U B r t) k = E.atQ (E.bwd_col U B r (t - k)) 0.
Proof.
  intros U B r. induction t as [|t IH]; intros k Hk.
  - lia.
  - destruct k as [|k].
    + rewrite Nat.sub_0_r. reflexivity.
    + cbn [E.bwd_col]. unfold E.atQ. cbn [nth].
      replace (S t - S k) with (t - k) by lia.
      apply IH. lia.
Qed.

(** The unknown [i] of the back substitution. *)
Lemma bwd_col_step :
  forall U B r i,
    i < r ->
    E.atQ (E.bwd_col U B r (r - i)) 0
    = ((B i - E.sumQ (r - S i)
                (fun k => U i (S i + k)%nat
                          * E.atQ (E.bwd_col U B r (r - (S i + k))%nat) 0))
       / U i i)%Q.
Proof.
  intros U B r i Hi.
  replace (r - i) with (S (r - S i)) by lia.
  cbn [E.bwd_col]. unfold E.atQ at 1. cbn [nth].
  replace (r - S (r - S i)) with i by lia.
  f_equal. f_equal.
  (* the two sums have the same terms *)
  assert (G : forall n f g,
             (forall k, k < n -> f k = g k) -> E.sumQ n f = E.sumQ n g).
  { induction n as [|n IHn]; intros f g Hfg; cbn.
    - reflexivity.
    - rewrite (IHn f g) by (intros; apply Hfg; lia).
      rewrite Hfg by lia. reflexivity. }
  apply G. intros k Hk.
  rewrite (bwd_col_suffix U B r (r - S i) k Hk).
  replace (r - S i - k) with (r - (S i + k))%nat by lia. reflexivity.
Qed.

(** The product of the upper triangular factor with a column. *)
Lemma upper_sum :
  forall lu r i (f : nat -> Q),
    i < r ->
    (E.sumQ r (fun k => Ufull lu i k * f k)
     == coeff (E.matrixLU lu) i i * f i
        + E.sumQ (r - S i)
            (fun k => coeff (E.matrixLU lu) i (S i + k)%nat * f (S i + k)%nat))%Q.
Proof.
  intros lu r i f Hi.
  rewrite (sumQ_split r i) by exact Hi.
  rewrite (sumQ_zero i).
  - unfold Ufull at 1. decide_tests.
    rewrite (sumQ_ext (r - S i) _
               (fun k => coeff (E.matrixLU lu) i (S i + k)%nat
                         * f (S i + k)%nat)%Q).
    + ring.
    + intros k Hk. unfold Ufull. decide_tests. reflexivity.
  - intros k Hk. unfold Ufull. decide_tests. ring.
Qed.

(** [solveUpper] solves [U X = B] when the pivots are not zero. *)
Lemma solveUpper_correct :
  forall lu (B : Matrix Q) r c i j,
    (forall i', i' < r -> ~ (coeff (E.matrixLU lu) i' i' == 0)%Q) ->
    i < r ->
    (E.sumQ r
       (fun k => Ufull lu i k
                 * coeff (E.solveUpper
                            (topLeftCorner (E.matrixLU lu) r c) B) k j)
     == coeff B i j)%Q.
Proof.
  intros lu B r c i j Hpiv Hi.
  rewrite upper_sum by exact Hi.
  cbn [E.solveUpper coeff topLeftCorner rows].
  rewrite (bwd_col_step _ _ r i Hi).
  field. apply Hpiv. exact Hi.
Qed.

(** An upper triangular matrix without zero pivots can be cancelled on
    the left. *)
Lemma upper_cancel :
  forall lu r (Y Z : nat -> Q),
    (forall i, i < r -> ~ (coeff (E.matrixLU lu) i i == 0)%Q) ->
    (forall i, i < r ->
       (E.sumQ r (fun k => Ufull lu i k * Y k)
        == E.sumQ r (fun k => Ufull lu i k * Z k))%Q) ->
    forall i, i < r -> (Y i == Z i)%Q.
Proof.
  intros lu r Y Z Hpiv H.
  assert (G : forall t i, i < r -> r - i <= t -> (Y i == Z i)%Q).
  { induction t as [|t IH]; intros i Hi Ht.
    - lia.
    - specialize (H i Hi). rewrite !upper_sum in H by exact Hi.
      rewrite (sumQ_ext (r - S i) _
                 (fun k => coeff (E.matrixLU lu) i (S i + k)%nat
                           * Z (S i + k)%nat)%Q) in H.
      + apply (Qmult_inj_l _ _ (coeff (E.matrixLU lu) i i)).
        * apply Hpiv. exact Hi.
        * apply (Qplus_inj_r _ _
                   (E.sumQ (r - S i)
                      (fun k => coeff (E.matrixLU lu) i (S i + k)%nat
                                * Z (S i + k)%nat)%Q)).
          exact H.
      + intros k Hk. rewrite (IH (S i + k)%nat) by lia. reflexivity. }
  intros i Hi. apply (G (r - i) i Hi). lia.
Qed.

(** *** The canonical form after [compute] *)

Section Compute.

Variable eigen_fullPivLU : Matrix Q -> E.FullPivLU.

(** [compute] on an exact factorization whose detected rank is the
    rank of [U] yields the canonical form. *)
Lemma compute_canonical :
  forall self A self',
    exact_factorization A (eigen_fullPivLU A) ->
    rank_exact (eigen_fullPivLU A) ->
    E.compute eigen_fullPivLU self A = Some self' ->
    canonical self' A.
Proof.
  intros self A self' Hfact Hrank Hcomp.
  set (lu := eigen_fullPivLU A) in *.
  destruct Hfact as (Hlr & Hlc & HP & HQ & Hth & HPAQ).
  destruct Hrank as (Hpiv & Hzero).
  set (m := rows A) in *. set (n := cols A) in *.
  set (r := rank_of lu) in *.
  unfold E.compute in Hcomp. fold m n lu in Hcomp.
  destruct (m <=? n) eqn:Emn; cbn [negb] in Hcomp;
    [ | discriminate Hcomp ].
  apply Nat.leb_le in Emn.
  rewrite numBasicVariables_pair in Hcomp. fold r in Hcomp.
  inversion Hcomp; subst self'; clear Hcomp.
  assert (Hrm : r <= m).
  { pose proof (rank_of_le lu) as H. fold r in H.
    rewrite Hlr, Hlc in H. lia. }
  (* the solution of L X1 = P *)
  set (Pm := E.asPermutation (E.permutationP lu)).
  set (X1 := E.solveUnitLower (leftCols (E.matrixLU lu) m) Pm).
  set (Ubb := topLeftCorner (E.matrixLU lu) r r).
  set (X2 := E.solveUpper Ubb (topRows X1 r)).
  set (S2 := E.solveUpper Ubb (topRightCorner (E.matrixLU lu) r (n - r))).
  set (q := E.permutationQ lu).
  (* X1 A Q = U *)
  assert (HY : forall i j, i < m -> j < n ->
            (E.sumQ m (fun l => coeff X1 i l * coeff A l (E.at_ q j))
             == Ufull lu i j)%Q).
  { intros i j Hi Hj. revert i Hi.
    apply (lower_cancel lu m
             (fun i' => E.sumQ m (fun l => coeff X1 i' l
                                           * coeff A l (E.at_ q j))%Q)
             (fun i' => Ufull lu i' j)).
    intros i Hi.
    rewrite (sumQ_assoc m m (fun k => Lfull lu i k)
               (fun k l => coeff X1 k l)
               (fun l => coeff A l (E.at_ q j))).
    rewrite <- (HPAQ i j Hi Hj).
    apply sumQ_ext. intros l Hl.
    apply Qmult_comp; [ | reflexivity ].
    exact (solveUnitLower_correct lu Pm m i l Hi). }
  (* the first rows: X2 A Q = [I S2] *)
  assert (HZ : forall i j, i < r -> j < n ->
            (E.sumQ m (fun l => coeff X2 i l * coeff A l (E.at_ q j))
             == if j <? r then (if i =? j then 1 else 0)
                else coeff S2 i (j - r))%Q).
  { intros i j Hi Hj. revert i Hi.
    apply (upper_cancel lu r
             (fun i' => E.sumQ m (fun l => coeff X2 i' l
                                           * coeff A l (E.at_ q j))%Q)
             (fun i' => if j <? r then (if i' =? j then 1 else 0)
                        else coeff S2 i' (j - r))%Q Hpiv).
    intros i Hi.
    rewrite (sumQ_assoc r m (fun k => Ufull lu i k)
               (fun k l => coeff X2 k l)
               (fun l => coeff A l (E.at_ q j))).
    transitivity (Ufull lu i j).
    - rewrite <- (HY i j) by lia.
      apply sumQ_ext. intros l Hl.
      apply Qmult_comp; [ | reflexivity ].
      exact (solveUpper_correct lu (topRows X1 r) r r i l Hpiv Hi).
    - symmetry. destruct (j <? r) eqn:Ejr; nat_tests.
      + rewrite (sumQ_single r j) by
          (try lia; intros k Hk Hkj; decide_tests; ring).
        decide_tests. ring.
      + transitivity
          (coeff (topRightCorner (E.matrixLU lu) r (n - r)) i (j - r)).
        * exact (solveUpper_correct lu _ r r i (j - r) Hpiv Hi).
        * cbn [topRightCorner coeff cols].
          fold (E.lu_cols lu). rewrite Hlc. fold n.
          replace (n - (n - r) + (j - r)) with j by lia.
          unfold Ufull. decide_tests. reflexivity. }
  split.
  - (* the shape *)
    unfold well_formed.
    cbn [E.lu E.R E.S E.Q E.threshold E.Kb E.Kn].
    fold r. cbn [rows cols setTopRows E.solveUnitLower E.solveUpper
                 E.asPermutation topRightCorner].
    split; [ exact Hlr | ]. split; [ exact Hlc | ].
    split; [ exact HP | ]. split; [ exact HP | ].
    split; [ reflexivity | ]. split; [ reflexivity | ].
    split; [ exact HQ | ]. split; [ exact Hrm | ].
    split; [ exact Emn | ].
    split.
    + apply Qmult_le_0_compat.
      * apply Qmult_le_0_compat; [ apply Qabs_nonneg | exact Hth ].
      * change 0%Q with (inject_Z 0). rewrite <- Zle_Qle. lia.
    + split; apply Permutation_refl.
  - (* the identity *)
    intros i j Hi Hj. fold m in Hi. fold n in Hj.
    unfold E.RAQ, E.mmul, E.mulPermutation, E.C.
    cbn [E.lu E.R E.S E.Q coeff cols setTopRows E.solveUnitLower
         E.asPermutation].
    fold lu. rewrite numBasicVariables_pair. cbn [fst]. fold r.
    fold Pm X1 Ubb X2 S2 q.
    replace (cols X1) with m by (unfold X1; cbn; symmetry; exact HP).
    destruct (i <? r) eqn:Eir; nat_tests.
    + apply HZ; assumption.
    + rewrite HY by assumption.
      unfold Ufull. destruct (i <=? j) eqn:Eij; nat_tests.
      * apply Hzero; fold r; rewrite ?Hlr, ?Hlc; assumption.
      * reflexivity.
Qed.

End Compute.

End ComputeProofs.

(* ================================================================== *)
(** ** Echelonizer: the update with priority weights *)
(* ================================================================== *)

Module UpdateProofs.

Import Dense EchelonizerSpec SumFacts SwapProofs ComputeProofs.
Local Open Scope nat_scope.

(** *** The candidate of a row *)

Section Candidate.

Variables (self : E.Impl) (w : list Q) (ntail i : nat).

Let value (k : nat) : Q :=
  (E.atQ w (E.at_ (E.Q self) (ntail + k))
   * Qabs (coeff (E.S self) i k))%Q.

Let eligible (k : nat) : Prop :=
  (E.threshold self < Qabs (coeff (E.S self) i k))%Q.

(** The pair [(j, max)] is the best among the columns seen. *)
Let best (seen : nat -> Prop) (j0 j : nat) (max : Dbl.double) : Prop :=
  ((forall k, seen k -> ~ eligible k) /\ max = Dbl.NInf /\ j = j0)
  \/
  (seen j /\ eligible j /\ max = Dbl.Fin (value j) /\
   forall k, seen k -> eligible k -> (value k <= value j)%Q).

Lemma find_nonbasic_loop_best :
  forall ks (seen : nat -> Prop) j0 j max,
    best seen j0 j max ->
    best (fun k => seen k \/ In k ks) j0
      (fst (E.find_nonbasic_loop self w ntail i ks j max))
      (snd (E.find_nonbasic_loop self w ntail i ks j max)).
Proof.
  induction ks as [|k ks IH]; intros seen j0 j max Hbest;
    cbn [E.find_nonbasic_loop].
  - destruct Hbest as [(H1 & H2 & H3)|(H1 & H2 & H3 & H4)].
    + left. repeat split; try assumption.
      intros k' [Hk'|[]]. apply H1. exact Hk'.
    + right. repeat split; try assumption.
      * left. exact H1.
      * intros k' [Hk'|[]]. apply H4. exact Hk'.
  - assert (Hweaken :
              forall j' max',
                best (fun k' => (seen k' \/ k' = k) \/ In k' ks) j0 j' max'
                -> best (fun k' => seen k' \/ In k' (k :: ks)) j0 j' max').
    { intros j' max' [(H1 & H2 & H3)|(H1 & H2 & H3 & H4)].
      - left. repeat split; try assumption.
        intros k' [Hk'|[Hk'|Hk']]; apply H1; auto.
      - right. repeat split; try assumption.
        + destruct H1 as [[H1|H1]|H1]; [ left | right; left | right; right ];
            auto.
        + intros k' [Hk'|[Hk'|Hk']]; apply H4; auto. }
    destruct (Qle_bool (Qabs (coeff (E.S self) i k)) (E.threshold self))
      eqn:Ethr.
    + (* the pivot is not above the threshold: the column is skipped *)
      apply Hweaken. apply IH.
      apply Qle_bool_iff in Ethr.
      destruct Hbest as [(H1 & H2 & H3)|(H1 & H2 & H3 & H4)].
      * left. repeat split; try assumption.
        intros k' [Hk' | ->]; [ apply H1; exact Hk' | ].
        unfold eligible. apply Qle_not_lt. exact Ethr.
      * right. repeat split; try assumption.
        -- left. exact H1.
        -- intros k' [Hk' | ->] Hel; [ apply H4; assumption | ].
           exfalso. revert Hel. unfold eligible.
           apply Qle_not_lt. exact Ethr.
    + assert (Hel : eligible k).
      { unfold eligible. apply Qnot_le_lt. intros Hle.
        apply Qle_bool_iff in Hle. congruence. }
      fold (value k).
      destruct (Dbl.gtb (Dbl.Fin (value k)) max) eqn:Egt.
      * (* a better candidate *)
        apply Hweaken. apply IH.
        right. split; [ right; reflexivity | ].
        split; [ exact Hel | ]. split; [ reflexivity | ].
        intros k' [Hk' | ->] Hel'; [ | apply Qle_refl ].
        destruct Hbest as [(H1 & H2 & H3)|(H1 & H2 & H3 & H4)].
        -- exfalso. exact (H1 k' Hk' Hel').
        -- subst max. unfold Dbl.gtb in Egt. cbn in Egt.
           apply DblFacts.Qltb_lt in Egt.
           eapply Qle_trans; [ apply H4; assumption | ].
           apply Qlt_le_weak. exact Egt.
      * (* the candidate is kept *)
        apply Hweaken. apply IH.
        destruct Hbest as [(H1 & H2 & H3)|(H1 & H2 & H3 & H4)].
        -- subst max. discriminate Egt.
        -- right. split; [ left; exact H1 | ].
           split; [ exact H2 | ]. split; [ exact H3 | ].
           intros k' [Hk' | ->] Hel'; [ apply H4; assumption | ].
           subst max. unfold Dbl.gtb in Egt. cbn in Egt.
           apply DblFacts.Qltb_ge in Egt. exact Egt.
Qed.

End Candidate.

(** [find_nonbasic_candidate] returns the best candidate of the row. *)
Lemma find_nonbasic_candidate_best :
  forall self w nn i,
    best_candidate self w nn i
      (fst (E.find_nonbasic_candidate self w nn i))
      (snd (E.find_nonbasic_candidate self w nn i)).
Proof.
  intros self w nn i. unfold E.find_nonbasic_candidate.
  pose proof (find_nonbasic_loop_best self w (length (E.Q self) - nn) i
                (seq 0 nn) (fun _ => False) 0 0 Dbl.NInf) as H.
  cbn beta in H.
  destruct H as [(H1 & H2 & H3)|(H1 & H2 & H3 & H4)].
  - left. repeat split. intros k [].
  - left. repeat split; try assumption.
    intros k Hk. apply H1. right. apply in_seq. lia.
  - right. destruct H1 as [[]|H1]. apply in_seq in H1.
    repeat split; try assumption; try lia.
    intros k Hk. apply H4. right. apply in_seq. lia.
Qed.

(** *** The greedy pass *)

Lemma swap_some :
  forall self A ib in_,
    canonical self A ->
    ib < rank_of (E.lu self) ->
    in_ < cols A - rank_of (E.lu self) ->
    (E.threshold self < Qabs (coeff (E.S self) ib in_))%Q ->
    exists self', E.updateWithSwapBasicVariable self ib in_ = Some self'.
Proof.
  intros self A ib in_ [Hwf _] Hib Hin Hpiv.
  destruct Hwf as (_ & Hlc & _).
  unfold E.updateWithSwapBasicVariable.
  rewrite numBasicVariables_pair. rewrite Hlc.
  replace (ib <? rank_of (E.lu self)) with true
    by (symmetry; apply Nat.ltb_lt; exact Hib).
  replace (in_ <? cols A - rank_of (E.lu self)) with true
    by (symmetry; apply Nat.ltb_lt; exact Hin).
  replace (Dbl.Qltb (E.threshold self) (Qabs (coeff (E.S self) ib in_)))
    with true by (symmetry; apply DblFacts.Qltb_lt; exact Hpiv).
  cbn [negb]. eexists. reflexivity.
Qed.

(** The greedy pass never trips an assertion of the swap, and it keeps
    the canonical form. *)
Lemma greedy_loop_canonical :
  forall A w rows_left self,
    canonical self A ->
    (forall i, In i rows_left -> i < rank_of (E.lu self)) ->
    exists self1,
      E.greedy_loop self w (cols A - rank_of (E.lu self)) rows_left
        = Some self1 /\
      canonical self1 A /\
      E.lu self1 = E.lu self /\
      E.Kb self1 = E.Kb self /\ E.Kn self1 = E.Kn self.
Proof.
  intros A w.
  induction rows_left as [|i rest IH]; intros self Hcan Hrows;
    cbn [E.greedy_loop].
  - exists self. split; [ reflexivity | ]. split; [ exact Hcan | ].
    repeat split.
  - set (nn := cols A - rank_of (E.lu self)).
    pose proof (find_nonbasic_candidate_best self w nn i) as Hbest.
    destruct (E.find_nonbasic_candidate self w nn i) as [j wj].
    cbn [fst snd] in Hbest.
    destruct (Dbl.ltb (Dbl.Fin (E.atQ w (E.at_ (E.Q self) i))) wj)
      eqn:Elt.
    + destruct Hbest as [(_ & Hwj & _)|(Hj & Hel & _ & _)].
      { subst wj. discriminate Elt. }
      destruct (swap_some self A i j Hcan) as (self' & Hswap);
        [ apply Hrows; left; reflexivity | exact Hj | exact Hel | ].
      rewrite Hswap.
      pose proof (swap_preserves_canonical self A i j self' Hcan Hswap)
        as Hcan'.
      destruct (swap_result self i j self' Hswap)
        as (_ & _ & _ & Hlu & _ & HKb & HKn & _).
      destruct (IH self' Hcan') as (self1 & Hloop & Hcan1 & Hlu1 & HK1);
        [ intros i' Hi'; rewrite Hlu; apply Hrows; right; exact Hi' | ].
      exists self1. unfold nn. rewrite <- Hlu.
      split; [ exact Hloop | ]. split; [ exact Hcan1 | ].
      split; [ congruence | ].
      destruct HK1 as [HK1 HK2]. split; congruence.
    + apply IH; [ exact Hcan | ].
      intros i' Hi'. apply Hrows. right. exact Hi'.
Qed.

(** *** The reordering *)

Lemma at_permuteSegment :
  forall K start k v p,
    p < length v ->
    E.at_ (E.permuteSegment K start k v) p
    = if (start <=? p) && (p <? start + k)
      then E.at_ v (start + E.at_ K (p - start))
      else E.at_ v p.
Proof.
  intros K start k v p Hp. unfold E.permuteSegment.
  unfold E.at_ at 1.
  set (f := fun p0 => if (start <=? p0) && (p0 <? start + k)
                      then E.at_ v (start + E.at_ K (p0 - start))
                      else E.at_ v p0).
  rewrite (nth_indep _ 0 (f 0))
    by (rewrite length_map, length_seq; exact Hp).
  rewrite (map_nth f (seq 0 (length v)) 0 p).
  rewrite seq_nth by exact Hp. reflexivity.
Qed.

Lemma length_permuteSegment :
  forall K start k v, length (E.permuteSegment K start k v) = length v.
Proof.
  intros K start k v. unfold E.permuteSegment.
  rewrite length_map, length_seq. reflexivity.
Qed.

(** A permutation of [0, ..., k - 1], read as a function. *)
Lemma permutation_seq_facts :
  forall K k,
    Permutation K (seq 0 k) ->
    length K = k /\
    (forall i, i < k -> E.at_ K i < k) /\
    (forall i j, i < k -> j < k -> E.at_ K i = E.at_ K j -> i = j).
Proof.
  intros K k HK.
  assert (Hlen : length K = k).
  { rewrite (Permutation_length HK). apply length_seq. }
  split; [ exact Hlen | ]. split.
  - intros i Hi.
    assert (Hin : In (E.at_ K i) (seq 0 k)).
    { eapply Permutation_in; [ exact HK | ].
      unfold E.at_. apply nth_In. lia. }
    apply in_seq in Hin. lia.
  - intros i j Hi Hj Heq.
    assert (Hnd : NoDup K).
    { eapply Permutation_NoDup;
        [ apply Permutation_sym; exact HK | apply seq_NoDup ]. }
    rewrite NoDup_nth in Hnd. apply Hnd; [ lia | lia | exact Heq ].
Qed.

Lemma StronglySorted_at :
  forall (R : nat -> nat -> Prop) (K : list nat),
    StronglySorted R K ->
    forall a b, a < b -> b < length K -> R (E.at_ K a) (E.at_ K b).
Proof.
  intros R K HS. unfold E.at_.
  induction HS as [|x l HS IH Hall]; intros a b Hab Hb.
  - cbn in Hb. lia.
  - destruct b as [|b]; [ lia | ].
    cbn [length] in Hb.
    destruct a as [|a]; cbn [nth].
    + rewrite Forall_forall in Hall. apply Hall. apply nth_In. lia.
    + apply IH; lia.
Qed.

(** The reordering by two permutations keeps the canonical form and
    moves the variables with the rows and the columns. *)
Lemma applyOrdering_canonical :
  forall self A Kb' Kn',
    canonical self A ->
    let r := rank_of (E.lu self) in
    let n := cols A in
    Permutation Kb' (seq 0 r) ->
    Permutation Kn' (seq 0 (n - r)) ->
    let self' := E.applyOrdering self r (n - r) Kb' Kn' in
    canonical self' A /\
    E.lu self' = E.lu self /\
    (forall p, p < r ->
       E.at_ (E.Q self') p = E.at_ (E.Q self) (E.at_ Kb' p)) /\
    (forall j, j < n - r ->
       E.at_ (E.Q self') (r + j) = E.at_ (E.Q self) (r + E.at_ Kn' j)) /\
    (forall i k, i < r ->
       coeff (E.R self') i k = coeff (E.R self) (E.at_ Kb' i) k) /\
    (forall i j, i < r ->
       coeff (E.S self') i j
       = coeff (E.S self) (E.at_ Kb' i) (E.at_ Kn' j)).
Proof.
  intros self A Kb' Kn' [Hwf Hid] r n HKb HKn self'.
  destruct Hwf as (Hlr & Hlc & HRr & HRc & HSr & HSc & HQ & Hrm & Hmn
                   & Hth & _ & _).
  fold r in HSr, HSc, Hrm. fold n in Hlc, HSc, HQ, Hmn.
  destruct (permutation_seq_facts Kb' r HKb) as (HbL & HbR & HbI).
  destruct (permutation_seq_facts Kn' (n - r) HKn) as (HnL & HnR & HnI).
  assert (HQb : forall p, p < r ->
            E.at_ (E.Q self') p = E.at_ (E.Q self) (E.at_ Kb' p)).
  { intros p Hp. unfold self', E.applyOrdering.
    cbn [E.with_RSQ E.Q].
    rewrite at_permuteSegment by (rewrite length_permuteSegment; lia).
    rewrite length_permuteSegment, HQ.
    decide_tests.
    rewrite at_permuteSegment by lia.
    decide_tests. rewrite Nat.sub_0_r. reflexivity. }
  assert (HQn : forall j, j < n - r ->
            E.at_ (E.Q self') (r + j)
            = E.at_ (E.Q self) (r + E.at_ Kn' j)).
  { intros j Hj. unfold self', E.applyOrdering.
    cbn [E.with_RSQ E.Q].
    rewrite at_permuteSegment by (rewrite length_permuteSegment; lia).
    rewrite length_permuteSegment, HQ.
    decide_tests.
    replace (n - (n - r)) with r by lia.
    replace (r + j - r) with j by lia.
    pose proof (HnR j Hj) as Hr'.
    rewrite at_permuteSegment by lia.
    decide_tests. reflexivity. }
  assert (HR' : forall i k, i < r ->
            coeff (E.R self') i k = coeff (E.R self) (E.at_ Kb' i) k).
  { intros i k Hi. unfold self', E.applyOrdering, E.permuteRows.
    cbn [E.with_RSQ E.R coeff]. decide_tests. reflexivity. }
  assert (HR'' : forall i k, r <= i ->
            coeff (E.R self') i k = coeff (E.R self) i k).
  { intros i k Hi. unfold self', E.applyOrdering, E.permuteRows.
    cbn [E.with_RSQ E.R coeff]. decide_tests. reflexivity. }
  assert (HS' : forall i j, i < r ->
            coeff (E.S self') i j
            = coeff (E.S self) (E.at_ Kb' i) (E.at_ Kn' j)).
  { intros i j Hi.
    unfold self', E.applyOrdering, E.permuteRows, E.permuteCols.
    cbn [E.with_RSQ E.S coeff]. decide_tests. reflexivity. }
  split; [ | split; [ reflexivity | ] ].
  - split.
    + (* the shape *)
      unfold well_formed, self', E.applyOrdering.
      cbn [E.with_RSQ E.lu E.R E.S E.Q E.threshold E.Kb E.Kn
           E.permuteRows E.permuteCols rows cols].
      rewrite !length_permuteSegment. fold r.
      repeat split; assumption.
    + (* the identity *)
      intros i j Hi Hj. fold n in Hj.
      set (rho := if i <? r then E.at_ Kb' i else i).
      set (pi := if j <? r then E.at_ Kb' j
                 else r + E.at_ Kn' (j - r)).
      assert (Hrho : rho < rows A).
      { unfold rho. destruct (i <? r) eqn:E1; nat_tests;
          [ specialize (HbR i E1); lia | exact Hi ]. }
      assert (Hpi : pi < n).
      { unfold pi. destruct (j <? r) eqn:E1; nat_tests.
        - specialize (HbR j E1). lia.
        - specialize (HnR (j - r)). lia. }
      assert (HatQ : E.at_ (E.Q self') j = E.at_ (E.Q self) pi).
      { unfold pi. destruct (j <? r) eqn:E1; nat_tests.
        - apply HQb. exact E1.
        - replace j with (r + (j - r)) at 1 by lia. apply HQn. lia. }
      assert (HatR : forall k, coeff (E.R self') i k
                               = coeff (E.R self) rho k).
      { intros k. unfold rho. destruct (i <? r) eqn:E1; nat_tests.
        - apply HR'. exact E1.
        - apply HR''. exact E1. }
      transitivity (coeff (E.RAQ self A) rho pi).
      * unfold E.RAQ, E.mmul, E.mulPermutation. cbn [coeff cols].
        replace (cols (E.R self')) with (cols (E.R self))
          by reflexivity.
        apply sumQ_ext. intros k _. rewrite HatR, HatQ. reflexivity.
      * rewrite (Hid rho pi Hrho Hpi).
        unfold E.C. cbn [coeff].
        replace (fst (E.numBasicVariables (E.lu self'))) with r
          by reflexivity.
        fold (rank_of (E.lu self)). fold r.
        unfold rho, pi.
        destruct (i <? r) eqn:E1; nat_tests.
        -- pose proof (HbR i E1) as Hbi.
           destruct (j <? r) eqn:E2; nat_tests.
           ++ pose proof (HbR j E2) as Hbj. decide_tests.
              destruct (Nat.eqb_spec i j) as [->|Hne].
              ** rewrite Nat.eqb_refl. reflexivity.
              ** replace (E.at_ Kb' i =? E.at_ Kb' j) with false;
                   [ reflexivity | ].
                 symmetry. apply Nat.eqb_neq. intros Heq.
                 apply Hne. apply HbI; assumption.
           ++ decide_tests. rewrite HS' by exact E1.
              replace (r + E.at_ Kn' (j - r) - r)
                with (E.at_ Kn' (j - r)) by lia.
              reflexivity.
        -- decide_tests. reflexivity.
  - split; [ exact HQb | ]. split; [ exact HQn | ].
    split; [ exact HR' | exact HS' ].
Qed.

Lemma sort_prefix_all :
  forall std_sort comp K k,
    length K = k ->
    E.sort_prefix std_sort comp K k = std_sort comp K.
Proof.
  intros std_sort comp K k <-. unfold E.sort_prefix.
  rewrite firstn_all, skipn_all, app_nil_r. reflexivity.
Qed.

(** The unfolding of one step of the greedy pass. *)
Lemma greedy_loop_step :
  forall self w nn i rest,
    E.greedy_loop self w nn (i :: rest)
    = let c := E.find_nonbasic_candidate self w nn i in
      if Dbl.ltb (Dbl.Fin (E.atQ w (E.at_ (E.Q self) i))) (snd c)
      then match E.updateWithSwapBasicVariable self i (fst c) with
           | None => None
           | Some self' => E.greedy_loop self' w nn rest
           end
      else E.greedy_loop self w nn rest.
Proof.
  intros self w nn i rest. cbn [E.greedy_loop].
  destruct (E.find_nonbasic_candidate self w nn i) as [j wj].
  reflexivity.
Qed.

Section Update.

Variable std_sort : (nat -> nat -> bool) -> list nat -> list nat.
Hypothesis std_sort_contract : sort_contract std_sort.

(** The update on a canonical form: the greedy pass, then the two
    sorts and the reordering. *)
Lemma update_canonical_descending :
  forall self A w,
    canonical self A ->
    length w = cols A ->
    let r := rank_of (E.lu self) in
    let n := cols A in
    exists self1 self',
      greedy_pass self w = Some self1 /\
      canonical self1 A /\
      E.updateWithPriorityWeights std_sort self w = Some self' /\
      self' = E.applyOrdering self1 r (n - r)
                (std_sort (comp_basic self1 w) (E.Kb self1))
                (std_sort (comp_nonbasic self1 w (n - r)) (E.Kn self1)) /\
      canonical self' A /\
      descending w (E.Q self') 0 r /\
      descending w (E.Q self') r n.
Proof.
  intros self A w Hcan Hw r n.
  pose proof Hcan as [Hwf _].
  destruct Hwf as (_ & Hlc & _).
  (* the greedy pass *)
  assert (Hgreedy : exists self1,
             greedy_pass self w = Some self1 /\ canonical self1 A /\
             E.lu self1 = E.lu self /\
             E.Kb self1 = E.Kb self /\ E.Kn self1 = E.Kn self).
  { unfold greedy_pass. rewrite Hlc. fold r. fold n.
    destruct (0 <? n - r).
    - apply greedy_loop_canonical; [ exact Hcan | ].
      intros i Hi. apply in_seq in Hi. fold r. lia.
    - exists self. split; [ reflexivity | ]. split; [ exact Hcan | ].
      repeat split. }
  destruct Hgreedy as (self1 & Hg & Hcan1 & Hlu1 & HKb1 & HKn1).
  pose proof Hcan1 as [Hwf1 _].
  destruct Hwf1 as (_ & _ & _ & _ & _ & _ & HQ1 & _ & _ & _ & HKb & HKn).
  rewrite Hlu1 in HKb, HKn. fold r in HKb, HKn. fold n in HKn, HQ1.
  assert (HKbL : length (E.Kb self1) = r).
  { rewrite (Permutation_length HKb). apply length_seq. }
  assert (HKnL : length (E.Kn self1) = n - r).
  { rewrite (Permutation_length HKn). apply length_seq. }
  set (Kb' := std_sort (comp_basic self1 w) (E.Kb self1)).
  set (Kn' := std_sort (comp_nonbasic self1 w (n - r)) (E.Kn self1)).
  destruct (std_sort_contract
              (fun x => E.atQ w (E.at_ (E.Q self1) x)) (E.Kb self1))
    as [HpermB HsortB].
  destruct (std_sort_contract
              (fun x => E.atQ w (E.at_ (E.Q self1)
                                   (length (E.Q self1) - (n - r) + x)))
              (E.Kn self1))
    as [HpermN HsortN].
  change (std_sort _ (E.Kb self1)) with Kb' in HpermB, HsortB.
  change (std_sort _ (E.Kn self1)) with Kn' in HpermN, HsortN.
  assert (HKb' : Permutation Kb' (seq 0 r))
    by (eapply Permutation_trans; eassumption).
  assert (HKn' : Permutation Kn' (seq 0 (n - r)))
    by (eapply Permutation_trans; eassumption).
  pose proof (applyOrdering_canonical self1 A Kb' Kn' Hcan1) as Hord.
  cbn zeta in Hord. rewrite Hlu1 in Hord. fold r n in Hord.
  destruct (Hord HKb' HKn') as (Hcan' & _ & HQb & HQn & _ & _).
  exists self1, (E.applyOrdering self1 r (n - r) Kb' Kn').
  split; [ exact Hg | ]. split; [ exact Hcan1 | ].
  split.
  { unfold E.updateWithPriorityWeights.
    rewrite Hw, Hlc. rewrite Nat.eqb_refl. cbn [negb].
    rewrite numBasicVariables_pair. rewrite Hlc. fold r n.
    unfold greedy_pass in Hg. rewrite Hlc in Hg. fold r n in Hg.
    rewrite Hg.
    rewrite (sort_prefix_all std_sort _ (E.Kb self1) r HKbL).
    rewrite (sort_prefix_all std_sort _ (E.Kn self1) (n - r) HKnL).
    reflexivity. }
  split; [ reflexivity | ]. split; [ exact Hcan' | ].
  split.
  - (* the basic variables *)
    intros a b _ Hab Hb.
    rewrite (HQb a) by lia. rewrite (HQb b) by exact Hb.
    apply (StronglySorted_at _ Kb' HsortB a b Hab).
    rewrite (Permutation_length HKb'), length_seq. exact Hb.
  - (* the non-basic variables *)
    intros a b Ha Hab Hb.
    replace a with (r + (a - r)) by lia.
    replace b with (r + (b - r)) by lia.
    rewrite (HQn (a - r)) by lia. rewrite (HQn (b - r)) by lia.
    pose proof (StronglySorted_at _ Kn' HsortN (a - r) (b - r)) as H.
    cbn beta in H. rewrite HQ1 in H.
    replace (n - (n - r)) with r in H
      by (destruct Hcan as [(_ & _ & _ & _ & _ & _ & _ & H1 & H2 & _) _];
          fold r in H1; fold n in H2; lia).
    apply H; [ lia | ].
    rewrite (Permutation_length HKn'), length_seq. lia.
Qed.

(** C5, as amended.  On a canonical form,
    [updateWithPriorityWeights(w)] first performs the greedy pass: for
    each basic row [i] it finds the non-basic column [j] that
    maximizes [|S(i, j)| * w_j] over the columns with [|S(i, j)|] above
    the threshold, and swaps only when that value is strictly larger
    than the weight of the basic variable.  It then sorts, with
    [std::sort], the permutations [Kb] and [Kn] kept from the earlier
    calls by descending weight and permutes [R], [S] and [Q] by them:
    afterwards the basic and the non-basic variables are each ordered
    by descending weight and the canonical form holds; the order of
    variables of equal weight is not specified. *)
Theorem update_orders_by_descending_weight :
  forall self A w,
    canonical self A ->
    length w = cols A ->
    let r := rank_of (E.lu self) in
    let n := cols A in
    (forall s i,
        best_candidate s w (n - r) i
          (fst (E.find_nonbasic_candidate s w (n - r) i))
          (snd (E.find_nonbasic_candidate s w (n - r) i))) /\
    (forall s i rest,
        E.greedy_loop s w (n - r) (i :: rest)
        = let c := E.find_nonbasic_candidate s w (n - r) i in
          if Dbl.ltb (Dbl.Fin (E.atQ w (E.at_ (E.Q s) i))) (snd c)
          then match E.updateWithSwapBasicVariable s i (fst c) with
               | None => None
               | Some s' => E.greedy_loop s' w (n - r) rest
               end
          else E.greedy_loop s w (n - r) rest) /\
    exists self1 self',
      greedy_pass self w = Some self1 /\
      canonical self1 A /\
      E.updateWithPriorityWeights std_sort self w = Some self' /\
      self' = E.applyOrdering self1 r (n - r)
                (std_sort (comp_basic self1 w) (E.Kb self1))
                (std_sort (comp_nonbasic self1 w (n - r)) (E.Kn self1)) /\
      canonical self' A /\
      descending w (E.Q self') 0 r /\
      descending w (E.Q self') r n.
Proof.
  intros self A w Hcan Hw r n.
  split; [ intros s i; apply find_nonbasic_candidate_best | ].
  split; [ intros s i rest; apply greedy_loop_step | ].
  apply update_canonical_descending; assumption.
Qed.

End Update.

(** *** The canonical form after [compute] and after a swap *)

Lemma canonical_within_tolerance :
  forall tol self A,
    (0 <= tol)%Q -> canonical self A -> canonical_within tol self A.
Proof.
  intros tol self A Htol [_ Hid] i j Hi Hj.
  assert (H : (coeff (E.RAQ self A) i j - coeff (E.C self) i j == 0)%Q)
    by (rewrite (Hid i j Hi Hj); ring).
  rewrite H. cbn. exact Htol.
Qed.


End UpdateProofs.

(* ================================================================== *)
(** ** The theorems on the concrete problems *)
(* ================================================================== *)

Module ExampleFacts.

Import Dense EchelonizerSpec Examples.
Local Open Scope nat_scope.

Ltac below1 i H := destruct i as [|i]; [ | exfalso; cbn in H; lia ].
Ltac below2 i H := destruct i as [|[|i]]; [ | | exfalso; cbn in H; lia ].
Ltac below3 i H :=
  destruct i as [|[|[|i]]]; [ | | | exfalso; cbn in H; lia ].

(** *** Insertion sort meets the contract of [std::sort] *)

Lemma insert_sorted_permutation :
  forall comp a l, Permutation (insert_sorted comp a l) (a :: l).
Proof.
  intros comp a l. induction l as [|b l IH]; cbn.
  - apply Permutation_refl.
  - destruct (comp b a).
    + apply perm_trans with (b :: a :: l).
      * apply perm_skip. exact IH.
      * apply perm_swap.
    + apply Permutation_refl.
Qed.

Lemma insertion_sort_permutation :
  forall comp l, Permutation (insertion_sort comp l) l.
Proof.
  intros comp l. induction l as [|a l IH]; cbn.
  - apply perm_nil.
  - apply perm_trans with (a :: insertion_sort comp l).
    + apply insert_sorted_permutation.
    + apply perm_skip. exact IH.
Qed.

Section Keyed.

Variable key : nat -> Q.

Let comp (a b : nat) : bool := Dbl.Qltb (key b) (key a).
Let ordered (a b : nat) : Prop := (key b <= key a)%Q.

Lemma insert_sorted_sorted :
  forall a l,
    StronglySorted ordered l ->
    StronglySorted ordered (insert_sorted comp a l).
Proof.
  intros a l Hs. induction Hs as [|b l Hs IH Hall]; cbn.
  - constructor; constructor.
  - unfold comp at 1. destruct (Dbl.Qltb (key a) (key b)) eqn:Hc.
    + apply DblFacts.Qltb_lt in Hc.
      constructor; [ exact IH | ].
      apply (Permutation_Forall
               (Permutation_sym (insert_sorted_permutation comp a l))).
      constructor; [ | exact Hall ].
      unfold ordered. apply Qlt_le_weak. exact Hc.
    + apply DblFacts.Qltb_ge in Hc.
      constructor.
      * constructor; assumption.
      * constructor; [ exact Hc | ].
        apply (Forall_impl (P := ordered b)); [ | exact Hall ].
        intros c Hbc. unfold ordered in *.
        apply Qle_trans with (key b); assumption.
Qed.

Lemma insertion_sort_sorted :
  forall l, StronglySorted ordered (insertion_sort comp l).
Proof.
  induction l as [|a l IH]; cbn.
  - constructor.
  - apply insert_sorted_sorted. exact IH.
Qed.

End Keyed.

Lemma insertion_sort_contract : sort_contract insertion_sort.
Proof.
  intros key l. split.
  - apply insertion_sort_permutation.
  - apply insertion_sort_sorted.
Qed.

(** *** The factorizations of the examples *)

Lemma exact_factorization_tiny : exact_factorization A_tiny lu_tiny.
Proof.
  repeat split; try reflexivity.
  - vm_compute. discriminate.
  - intros i j Hi Hj. below1 i Hi. below1 j Hj. vm_compute. reflexivity.
Qed.

Lemma exact_factorization_wide : exact_factorization A_wide lu_wide.
Proof.
  repeat split; try reflexivity.
  - vm_compute. discriminate.
  - intros i j Hi Hj. below2 i Hi; below3 j Hj; vm_compute; reflexivity.
Qed.

Lemma rank_exact_wide : rank_exact lu_wide.
Proof.
  split.
  - intros i Hi. change (rank_of lu_wide) with 2 in Hi.
    below2 i Hi; vm_compute; discriminate.
  - intros i j Hr Hi Hij Hj. change (rank_of lu_wide) with 2 in Hr.
    cbn in Hi. lia.
Qed.

Lemma canonical_wide : canonical ech_wide A_wide.
Proof.
  apply (ComputeProofs.compute_canonical (fun _ => lu_wide)
           E.Impl_default A_wide ech_wide).
  - exact exact_factorization_wide.
  - exact rank_exact_wide.
  - reflexivity.
Qed.

End ExampleFacts.

Module Instances.

Import Dense EchelonizerSpec Examples ExampleFacts.
Local Open Scope nat_scope.

(** *** Echelonizer *)



(** The update of the [2 x 3] example with the weights [(5, 1, 3)]. *)
Lemma update_orders_wide_matrix :
  exists self1 self',
    greedy_pass ech_wide [5; 1; 3]%Q = Some self1 /\
    canonical self1 A_wide /\
    E.updateWithPriorityWeights insertion_sort ech_wide [5; 1; 3]%Q
      = Some self' /\
    self' =
      E.applyOrdering self1 2 1
        (insertion_sort (comp_basic self1 [5; 1; 3]%Q) (E.Kb self1))
        (insertion_sort (comp_nonbasic self1 [5; 1; 3]%Q 1) (E.Kn self1)) /\
    canonical self' A_wide /\
    descending [5; 1; 3]%Q (E.Q self') 0 2 /\
    descending [5; 1; 3]%Q (E.Q self') 2 3.
Proof.
  apply (UpdateProofs.update_orders_by_descending_weight
           insertion_sort insertion_sort_contract ech_wide A_wide
           [5; 1; 3]%Q).
  - exact canonical_wide.
  - reflexivity.
Defined.

(** Two updates of the identity: the weights [(1, 2)] order the
    variables as [(1, 0)] and leave [Kb = (1, 0)]; the equal weights
    [(5, 5)] then order them as [(0, 1)], although the sort is a stable
    one, where a stable sort of the variables keeps [(1, 0)]. *)
Lemma update_twice_reorders_equal_weights :
  sort_contract insertion_sort /\
  E.compute (fun _ => lu_id) E.Impl_default A_id = Some ech_id /\
  E.updateWithPriorityWeights insertion_sort ech_id [1; 2]%Q
    = Some ech_id_updated /\
  E.Q ech_id_updated = [1; 0] /\
  exists s',
    E.updateWithPriorityWeights insertion_sort ech_id_updated [5; 5]%Q
      = Some s' /\
    E.Q s' = [0; 1] /\
    stable_order [5; 5]%Q 2 (E.Q ech_id_updated) = [1; 0].
Proof.
  split; [ exact insertion_sort_contract | ].
  split; [ reflexivity | ].
  split; [ reflexivity | ].
  split; [ reflexivity | ].
  eexists. split; [ reflexivity | ].
  split; reflexivity.
Qed.

(** *** The rank *)

(** [LU::decompose] keeps the pivot [10^-20]: its threshold stays the
    relative one, where the rule with the absolute threshold 1 drops
    it. *)
Lemma decompose_keeps_tiny_pivot :
  LU.decompose partialPivLU_trivial D_tiny = Some lu_of_tiny /\
  LU.rank lu_of_tiny = 1 /\
  RankSpec.claimed_rank
    (map Dbl.abs (diagonal (LU.matrixLU (LU.lu lu_of_tiny)))) 1 1 = 0.
Proof.
  split; [ reflexivity | ].
  split; reflexivity.
Qed.

(** The rank of [D_tiny] by [LU::decompose], the rank of [lu_tiny] with
    the absolute threshold, and the threshold [compute] stores for
    [A_wide]. *)
Lemma rank_of_tiny_and_wide :
  (let D := map Dbl.abs
              (diagonal (LU.matrixLU (partialPivLU_trivial D_tiny))) in
   rows D_tiny = cols D_tiny /\
   LU.lu lu_of_tiny = partialPivLU_trivial D_tiny /\
   RankSpec.trailing_rank D
     (Dbl.mul (Dbl.mul (LU.maxCoeff D) (Dbl.Fin Dbl.epsilon))
        (Dbl.Fin (inject_Z (Z.of_nat (cols D_tiny)))))
     (cols D_tiny) (LU.rank lu_of_tiny)) /\
  E.lu_rank (E.lu_setThreshold lu_tiny 1) = 0 /\
  (E.lu ech_wide = lu_wide /\
   E.threshold ech_wide =
     (Qabs (E.maxPivot lu_wide) * E.lu_threshold lu_wide
      * inject_Z (Z.of_nat (Nat.max (rows A_wide) (cols A_wide))))%Q).
Proof.
  pose proof (RankProofs.rank_by_thresholded_inspection (fun _ => lu_wide))
    as (Hlu & _ & Habs & Hcomp).
  split; [ | split ].
  - apply (Hlu partialPivLU_trivial D_tiny lu_of_tiny). reflexivity.
  - apply (Habs lu_tiny). intros i Hi. below1 i Hi.
    vm_compute. discriminate.
  - apply (Hcomp E.Impl_default A_wide ech_wide). reflexivity.
Defined.

(** *** LU and Stepper *)

(** A system of rank 1 with two rows: the second row of the solution is
    NaN; and a step with a NaN in [dy]: it becomes a zero. *)
Lemma nan_rows_of_rank_one_system :
  (rows solved_two = 2 /\ cols solved_two = 1 /\
   forall i j, 1 <= i -> i < 2 -> coeff solved_two i j = Dbl.NaN) /\
  (StepperSpec.nan_replaced (fst (fst (fst raw_two)))
     (snd (fst stepped_two)) /\
   StepperSpec.nan_replaced (snd (fst (fst raw_two))) (snd stepped_two)).
Proof.
  split.
  - apply (proj1 (StepperProofs.nan_rows_give_zero_steps
                    permute_identity solve_identity solve_diagonal
                    spsolver_nan)
             lu_rank_one rhs_two solved_two).
    reflexivity.
  - apply (proj2 (StepperProofs.nan_rows_give_zero_steps
                    permute_identity solve_identity solve_diagonal
                    spsolver_nan)
             stepper_two solve_args_two (fst (fst stepped_two))
             (snd (fst stepped_two)) (snd stepped_two)).
    reflexivity.
Defined.

(** The sensitivities of two variables, the first stable and the second
    unstable, with respect to one parameter. *)
Lemma sensitivities_of_two_variables :
  (forall i, In i [1] -> i < 2 ->
     coeff (fst (fst sens_two)) i 0 = Dbl.Fin 0 /\
     coeff (snd sens_two) i 0 =
       Dbl.add (coeff (Stepper.dgdp sens_args_two) i 0)
         (Stepper.trmul_coeff (Stepper.W stepper_two)
            (snd (fst sens_two)) i 0)) /\
  (forall i, In i [0] -> coeff (snd sens_two) i 0 = Dbl.Fin 0).
Proof.
  apply (@StepperProofs.sensitivities_unstable_and_stable unit
           spsolver_unstable_zero stepper_two sens_args_two
           (fst (fst sens_two)) (snd (fst sens_two)) (snd sens_two)).
  - reflexivity.
  - intros a b i Hin Hlt. cbn in Hin. destruct Hin as [<- | []].
    cbn. apply DblFacts.get_set_same. exact Hlt.
  - intros i [<- | []] [H | []]. discriminate H.
  - cbn. lia.
Defined.

(** *** BasicSolver and NewtonStep *)


(** The solver of a problem without variables. *)
Lemma solve_no_variable :
  exists s',
    BasicSolver.solve stepper_decompose stepper_solve
      (solver_of problem_none) params_none state_none
      = Some (s', state_none, BasicSolver.result s') /\
    BasicSolver.succeeded (BasicSolver.result s') = true /\
    BasicSolver.iterations (BasicSolver.result s') = 0 /\
    BasicSolver.evals s' = BasicSolver.evals (solver_of problem_none) /\
    BasicSolver.evals s' = [].
Proof.
  apply (@BasicSolverProofs.solve_zero_variables unit stepper_decompose
           stepper_solve problem_none (solver_of problem_none)
           params_none state_none).
  - apply (BasicSolverSpec.reach_new stepper_decompose stepper_solve
             problem_none tt options_default).
    reflexivity.
  - reflexivity.
Defined.


(** *** ResidualFunction *)

(** The callback [h] fails: [v] is not called and nothing cached is
    updated, with and without the Jacobian evaluations. *)
Lemma update_aborts_at_failing_h :
  (ResidualFunctionSpec.same_cached_state rf_impl (snd (rf_after true)) /\
   ResidualFunctionSpec.aborted_at (fst (rf_after true)) rf_impl
     (snd (rf_after true))) /\
  (ResidualFunctionSpec.same_cached_state rf_impl (snd (rf_after false)) /\
   ResidualFunctionSpec.aborted_at (fst (rf_after false)) rf_impl
     (snd (rf_after false))).
Proof.
  split.
  - apply (ResidualFunctionProofs.update_aborts_on_failed_callback
             rf_jb rf_RWQ_update rf_asMatrixViewW rf_Stability2_update
             rf_Stability2_status rf_CanonicalMatrix_update
             rf_ResidualVector_update true rf_status0 rf_impl rf_problem
             rf_u); reflexivity.
  - apply (ResidualFunctionProofs.update_aborts_on_failed_callback
             rf_jb rf_RWQ_update rf_asMatrixViewW rf_Stability2_update
             rf_Stability2_status rf_CanonicalMatrix_update
             rf_ResidualVector_update false rf_status0 rf_impl rf_problem
             rf_u); reflexivity.
Defined.

End Instances.

(* ================================================================== *)
(** ** BasicSolver: evaluations, fixed variables and the returned state *)
(* ================================================================== *)

Module BasicSolverFacts.

Import Dbl Dense BasicSolver BasicSolverSpec BasicSolverUse DblFacts.
Import BoundsProofs.
Local Open Scope nat_scope.

Lemma count_objective_app :
  forall l l',
    count_objective (l ++ l') = count_objective l + count_objective l'.
Proof.
  intros l l'. unfold count_objective.
  rewrite filter_app, length_app. reflexivity.
Qed.

Lemma count_constraint_app :
  forall l l',
    count_constraint (l ++ l') = count_constraint l + count_constraint l'.
Proof.
  intros l l'. unfold count_constraint.
  rewrite filter_app, length_app. reflexivity.
Qed.

(** [v(idx) = vals] with distinct indices within the vector stores
    every value at its index. *)
Lemma assignAt_fixed_at :
  forall idx vals v,
    NoDup idx ->
    length vals = length idx ->
    (forall i, In i idx -> i < length v) ->
    fixed_at idx vals (assignAt v idx vals).
Proof.
  unfold fixed_at, assignAt.
  induction idx as [|j idx IH]; intros vals v Hnd Hlen Hin k Hk.
  - cbn in Hk. lia.
  - destruct vals as [|a vals]; [ discriminate Hlen | ].
    cbn [combine fold_left fst snd].
    inversion Hnd as [|? ? Hnotin Hnd']; subst.
    destruct k as [|k].
    + cbn [nth]. unfold get at 2. cbn [nth].
      change (fold_left (fun u ia => set u (fst ia) (snd ia))
                (combine idx vals) (set v j a))
        with (assignAt (set v j a) idx vals).
      rewrite get_assignAt_other by exact Hnotin.
      apply get_set_same. apply Hin. left. reflexivity.
    + cbn [nth]. unfold get at 2. cbn [nth].
      apply (IH vals (set v j a)).
      * exact Hnd'.
      * cbn in Hlen. lia.
      * intros i Hi. rewrite length_set. apply Hin. right. exact Hi.
      * cbn in Hk. lia.
Qed.

Section Proofs.

Variable ActiveStepper : Type.
Variable stepper_decompose :
  ActiveStepper -> Vector -> Vector -> Matrix double -> Vector ->
  Matrix double -> ActiveStepper.
Variable stepper_solve :
  ActiveStepper -> Vector -> Vector -> Vector -> Vector -> Vector ->
  ActiveStepper * (Vector * Vector * Vector * Vector * Vector).

Local Abbreviation Impl := (Impl ActiveStepper).
Local Abbreviation solve' := (solve stepper_decompose stepper_solve).
Local Abbreviation solve_loop' :=
  (solve_loop stepper_decompose stepper_solve).
Local Abbreviation initialize' :=
  (initialize stepper_decompose stepper_solve).
Local Abbreviation loop_body' :=
  (loop_body stepper_decompose stepper_solve).
Local Abbreviation iterate' := (iterate stepper_decompose stepper_solve).

(** *** One pass of the loop *)

(** What a pass of the loop writes. *)
Lemma loop_body_fields :
  forall params (s : Impl) state s1 state1,
    loop_body' params s state = Some (s1, state1) ->
    state1 = snd (applyNewtonStepping s params state) /\
    succeeded (result s1) = converged s /\
    iterations (result s1) = S (iterations (result s)) /\
    evals s1 = evals s ++ [EvalObjective (state_x state1)] /\
    problem s1 = problem s /\ options s1 = options s /\
    n s1 = n s /\ mh s1 = mh s /\
    xlower s1 = xlower s /\ xupper s1 = xupper s.
Proof.
  intros params s state s1 state1 H. unfold loop_body in H.
  pose proof (BasicSolverProofs.converged_applyNewtonStepping
                s params state) as Hc.
  assert (Hst : let r := applyNewtonStepping s params state in
                result (fst r) = result s /\ evals (fst r) = evals s /\
                problem (fst r) = problem s /\
                options (fst r) = options s /\ n (fst r) = n s /\
                mh (fst r) = mh s /\ xlower (fst r) = xlower s /\
                xupper (fst r) = xupper s).
  { unfold applyNewtonStepping.
    destruct (step (options s)); cbn; repeat split. }
  destruct (applyNewtonStepping s params state) as [sa statea].
  cbn [fst snd] in *.
  destruct Hst as (Hr & He & Hp & Ho & Hn & Hm & Hl & Hu).
  unfold evaluateObjectiveFunction in H.
  cbn [set_succeeded with_result problem] in H.
  destruct (objective (problem sa)) as [obj|]; [ | discriminate H ].
  unfold computeNewtonStep in H.
  destruct (stepper_solve _ _ _ _ _ _) as [st2 [[[[dx' dy'] rx'] ry'] z']].
  inversion H; subst s1 state1; clear H. cbn.
  rewrite Hr, He, Hp, Ho, Hn, Hm, Hl, Hu.
  repeat split. exact Hc.
Qed.

(** The iterate after one more pass. *)
Lemma iterate_snoc :
  forall params k (s : Impl) state sk statek s1 state1,
    iterate' k params s state = Some (sk, statek) ->
    loop_body' params sk statek = Some (s1, state1) ->
    iterate' (S k) params s state = Some (s1, state1).
Proof.
  intros params k.
  induction k as [|k IH]; intros s state sk statek s1 state1 Hk Hb.
  - cbn in Hk. inversion Hk; subst. cbn [iterate]. rewrite Hb.
    reflexivity.
  - cbn [iterate] in Hk.
    destruct (loop_body' params s state) as [[s2 state2]|] eqn:E;
      [ | discriminate Hk ].
    change (iterate' (S (S k)) params s state)
      with (match loop_body' params s state with
            | None => None
            | Some (sa, statea) => iterate' (S k) params sa statea
            end).
    rewrite E. eapply IH; eassumption.
Qed.

(** *** The loop *)

(** A property [P] kept by every pass holds when the loop is left at
    the iteration cap, and gives [Qc] when it is left by the
    convergence test. *)
Lemma solve_loop_invariant :
  forall (P : Impl -> BasicState -> Prop)
         (R : Impl -> BasicState -> Prop) maxiters params,
    (forall s state, P s state -> succeeded (result s) = false ->
                     R s state) ->
    (forall s state,
        P s state -> converged s = true ->
        R (set_succeeded (fst (applyNewtonStepping s params state)) true)
          (snd (applyNewtonStepping s params state))) ->
    (forall s state s1 state1,
        P s state -> converged s = false ->
        loop_body' params s state = Some (s1, state1) ->
        P s1 state1) ->
    forall fuel (s : Impl) state s' state',
      P s state ->
      succeeded (result s) = false ->
      solve_loop' fuel maxiters params s state = Some (s', state') ->
      R s' state'.
Proof.
  intros P R maxiters params Hcap Hconv Hpass.
  induction fuel as [|fuel IH]; intros s state s' state' HP Hs Hloop.
  - discriminate Hloop.
  - destruct (le_lt_dec (iterations (result s)) maxiters) as [Hle|Hgt].
    + rewrite BasicSolverProofs.solve_loop_enter in Hloop
        by assumption.
      destruct (converged s) eqn:Ec.
      * inversion Hloop; subst. apply Hconv; assumption.
      * destruct (loop_body' params s state) as [[s1 state1]|] eqn:Eb;
          [ | discriminate Hloop ].
        apply (IH s1 state1 s' state').
        -- eapply Hpass; eassumption.
        -- destruct (loop_body_fields _ _ _ _ _ Eb) as (_ & H1 & _).
           congruence.
        -- exact Hloop.
    + rewrite BasicSolverProofs.solve_loop_leave in Hloop by exact Hgt.
      inversion Hloop; subst. apply Hcap; assumption.
Qed.

(** What [initialize] writes. *)
Lemma initialize_fields :
  forall (s : Impl) params state s0 state0,
    initialize' s params state = Some (s0, state0) ->
    let il := ilower (problem s) in
    let iu := iupper (problem s) in
    let xl := assignAt (xlower s) il (params_xlower params) in
    let xu := assignAt (xupper s) iu (params_xupper params) in
    length (state_x state) = n s /\
    xlower s0 = xl /\ xupper s0 = xu /\
    state_x state0
      = assignAt (clampAt min (clampAt max (state_x state) il xl) iu xu)
          (ifixed (problem s)) (params_xfixed params) /\
    state_y state0 = state_y state /\
    evals s0
      = evals s ++ [EvalObjective (state_x state0)]
        ++ (if mh s =? 0 then []
            else [EvalConstraint (state_x state0)]) /\
    result s0
      = mkResult (succeeded (result s)) (iterations (result s))
          (error (result s0)) (error_optimality (result s0))
          (error_feasibility (result s0)) /\
    problem s0 = problem s /\ options s0 = options s /\
    n s0 = n s /\ mh s0 = mh s.
Proof.
  intros s params state s0 state0 Hinit il iu xl xu.
  unfold initialize in Hinit.
  fold il in Hinit. fold iu in Hinit.
  cbn [with_bounds problem xlower xupper n m] in Hinit.
  fold xl in Hinit. fold xu in Hinit.
  destruct (Nat.eqb_spec (length (state_x state)) (n s)) as [Hx|Hx];
    cbn [negb] in Hinit; [ | discriminate Hinit ].
  destruct (length (state_y state) =? m s); cbn [negb] in Hinit;
    [ | discriminate Hinit ].
  unfold evaluateObjectiveFunction in Hinit.
  cbn [with_bounds problem] in Hinit.
  destruct (objective (problem s)) as [obj|]; [ | discriminate Hinit ].
  unfold evaluateConstraintFunction in Hinit.
  cbn [with_bounds with_objective problem mh state_x] in Hinit.
  destruct (mh s =? 0) eqn:Emh.
  - destruct (isfinite _ && forallb isfinite _ && allFiniteM _);
      cbn [negb] in Hinit; [ | discriminate Hinit ].
    unfold computeNewtonStep in Hinit.
    destruct (stepper_solve _ _ _ _ _ _)
      as [st2 [[[[dx' dy'] rx'] ry'] z']].
    inversion Hinit; subst s0 state0; clear Hinit. cbn.
    repeat split; assumption.
  - destruct (constraints_h (problem s)) as [ch|];
      [ | discriminate Hinit ].
    destruct (isfinite _ && forallb isfinite _ && allFiniteM _);
      cbn [negb] in Hinit; [ | discriminate Hinit ].
    unfold computeNewtonStep in Hinit.
    destruct (stepper_solve _ _ _ _ _ _)
      as [st2 [[[[dx' dy'] rx'] ry'] z']].
    inversion Hinit; subst s0 state0; clear Hinit. cbn.
    repeat split; try assumption.
    rewrite <- app_assoc. reflexivity.
Qed.

(** [solve] on a problem with variables is [initialize] followed by
    the loop. *)
Lemma solve_unfold :
  forall (s : Impl) params state s' state' res,
    n s <> 0 ->
    solve' s params state = Some (s', state', res) ->
    exists s0 state0,
      initialize' (set_succeeded s false) params state
        = Some (s0, state0) /\
      solve_loop' (S (max_iterations (options s)))
        (max_iterations (options s)) params (set_iterations s0 1) state0
        = Some (s', state') /\
      res = result s'.
Proof.
  intros s params state s' state' res Hn H. unfold solve in H.
  destruct (Nat.eqb_spec (n s) 0) as [E|_]; [ contradiction | ].
  destruct (initialize' (set_succeeded s false) params state)
    as [[s0 state0]|]; [ | discriminate H ].
  destruct (solve_loop' _ _ params (set_iterations s0 1) state0)
    as [[s4 state4]|] eqn:El; [ | discriminate H ].
  inversion H; subst. exists s0, state0. repeat split. exact El.
Qed.

(** What the Newton stepping leaves untouched. *)
Lemma applyNewtonStepping_fields :
  forall (s : Impl) params state,
    let r := applyNewtonStepping s params state in
    result (fst r) = result s /\ evals (fst r) = evals s /\
    newton (fst r) = newton s /\ problem (fst r) = problem s /\
    options (fst r) = options s /\ n (fst r) = n s.
Proof.
  intros s params state. unfold applyNewtonStepping.
  destruct (step (options s)); cbn; repeat split.
Qed.

(** *** The evaluations of the callbacks *)

(** X1.  [solve] on a problem with variables evaluates the objective
    function once in [initialize] and once in every pass of the loop
    that does not leave it, [result.iterations] times altogether; the
    constraint function is evaluated once, in [initialize], when the
    problem has constraints [h], and never in the loop. *)
Theorem solve_evaluation_counts :
  forall (s : Impl) params state s' state' res,
    n s <> 0 ->
    solve' s params state = Some (s', state', res) ->
    count_objective (evals s')
      = count_objective (evals s) + iterations res /\
    count_constraint (evals s')
      = count_constraint (evals s) + (if mh s =? 0 then 0 else 1).
Proof.
  intros s params state s' state' res Hn Hsolve.
  destruct (solve_unfold s params state s' state' res Hn Hsolve)
    as (s0 & state0 & Hinit & Hloop & Hres).
  subst res.
  pose proof (initialize_fields _ _ _ _ _ Hinit)
    as (_ & _ & _ & _ & _ & Hev & Hr0 & _ & _ & _ & Hmh).
  cbn [set_succeeded with_result evals result succeeded iterations mh]
    in Hev, Hr0, Hmh.
  set (c := count_objective (evals s)).
  set (d := count_constraint (evals s) + (if mh s =? 0 then 0 else 1)).
  apply (solve_loop_invariant
           (fun (a : Impl) (_ : BasicState) =>
              count_objective (evals a) = c + iterations (result a) /\
              count_constraint (evals a) = d)
           (fun (a : Impl) (_ : BasicState) =>
              count_objective (evals a) = c + iterations (result a) /\
              count_constraint (evals a) = d)
           (max_iterations (options s)) params)
    with (fuel := S (max_iterations (options s)))
         (s := set_iterations s0 1) (state := state0) (state' := state').
  - intros a st H _. exact H.
  - intros a st (H1 & H2) _.
    destruct (applyNewtonStepping_fields a params st)
      as (Hr & He & _).
    cbn [set_succeeded with_result evals result iterations].
    rewrite Hr, He. split; assumption.
  - intros a st a1 st1 (H1 & H2) _ Hb.
    destruct (loop_body_fields _ _ _ _ _ Hb)
      as (_ & _ & Hit & Hev1 & _).
    rewrite Hev1, Hit, count_objective_app, count_constraint_app.
    cbn. split; lia.
  - cbn [set_iterations with_result evals result iterations].
    rewrite Hev, !count_objective_app, !count_constraint_app.
    fold c. unfold d. destruct (mh s =? 0); cbn; split; lia.
  - cbn. rewrite Hr0. reflexivity.
  - exact Hloop.
Qed.

(** *** The state a successful call returns *)


(** X3.  In a step mode other than [Aggressive] the Newton stepping
    is empty: [solve] returns the state [initialize] left, whatever
    the number of iterations. *)
Theorem solve_without_aggressive_step_keeps_state :
  forall (s : Impl) params state s0 state0 s' state' res,
    n s <> 0 ->
    step (options s) <> Aggressive ->
    initialize' (set_succeeded s false) params state
      = Some (s0, state0) ->
    solve' s params state = Some (s', state', res) ->
    state' = state0.
Proof.
  intros s params state s0 state0 s' state' res Hn Hstep Hinit Hsolve.
  destruct (solve_unfold s params state s' state' res Hn Hsolve)
    as (s0' & state0' & Hinit' & Hloop & Hres).
  rewrite Hinit in Hinit'. inversion Hinit'; subst s0' state0'.
  pose proof (initialize_fields _ _ _ _ _ Hinit)
    as (_ & _ & _ & _ & _ & _ & Hr0 & _ & Ho & _).
  cbn [set_succeeded with_result result succeeded options] in Hr0, Ho.
  assert (Hkeep : forall (a : Impl) st,
             options a = options s ->
             snd (applyNewtonStepping a params st) = st).
  { intros a st Hoa. unfold applyNewtonStepping. rewrite Hoa.
    destruct (step (options s)) eqn:E;
      [ reflexivity | exfalso; apply Hstep; reflexivity ]. }
  apply (solve_loop_invariant
           (fun (a : Impl) (st : BasicState) =>
              st = state0 /\ options a = options s)
           (fun (_ : Impl) (st : BasicState) => st = state0)
           (max_iterations (options s)) params)
    with (fuel := S (max_iterations (options s)))
         (s := set_iterations s0 1) (state := state0) (s' := s').
  - intros a st (H & _) _. exact H.
  - intros a st (H & Hoa) _. rewrite Hkeep by exact Hoa. exact H.
  - intros a st a1 st1 (H & Hoa) _ Hb.
    destruct (loop_body_fields _ _ _ _ _ Hb)
      as (Hst & _ & _ & _ & _ & Ho1 & _).
    rewrite Hst, Hkeep by exact Hoa. split; congruence.
  - split; [ reflexivity | exact Ho ].
  - cbn. rewrite Hr0. reflexivity.
  - exact Hloop.
Qed.

(** *** The starting point *)

(** X4.  [initialize] projects the starting point onto the bounds
    before the first evaluation: the components that violate a bound
    are clamped to it, the others are kept, the fixed variables
    receive their values, and [y] is not touched. *)
Theorem initialize_projects_starting_point :
  forall (s : Impl) params state s0 state0,
    initialize' s params state = Some (s0, state0) ->
    let x := state_x state in
    let x0 := state_x state0 in
    (forall i, i < n s -> isNaN (get x i) = false) ->
    (forall i, i < n s ->
               leb (get (xlower s0) i) (get (xupper s0) i) = true) ->
    (forall i, i < n s -> ~ In i (ilower (problem s)) ->
               get (xlower s0) i = NInf) ->
    (forall i, i < n s -> ~ In i (iupper (problem s)) ->
               get (xupper s0) i = PInf) ->
    (forall i a,
        In (i, a) (combine (ifixed (problem s)) (params_xfixed params)) ->
        leb (get (xlower s0) i) a = true /\
        leb a (get (xupper s0) i) = true) ->
    length x0 = n s /\
    within_bounds (xlower s0) (xupper s0) x0 /\
    (forall i, i < n s -> ~ In i (ifixed (problem s)) ->
               projected (xlower s0) (xupper s0) x x0 i) /\
    state_y state0 = state_y state /\
    evals s0 = evals s ++ [EvalObjective x0]
               ++ (if mh s =? 0 then [] else [EvalConstraint x0]).
Proof.
  intros s params state s0 state0 Hinit x x0 Hnum Hcons Hl Hu Hfix.
  pose proof (initialize_fields _ _ _ _ _ Hinit)
    as (Hx & Hxl & Hxu & Hx0 & Hy & Hev & _).
  fold x in Hx, Hx0. fold x0 in Hx0, Hev.
  rewrite <- Hxl, <- Hxu in Hx0.
  assert (Hlen : length x0 = n s).
  { rewrite Hx0, length_assignAt, !length_clampAt. exact Hx. }
  assert (Hclamp : forall i, i < n s ->
            get (clampAt min (clampAt max x (ilower (problem s))
                                (xlower s0))
                   (iupper (problem s)) (xupper s0)) i
            = min (max (get x i) (get (xlower s0) i))
                  (get (xupper s0) i)).
  { intros i Hi.
    apply get_clamped; [ lia | apply Hl | apply Hu ]; exact Hi. }
  split; [ exact Hlen | ]. split; [ | split; [ | split ] ].
  - intros i Hi. rewrite Hlen in Hi. rewrite Hx0.
    destruct (get_assignAt (ifixed (problem s)) (params_xfixed params)
                (clampAt min (clampAt max x (ilower (problem s))
                                (xlower s0))
                   (iupper (problem s)) (xupper s0)) i)
      as [(a & Hin & Hget)|Hget]; rewrite Hget.
    + exact (Hfix i a Hin).
    + rewrite Hclamp by exact Hi.
      apply clamp_within; [ apply Hnum | apply Hcons ]; exact Hi.
  - intros i Hi Hnfix. unfold projected. rewrite Hx0.
    rewrite get_assignAt_other by exact Hnfix.
    rewrite Hclamp by exact Hi.
    apply clamp_cases. apply Hcons. exact Hi.
  - exact Hy.
  - exact Hev.
Qed.

End Proofs.

Section FixedVariables.

Variable ActiveStepper : Type.
Variable stepper_decompose :
  ActiveStepper -> Vector -> Vector -> Matrix double -> Vector ->
  Matrix double -> ActiveStepper.
Variable stepper_solve :
  ActiveStepper -> Vector -> Vector -> Vector -> Vector -> Vector ->
  ActiveStepper * (Vector * Vector * Vector * Vector * Vector).

(** The stepper writes a step [dx] with one component per variable. *)
Hypothesis stepper_solve_size :
  forall st x y b h g,
    length (fst (fst (fst (fst (snd (stepper_solve st x y b h g))))))
    = length x.

Local Abbreviation Impl := (Impl ActiveStepper).
Local Abbreviation solve' := (solve stepper_decompose stepper_solve).
Local Abbreviation initialize' :=
  (initialize stepper_decompose stepper_solve).
Local Abbreviation loop_body' :=
  (loop_body stepper_decompose stepper_solve).

Lemma computeNewtonStep_dx :
  forall (s : Impl) params state,
    length (dx (newton (computeNewtonStep stepper_decompose
                          stepper_solve s params state)))
    = length (state_x state).
Proof.
  intros s params state. unfold computeNewtonStep.
  pose proof (stepper_solve_size
                (stepper_decompose (stepper s) (state_x state)
                   (state_y state) (J s) (g s) (H s))
                (state_x state) (state_y state) (params_b params)
                (h s) (g s)) as Hsize.
  destruct (stepper_solve _ _ _ _ _ _)
    as [st2 [[[[dx' dy'] rx'] ry'] z']].
  cbn in *. exact Hsize.
Qed.

Lemma loop_body_dx :
  forall params (s : Impl) state s1 state1,
    loop_body' params s state = Some (s1, state1) ->
    length (dx (newton s1)) = length (state_x state1).
Proof.
  intros params s state s1 state1 H. unfold loop_body in H.
  destruct (applyNewtonStepping s params state) as [sa statea].
  destruct (evaluateObjectiveFunction _ statea) as [s3|];
    [ | discriminate H ].
  inversion H; subst s1 state1; clear H.
  cbn [set_iterations updateResultErrors with_result newton].
  apply computeNewtonStep_dx.
Qed.

Lemma initialize_dx :
  forall (s : Impl) params state s0 state0,
    initialize' s params state = Some (s0, state0) ->
    length (dx (newton s0)) = length (state_x state0).
Proof.
  intros s params state s0 state0 H. unfold initialize in H.
  destruct (negb (length (state_x state) =? _)); [ discriminate H | ].
  destruct (negb (length (state_y state) =? _)); [ discriminate H | ].
  destruct (evaluateObjectiveFunction _ _) as [s2|];
    [ | discriminate H ].
  destruct (evaluateConstraintFunction _ _) as [s3|];
    [ | discriminate H ].
  destruct (negb _); [ discriminate H | ].
  inversion H; subst s0 state0; clear H.
  cbn [updateResultErrors with_result newton].
  apply computeNewtonStep_dx.
Qed.

(** The Newton stepping stores the fixed values. *)
Lemma applyNewtonStepping_fixed :
  forall (s : Impl) params state,
    let ifx := ifixed (problem s) in
    let xfx := params_xfixed params in
    NoDup ifx -> length xfx = length ifx ->
    (forall i, In i ifx -> i < n s) ->
    fixed_at ifx xfx (state_x state) ->
    length (state_x state) = n s ->
    length (dx (newton s)) = n s ->
    let state1 := snd (applyNewtonStepping s params state) in
    fixed_at ifx xfx (state_x state1) /\
    length (state_x state1) = n s.
Proof.
  intros s params state ifx xfx Hnd Hlen Hin Hfix Hx Hdx.
  unfold applyNewtonStepping.
  destruct (step (options s)); cbn.
  - split; assumption.
  - fold ifx. fold xfx.
    set (xt := clampAt min _ _ _).
    assert (Hxt : length xt = n s).
    { unfold xt. rewrite !length_clampAt, length_zipWith. lia. }
    split.
    + apply assignAt_fixed_at; [ exact Hnd | exact Hlen | ].
      intros i Hi. rewrite Hxt. apply Hin. exact Hi.
    + rewrite length_assignAt. exact Hxt.
Qed.

(** X5.  The fixed variables hold their values in the state [solve]
    returns, in every step mode: with distinct indices [ifixed] below
    [n] and one value per index, [x(ifixed) = xfixed] on return. *)
Theorem solve_keeps_fixed_variables :
  forall (s : Impl) params state s' state' res,
    n s <> 0 ->
    NoDup (ifixed (problem s)) ->
    length (params_xfixed params) = length (ifixed (problem s)) ->
    (forall i, In i (ifixed (problem s)) -> i < n s) ->
    solve' s params state = Some (s', state', res) ->
    fixed_at (ifixed (problem s)) (params_xfixed params)
      (state_x state') /\
    length (state_x state') = n s.
Proof.
  intros s params state s' state' res Hn Hnd Hlen Hin Hsolve.
  destruct (solve_unfold ActiveStepper stepper_decompose stepper_solve s params state s' state' res Hn Hsolve)
    as (s0 & state0 & Hinit & Hloop & Hres).
  pose proof (initialize_fields ActiveStepper stepper_decompose stepper_solve
                _ _ _ _ _ Hinit)
    as (Hx & _ & _ & Hx0 & _ & _ & Hr0 & Hp0 & _ & Hn0 & _).
  cbn [set_succeeded with_result result succeeded problem n xlower
         xupper] in Hx, Hx0, Hr0, Hp0, Hn0.
  pose proof (initialize_dx _ _ _ _ _ Hinit) as Hdx0.
  assert (Hlen0 : length (state_x state0) = n s).
  { rewrite Hx0, length_assignAt, !length_clampAt. exact Hx. }
  set (ifx := ifixed (problem s)) in *.
  set (xfx := params_xfixed params) in *.
  apply (solve_loop_invariant ActiveStepper stepper_decompose
           stepper_solve
           (fun (a : Impl) (st : BasicState) =>
              fixed_at ifx xfx (state_x st) /\
              length (state_x st) = n s /\
              length (dx (newton a)) = n s /\
              problem a = problem s /\ n a = n s)
           (fun (_ : Impl) (st : BasicState) =>
              fixed_at ifx xfx (state_x st) /\
              length (state_x st) = n s)
           (max_iterations (options s)) params)
    with (fuel := S (max_iterations (options s)))
         (s := set_iterations s0 1) (state := state0) (s' := s').
  - intros a st (H1 & H2 & _) _. split; assumption.
  - intros a st (H1 & H2 & H3 & Hp & Hna) _.
    pose proof (applyNewtonStepping_fixed a params st) as Hstep.
    cbn zeta in Hstep. rewrite Hp, Hna in Hstep.
    apply Hstep; assumption.
  - intros a st a1 st1 (H1 & H2 & H3 & Hp & Hna) _ Hb.
    pose proof (loop_body_dx _ _ _ _ _ Hb) as Hdx1.
    destruct (loop_body_fields ActiveStepper stepper_decompose
                stepper_solve _ _ _ _ _ Hb)
      as (Hst & _ & _ & _ & Hp1 & _ & Hn1 & _).
    pose proof (applyNewtonStepping_fixed a params st) as Hstep.
    cbn zeta in Hstep. rewrite Hp, Hna in Hstep.
    destruct (Hstep Hnd Hlen Hin H1 H2 H3) as (Hf1 & Hl1).
    rewrite <- Hst in Hf1, Hl1.
    repeat split; try assumption; congruence.
  - cbn [set_iterations with_result newton problem n].
    split; [ | split; [ | split; [ | split ] ] ].
    + rewrite Hx0. apply assignAt_fixed_at;
        [ exact Hnd | exact Hlen | ].
      intros i Hi. rewrite !length_clampAt, Hx. apply Hin. exact Hi.
    + exact Hlen0.
    + congruence.
    + exact Hp0.
    + exact Hn0.
  - cbn. rewrite Hr0. reflexivity.
  - exact Hloop.
Qed.

End FixedVariables.

End BasicSolverFacts.

(* ================================================================== *)
(** ** BasicSolver: from the constructor to the point returned *)
(* ================================================================== *)

Module SolverBoundsFacts.

Import Dbl Dense BasicSolver BasicSolverSpec DblFacts.
Import BoundsProofs.
Local Open Scope nat_scope.

Lemma add_finite_not_NaN :
  forall a b, isNaN a = false -> isfinite b = true ->
              isNaN (add a b) = false.
Proof.
  intros [| |x|] [| |y|] Ha Hb; cbn in *;
    try discriminate; reflexivity.
Qed.

Lemma forallb_get :
  forall (v : Vector) i,
    forallb isfinite v = true -> i < length v ->
    isfinite (get v i) = true.
Proof.
  intros v i H Hi. rewrite forallb_forall in H.
  apply H. unfold get. apply nth_In. exact Hi.
Qed.

Section Proofs.

Variable ActiveStepper : Type.
Variable stepper_decompose :
  ActiveStepper -> Vector -> Vector -> Matrix double -> Vector ->
  Matrix double -> ActiveStepper.
Variable stepper_solve :
  ActiveStepper -> Vector -> Vector -> Vector -> Vector -> Vector ->
  ActiveStepper * (Vector * Vector * Vector * Vector * Vector).

(** The stepper writes a step [dx] with one finite component per
    variable. *)
Hypothesis stepper_solve_finite :
  forall st x y b h g,
    let dx := fst (fst (fst (fst (snd (stepper_solve st x y b h g))))) in
    length dx = length x /\ forallb isfinite dx = true.

Local Abbreviation Impl := (Impl ActiveStepper).
Local Abbreviation solve' := (solve stepper_decompose stepper_solve).
Local Abbreviation initialize' :=
  (initialize stepper_decompose stepper_solve).
Local Abbreviation loop_body' :=
  (loop_body stepper_decompose stepper_solve).

Lemma computeNewtonStep_finite :
  forall (s : Impl) params state,
    let d := dx (newton (computeNewtonStep stepper_decompose
                           stepper_solve s params state)) in
    length d = length (state_x state) /\ forallb isfinite d = true.
Proof.
  intros s params state. unfold computeNewtonStep.
  pose proof (stepper_solve_finite
                (stepper_decompose (stepper s) (state_x state)
                   (state_y state) (J s) (g s) (H s))
                (state_x state) (state_y state) (params_b params)
                (h s) (g s)) as Hfin.
  destruct (stepper_solve _ _ _ _ _ _)
    as [st2 [[[[dx' dy'] rx'] ry'] z']].
  cbn in *. exact Hfin.
Qed.

Lemma loop_body_finite :
  forall params (s : Impl) state s1 state1,
    loop_body' params s state = Some (s1, state1) ->
    length (dx (newton s1)) = length (state_x state1) /\
    forallb isfinite (dx (newton s1)) = true.
Proof.
  intros params s state s1 state1 H. unfold loop_body in H.
  destruct (applyNewtonStepping s params state) as [sa statea].
  destruct (evaluateObjectiveFunction _ statea) as [s3|];
    [ | discriminate H ].
  inversion H; subst s1 state1; clear H.
  cbn [set_iterations updateResultErrors with_result newton].
  apply computeNewtonStep_finite.
Qed.

Lemma initialize_finite :
  forall (s : Impl) params state s0 state0,
    initialize' s params state = Some (s0, state0) ->
    length (dx (newton s0)) = length (state_x state0) /\
    forallb isfinite (dx (newton s0)) = true.
Proof.
  intros s params state s0 state0 H. unfold initialize in H.
  destruct (negb (length (state_x state) =? _)); [ discriminate H | ].
  destruct (negb (length (state_y state) =? _)); [ discriminate H | ].
  destruct (evaluateObjectiveFunction _ _) as [s2|];
    [ | discriminate H ].
  destruct (evaluateConstraintFunction _ _) as [s3|];
    [ | discriminate H ].
  destruct (negb _); [ discriminate H | ].
  inversion H; subst s0 state0; clear H.
  cbn [updateResultErrors with_result newton].
  apply computeNewtonStep_finite.
Qed.

(** What the constructor leaves. *)
Lemma Impl_new_fields :
  forall p stepper0 options0 (s : Impl),
    Impl_new p stepper0 options0 = Some s ->
    problem s = p /\ options s = options0 /\ n s = dims_x p /\
    xlower s = constants (dims_x p) NInf /\
    xupper s = constants (dims_x p) PInf.
Proof.
  intros p stepper0 options0 s H. unfold Impl_new in H.
  destruct (negb (isSome (objective p))); [ discriminate H | ].
  destruct (negb _); [ discriminate H | ].
  inversion H; subst s. cbn. repeat split.
Qed.

(** The bounds of a variable that is not fixed hold after an
    aggressive stepping from a point within the bounds. *)
Lemma aggressive_step_keeps_bounds :
  forall (a : Impl) params st,
    step (options a) = Aggressive ->
    (forall i, i < n a ->
               leb (get (xlower a) i) (get (xupper a) i) = true) ->
    (forall i, i < n a -> ~ In i (ilower (problem a)) ->
               get (xlower a) i = NInf) ->
    (forall i, i < n a -> ~ In i (iupper (problem a)) ->
               get (xupper a) i = PInf) ->
    length (state_x st) = n a ->
    length (dx (newton a)) = n a ->
    forallb isfinite (dx (newton a)) = true ->
    (forall i, i < n a -> ~ In i (ifixed (problem a)) ->
               leb (get (xlower a) i) (get (state_x st) i) = true /\
               leb (get (state_x st) i) (get (xupper a) i) = true) ->
    let r := applyNewtonStepping a params st in
    xlower (fst r) = xlower a /\ xupper (fst r) = xupper a /\
    length (state_x (snd r)) = n a /\
    (forall i, i < n a -> ~ In i (ifixed (problem a)) ->
               leb (get (xlower a) i) (get (state_x (snd r)) i) = true /\
               leb (get (state_x (snd r)) i) (get (xupper a) i) = true).
Proof.
  intros a params st Hstep Hcons Hl Hu Hx Hdx Hfin Hin.
  unfold applyNewtonStepping. rewrite Hstep.
  cbn [applyNewtonSteppingAggressive fst snd with_trial xlower xupper
         state_x].
  set (t := zipWith add (state_x st) (dx (newton a))).
  assert (Ht : length t = n a).
  { unfold t. rewrite length_zipWith. lia. }
  split; [ reflexivity | ]. split; [ reflexivity | ]. split.
  - rewrite length_assignAt, !length_clampAt. exact Ht.
  - intros i Hi Hnfix.
    rewrite get_assignAt_other by exact Hnfix.
    rewrite get_clamped
      by (try (rewrite Ht); try (apply Hl); try (apply Hu);
          assumption).
    apply clamp_within; [ | apply Hcons; exact Hi ].
    unfold t. rewrite get_zipWith by lia.
    apply add_finite_not_NaN.
    + destruct (Hin i Hi Hnfix) as (H1 & _).
      apply leb_not_NaN in H1. apply H1.
    + apply forallb_get; [ exact Hfin | lia ].
Qed.

(** X18.  From the constructor to the point returned: for a solver
    just built for a problem with variables, in the [Aggressive] step
    mode, with a stepper whose steps are finite, a starting point
    free of NaN and bounds that do not cross, [solve] holds the
    bounds given in [params] at [ilower] and [iupper] (infinite
    elsewhere), and every variable that is not fixed lies within its
    bounds in the state returned, whether or not the calculation
    converged. *)
Theorem solve_returns_point_within_bounds :
  forall p stepper0 options0 (s : Impl) params state s' state' res,
    Impl_new p stepper0 options0 = Some s ->
    dims_x p <> 0 ->
    step options0 = Aggressive ->
    let XL := assignAt (constants (dims_x p) NInf) (ilower p)
                (params_xlower params) in
    let XU := assignAt (constants (dims_x p) PInf) (iupper p)
                (params_xupper params) in
    (forall i, i < dims_x p -> leb (get XL i) (get XU i) = true) ->
    (forall i, i < dims_x p -> isNaN (get (state_x state) i) = false) ->
    solve' s params state = Some (s', state', res) ->
    xlower s' = XL /\ xupper s' = XU /\
    length (state_x state') = dims_x p /\
    (forall i, i < dims_x p -> ~ In i (ifixed p) ->
               leb (get XL i) (get (state_x state') i) = true /\
               leb (get (state_x state') i) (get XU i) = true).
Proof.
  intros p stepper0 options0 s params state s' state' res Hnew Hn
         Hmode XL XU Hcons Hnan Hsolve.
  destruct (Impl_new_fields p stepper0 options0 s Hnew)
    as (Hp & Ho & Hns & Hxl & Hxu).
  assert (Hn' : n s <> 0) by (rewrite Hns; exact Hn).
  destruct (BasicSolverFacts.solve_unfold ActiveStepper
              stepper_decompose stepper_solve s params state s' state'
              res Hn' Hsolve)
    as (s0 & state0 & Hinit & Hloop & Hres).
  pose proof (BasicSolverFacts.initialize_fields ActiveStepper
                stepper_decompose stepper_solve _ _ _ _ _ Hinit)
    as (Hx & Hl0 & Hu0 & Hx0 & _ & _ & Hr0 & Hp0 & Ho0 & Hn0 & _).
  cbn [set_succeeded with_result result succeeded problem n xlower
         xupper options] in Hx, Hl0, Hu0, Hx0, Hr0, Hp0, Ho0, Hn0.
  rewrite Hp, Hxl in Hl0. rewrite Hp, Hxu in Hu0.
  fold XL in Hl0. fold XU in Hu0.
  rewrite Hp, Hxl, Hxu in Hx0. fold XL in Hx0. fold XU in Hx0.
  rewrite Hns in Hx, Hn0. rewrite Hp in Hp0. rewrite Ho in Ho0.
  destruct (initialize_finite _ _ _ _ _ Hinit) as (Hdx0 & Hfin0).
  assert (HL : forall i, i < dims_x p -> ~ In i (ilower p) ->
                         get XL i = NInf).
  { intros i Hi Hni. unfold XL.
    rewrite get_assignAt_other by exact Hni.
    apply get_constants. exact Hi. }
  assert (HU : forall i, i < dims_x p -> ~ In i (iupper p) ->
                         get XU i = PInf).
  { intros i Hi Hni. unfold XU.
    rewrite get_assignAt_other by exact Hni.
    apply get_constants. exact Hi. }
  assert (Hlen0 : length (state_x state0) = dims_x p).
  { rewrite Hx0, length_assignAt, !length_clampAt. exact Hx. }
  assert (Hin0 : forall i, i < dims_x p -> ~ In i (ifixed p) ->
            leb (get XL i) (get (state_x state0) i) = true /\
            leb (get (state_x state0) i) (get XU i) = true).
  { intros i Hi Hnfix. rewrite Hx0.
    rewrite get_assignAt_other by exact Hnfix.
    rewrite get_clamped
      by (try (rewrite Hx); try (apply HL); try (apply HU);
          assumption).
    apply clamp_within; [ apply Hnan | apply Hcons ]; exact Hi. }
  set (Inv := fun (a : Impl) (st : BasicState) =>
                xlower a = XL /\ xupper a = XU /\
                problem a = p /\ options a = options0 /\
                n a = dims_x p /\
                length (state_x st) = dims_x p /\
                length (dx (newton a)) = dims_x p /\
                forallb isfinite (dx (newton a)) = true /\
                (forall i, i < dims_x p -> ~ In i (ifixed p) ->
                   leb (get XL i) (get (state_x st) i) = true /\
                   leb (get (state_x st) i) (get XU i) = true)).
  assert (Hstepping :
            forall a st, Inv a st ->
              let r := applyNewtonStepping a params st in
              xlower (fst r) = XL /\ xupper (fst r) = XU /\
              length (state_x (snd r)) = dims_x p /\
              (forall i, i < dims_x p -> ~ In i (ifixed p) ->
                 leb (get XL i) (get (state_x (snd r)) i) = true /\
                 leb (get (state_x (snd r)) i) (get XU i) = true)).
  { intros a st (Ha1 & Ha2 & Ha3 & Ha4 & Ha5 & Ha6 & Ha7 & Ha8 & Ha9).
    pose proof (aggressive_step_keeps_bounds a params st) as Hs.
    cbn zeta in Hs.
    rewrite Ha1, Ha2, Ha3, Ha4, Ha5 in Hs.
    apply Hs; assumption. }
  apply (BasicSolverFacts.solve_loop_invariant ActiveStepper
           stepper_decompose stepper_solve Inv
           (fun (a : Impl) (st : BasicState) =>
              xlower a = XL /\ xupper a = XU /\
              length (state_x st) = dims_x p /\
              (forall i, i < dims_x p -> ~ In i (ifixed p) ->
                 leb (get XL i) (get (state_x st) i) = true /\
                 leb (get (state_x st) i) (get XU i) = true))
           (max_iterations (options s)) params)
    with (fuel := S (max_iterations (options s)))
         (s := set_iterations s0 1) (state := state0) (s' := s').
  - intros a st (Ha1 & Ha2 & _ & _ & _ & Ha6 & _ & _ & Ha9) _.
    repeat split; try assumption; apply Ha9; assumption.
  - intros a st HI _.
    destruct (Hstepping a st HI) as (H1 & H2 & H3 & H4).
    cbn [set_succeeded with_result xlower xupper].
    split; [ exact H1 | ]. split; [ exact H2 | ].
    split; [ exact H3 | exact H4 ].
  - intros a st a1 st1 HI _ Hb.
    destruct (Hstepping a st HI) as (H1 & H2 & H3 & H4).
    destruct HI as (Ha1 & Ha2 & Ha3 & Ha4 & Ha5 & _).
    destruct (loop_body_finite _ _ _ _ _ Hb) as (Hd1 & Hf1).
    destruct (BasicSolverFacts.loop_body_fields ActiveStepper
                stepper_decompose stepper_solve _ _ _ _ _ Hb)
      as (Hst & _ & _ & _ & Hp1 & Ho1 & Hn1 & _ & Hl1 & Hu1).
    rewrite <- Hst in H3, H4.
    unfold Inv.
    split; [ congruence | ]. split; [ congruence | ].
    split; [ congruence | ]. split; [ congruence | ].
    split; [ congruence | ]. split; [ exact H3 | ].
    split; [ congruence | ]. split; [ exact Hf1 | exact H4 ].
  - unfold Inv.
    cbn [set_iterations with_result newton problem n xlower xupper
           options].
    split; [ exact Hl0 | ]. split; [ exact Hu0 | ].
    split; [ exact Hp0 | ]. split; [ exact Ho0 | ].
    split; [ exact Hn0 | ]. split; [ exact Hlen0 | ].
    split; [ congruence | ]. split; [ exact Hfin0 | exact Hin0 ].
  - cbn. rewrite Hr0. reflexivity.
  - exact Hloop.
Qed.

End Proofs.

End SolverBoundsFacts.

(* ================================================================== *)
(** ** Exception: the location of an error *)
(* ================================================================== *)

Module ExceptionFacts.

Import Ascii String Exception ExceptionSpec.
Local Open Scope string_scope.
Local Open Scope nat_scope.

Lemma drop_all : forall s, drop (length s) s = "".
Proof. induction s as [|c s IH]; cbn; [ reflexivity | exact IH ]. Qed.

Lemma substring_all : forall s, substring 0 (length s) s = s.
Proof.
  induction s as [|c s IH]; cbn; [ reflexivity | ].
  rewrite IH. reflexivity.
Qed.

(** [s.substr(k, s.size() - k)] is [s] without its first [k]
    characters. *)
Lemma substring_drop :
  forall k s, k <= length s -> substring k (length s - k) s = drop k s.
Proof.
  induction k as [|k IH]; intros s Hk.
  - rewrite Nat.sub_0_r. cbn [drop]. apply substring_all.
  - destruct s as [|c s]; cbn in Hk; [ lia | ].
    cbn [substring drop length Nat.sub]. apply IH. lia.
Qed.

Lemma length_drop :
  forall k s, length (drop k s) = length s - k.
Proof.
  induction k as [|k IH]; intros s; cbn [drop].
  - lia.
  - destruct s as [|c s]; cbn [length]; [ reflexivity | ].
    rewrite IH. reflexivity.
Qed.

Lemma drop_drop :
  forall k j s, drop j (drop k s) = drop (k + j) s.
Proof.
  induction k as [|k IH]; intros j s; cbn [drop Nat.add].
  - reflexivity.
  - destruct s as [|c s].
    + destruct j; reflexivity.
    + apply IH.
Qed.

(** A string is its first [k] characters followed by the rest. *)
Lemma take_drop :
  forall k s, k <= length s -> s = substring 0 k s ++ drop k s.
Proof.
  induction k as [|k IH]; intros s Hk.
  - destruct s; reflexivity.
  - destruct s as [|c s]; cbn in Hk; [ lia | ].
    cbn [substring drop append]. f_equal. apply IH. lia.
Qed.

(** The search returns the last occurrence, if there is one. *)
Lemma find_end_from_spec :
  forall pat s pos best,
    ((forall k, k < length s -> occurs_at pat s k = false) /\
     find_end_from s pat pos best = best)
    \/
    (exists k,
        k < length s /\ occurs_at pat s k = true /\
        (forall j, k < j -> j < length s -> occurs_at pat s j = false) /\
        find_end_from s pat pos best = pos + k).
Proof.
  intros pat. induction s as [|c s IH]; intros pos best.
  - left. split; [ intros k Hk; cbn in Hk; lia | reflexivity ].
  - cbn [find_end_from].
    destruct (IH (S pos) (if prefix pat (String c s) then pos else best))
      as [(Hnone & Hr)|(k & Hk & Hocc & Hlast & Hr)].
    + destruct (prefix pat (String c s)) eqn:E.
      * right. exists 0. cbn [length].
        split; [ lia | ]. split; [ exact E | ]. split.
        -- intros j Hj Hlen. destruct j as [|j]; [ lia | ].
           unfold occurs_at. cbn [drop]. apply Hnone. lia.
        -- rewrite Hr. lia.
      * left. split; [ | exact Hr ].
        intros k Hk. destruct k as [|k].
        -- exact E.
        -- unfold occurs_at. cbn [drop]. apply Hnone.
           cbn [length] in Hk. lia.
    + right. exists (S k). cbn [length].
      split; [ lia | ]. split; [ exact Hocc | ]. split.
      * intros j Hj Hlen. destruct j as [|j]; [ lia | ].
        unfold occurs_at. cbn [drop]. apply Hlast; lia.
      * rewrite Hr. lia.
Qed.

(** X19.  [location] keeps of the file name what starts at the last
    occurrence of [Optima/], and nothing of it when there is no
    occurrence; the line number follows, after a colon. *)
Theorem location_keeps_last_component :
  forall file line,
    (exists pre suf,
        file = pre ++ suf /\
        prefix "Optima/" suf = true /\
        (forall j, 0 < j -> j < length suf ->
                   occurs_at "Optima/" suf j = false) /\
        location file line = suf ++ ":" ++ show_int line)
    \/
    ((forall k, k < length file -> occurs_at "Optima/" file k = false) /\
     location file line = ":" ++ show_int line).
Proof.
  intros file line. unfold location, find_end.
  destruct (find_end_from_spec "Optima/" file 0 (length file))
    as [(Hnone & Hr)|(k & Hk & Hocc & Hlast & Hr)]; rewrite Hr.
  - right. split; [ exact Hnone | ].
    rewrite substring_drop by lia. rewrite drop_all. reflexivity.
  - left. cbn [Nat.add].
    exists (substring 0 k file), (drop k file).
    split; [ apply take_drop; lia | ].
    split; [ exact Hocc | ]. split.
    + intros j Hj Hlen. rewrite length_drop in Hlen.
      unfold occurs_at. rewrite drop_drop.
      apply Hlast; lia.
    + rewrite substring_drop by lia. reflexivity.
Qed.

End ExceptionFacts.

(* ================================================================== *)
(** ** ResidualFunction: the successful update and its priority weights *)
(* ================================================================== *)

Module ResidualFunctionFacts.

Import Dbl ResidualFunction ResidualFunctionSpec ResidualFunctionUse.
Import DblSpec DblFacts.
Local Open Scope nat_scope.

Lemma nth_map_get :
  forall (f : double -> double) v i,
    i < length v -> get (map f v) i = f (get v i).
Proof.
  intros f v i H. unfold get.
  rewrite (nth_indep (map f v) NaN (f NaN))
    by (rewrite length_map; exact H).
  apply map_nth.
Qed.

Lemma nth_map_bool :
  forall (f : double -> bool) v i,
    i < length v -> nth i (map f v) false = f (get v i).
Proof.
  intros f v i H. unfold get.
  rewrite (nth_indep (map f v) false (f NaN))
    by (rewrite length_map; exact H).
  apply map_nth.
Qed.

Lemma length_raw_weights :
  forall x l u k,
    length x = k -> length l = k -> length u = k ->
    length (raw_weights x l u) = k.
Proof.
  intros x l u k Hx Hl Hu. unfold raw_weights.
  rewrite length_select; rewrite ?length_map, ?length_zipWith; lia.
Qed.

Lemma get_raw_weights :
  forall x l u k i,
    length x = k -> length l = k -> length u = k -> i < k ->
    get (raw_weights x l u) i
    = let w1 := min (sub (get x i) (get l i)) (sub (get u i) (get x i)) in
      if isInf w1 then abs (get x i) else w1.
Proof.
  intros x l u k i Hx Hl Hu Hi. unfold raw_weights.
  rewrite get_select
    by (rewrite ?length_map, ?length_zipWith; lia).
  rewrite nth_map_bool by (rewrite ?length_zipWith; lia).
  rewrite nth_map_get by lia.
  rewrite !get_zipWith by (rewrite ?length_zipWith; lia).
  reflexivity.
Qed.

Section Proofs.

Variables Matrix MatrixRWQ Stability2 CanonicalMatrix ResidualVector : Type.
Variable RWQ_jb : MatrixRWQ -> list nat.
Variable RWQ_update : MatrixRWQ -> Matrix -> Matrix -> Vector -> MatrixRWQ.
Variable RWQ_asMatrixViewW : MatrixRWQ -> Matrix * Matrix.
Variable Stability2_update :
  Stability2 -> MatrixRWQ -> Vector -> Vector -> Vector -> Vector ->
  Stability2.
Variable Stability2_status : Stability2 -> list nat * list nat.
Variable CanonicalMatrix_update :
  CanonicalMatrix -> MasterMatrix Matrix MatrixRWQ -> CanonicalMatrix.
Variable ResidualVector_update :
  ResidualVector -> ResidualVectorUpdateArgs Matrix CanonicalMatrix ->
  ResidualVector.

Local Abbreviation Impl :=
  (Impl Matrix MatrixRWQ Stability2 CanonicalMatrix ResidualVector).

Local Abbreviation run :=
  (updateWith RWQ_jb RWQ_update RWQ_asMatrixViewW
     Stability2_update Stability2_status CanonicalMatrix_update
     ResidualVector_update).

Local Abbreviation updateCachedState' :=
  (updateCachedState RWQ_update RWQ_asMatrixViewW
     Stability2_update Stability2_status CanonicalMatrix_update
     ResidualVector_update).

(** What the three callbacks leave when none of them fails. *)
Lemma evalCallbacks_succeeded :
  forall status0 jac cf ch cv (self : Impl) u status self',
    evalCallbacks RWQ_jb status0 jac cf ch cv self u = (status, self') ->
    status_is_FAILED status = false ->
    let opts := mkEvalOptions jac jac (RWQ_jb (RWQ self)) in
    status = mkStatus SUCCEEDED SUCCEEDED SUCCEEDED /\
    calls self' = calls self ++ [CallF; CallH; CallV] /\
    cf (fres self) (u_x u) (u_p u) opts = (SUCCEEDED, fres self') /\
    ch (hres self) (u_x u) (u_p u) opts = (SUCCEEDED, hres self') /\
    cv (vres self) (u_x u) (u_p u) opts = (SUCCEEDED, vres self') /\
    impl_dims self' = impl_dims self /\
    RWQ self' = RWQ self /\ wx self' = wx self /\
    stability self' = stability self /\
    jacobian self' = jacobian self /\ residual self' = residual self.
Proof.
  intros status0 jac cf ch cv self u status self' Hrun Hok opts.
  unfold evalCallbacks in Hrun. fold opts in Hrun.
  destruct (cf (fres self) (u_x u) (u_p u) opts) as [sf fres'].
  destruct sf; cbn [Bool.eqb FAILED] in Hrun.
  - cbn [hres vres calls RWQ] in Hrun.
    destruct (ch (hres self) (u_x u) (u_p u) opts) as [sh hres'].
    destruct sh; cbn [Bool.eqb FAILED] in Hrun.
    + cbn [hres vres calls] in Hrun.
      destruct (cv (vres self) (u_x u) (u_p u) opts) as [sv vres'].
      inversion Hrun; subst; clear Hrun.
      destruct sv; [ | discriminate Hok ].
      cbn. rewrite <- !app_assoc. repeat split.
    + inversion Hrun; subst. discriminate Hok.
  - inversion Hrun; subst. discriminate Hok.
Qed.

(** What the tail of a successful update writes, each part from the
    parts written before it. *)
Lemma updateCachedState_fields :
  forall (self : Impl) problem u self',
    updateCachedState' self problem u = Some self' ->
    let w := raw_weights (u_x u) (xlower problem) (xupper problem) in
    forallb (fun a => geb a (Fin 0)) w = true /\
    wx self'
      = select (map (fun a => gtb a (Fin 0)) w) w
          (constants (length w) (Fin (-1))) /\
    RWQ self'
      = RWQ_update (RWQ self) (ddx (hres self)) (ddp (hres self))
          (wx self') /\
    stability self'
      = Stability2_update (stability self) (RWQ self') (fx (fres self))
          (u_x u) (xlower problem) (xupper problem) /\
    jacobian self'
      = CanonicalMatrix_update (jacobian self)
          (masterJacobianMatrix Stability2_status self') /\
    residual self'
      = ResidualVector_update (residual self)
          (mkResidualVectorUpdateArgs (jacobian self')
             (fst (RWQ_asMatrixViewW (RWQ self')))
             (snd (RWQ_asMatrixViewW (RWQ self')))
             (u_x u) (u_p u)
             (firstn (ny (dims problem)) (u_w u))
             (skipn (length (u_w u) - nz (dims problem)) (u_w u))
             (fx (fres self)) (val (vres self)) (b problem)
             (val (hres self))) /\
    fres self' = fres self /\ hres self' = hres self /\
    vres self' = vres self /\ calls self' = calls self /\
    impl_dims self' = impl_dims self.
Proof.
  intros self problem u self' H w.
  unfold updateCachedState, updateEchelonFormMatrixW in H.
  fold (raw_weights (u_x u) (xlower problem) (xupper problem)) in H.
  fold w in H.
  destruct (forallb (fun a => geb a (Fin 0)) w) eqn:Ew;
    [ | discriminate H ].
  inversion H; subst self'; clear H. cbn.
  repeat split.
Qed.

(** [update] and [updateSkipJacobian] that return a status without a
    failure ran the callbacks and then the tail. *)
Lemma updateWith_succeeded :
  forall jac status0 (self : Impl) problem u status self',
    run jac status0 self problem u = Some (status, self') ->
    status_is_FAILED status = false ->
    sanitycheck self problem u = true /\
    exists cf ch cv self1,
      f problem = Some cf /\ h problem = Some ch /\
      v problem = Some cv /\
      evalCallbacks RWQ_jb status0 jac cf ch cv self u
        = (status, self1) /\
      updateCachedState' self1 problem u = Some self'.
Proof.
  intros jac status0 self problem u status self' Hrun Hok.
  unfold updateWith in Hrun.
  destruct (sanitycheck self problem u); cbn [negb] in Hrun;
    [ | discriminate Hrun ].
  split; [ reflexivity | ].
  destruct (f problem) as [cf|]; [ | discriminate Hrun ].
  destruct (h problem) as [ch|]; [ | discriminate Hrun ].
  destruct (v problem) as [cv|]; [ | discriminate Hrun ].
  destruct (evalCallbacks RWQ_jb status0 jac cf ch cv self u)
    as [status1 self1] eqn:Eev.
  destruct (status_is_FAILED status1) eqn:Est.
  - inversion Hrun; subst. congruence.
  - destruct (updateCachedState' self1 problem u) as [self2|] eqn:Ec;
      [ | discriminate Hrun ].
    inversion Hrun; subst.
    exists cf, ch, cv, self1. repeat split; assumption.
Qed.

(** The sizes asserted by [sanitycheck]. *)
Lemma sanitycheck_lengths :
  forall (self : Impl) problem u,
    sanitycheck self problem u = true ->
    length (xlower problem) = nx (impl_dims self) /\
    length (xupper problem) = nx (impl_dims self) /\
    length (u_x u) = nx (impl_dims self).
Proof.
  intros self problem u H. unfold sanitycheck in H.
  repeat (apply andb_prop in H; destruct H as [H ?]).
  repeat match goal with
         | E : (_ =? _) = true |- _ => apply Nat.eqb_eq in E
         end.
  repeat split; assumption.
Qed.

(** The weight stored for the variable [i]. *)
Lemma update_weight_at :
  forall jac status0 (self : Impl) problem u status self',
    run jac status0 self problem u = Some (status, self') ->
    status_is_FAILED status = false ->
    length (wx self') = nx (impl_dims self) /\
    forall i, i < nx (impl_dims self) ->
      get (wx self') i
      = priority_weight (get (u_x u) i) (get (xlower problem) i)
          (get (xupper problem) i) /\
      geb (get (raw_weights (u_x u) (xlower problem) (xupper problem)) i)
          (Fin 0) = true.
Proof.
  intros jac status0 self problem u status self' Hrun Hok.
  destruct (updateWith_succeeded _ _ _ _ _ _ _ Hrun Hok)
    as (Hsane & cf & ch & cv & self1 & _ & _ & _ & _ & Hc).
  destruct (sanitycheck_lengths _ _ _ Hsane) as (Hl & Hu & Hx).
  destruct (updateCachedState_fields _ _ _ _ Hc) as (Hge & Hwx & _).
  set (w := raw_weights (u_x u) (xlower problem) (xupper problem)) in *.
  assert (Hw : length w = nx (impl_dims self))
    by (apply length_raw_weights; assumption).
  split.
  - rewrite Hwx, length_select;
      rewrite ?length_map; unfold constants;
      rewrite ?repeat_length; lia.
  - intros i Hi. split.
    + rewrite Hwx, get_select
        by (rewrite ?length_map; unfold constants;
            rewrite ?repeat_length; lia).
      rewrite nth_map_bool by lia.
      rewrite get_constants by lia.
      unfold w.
      rewrite (get_raw_weights _ _ _ (nx (impl_dims self)))
        by assumption.
      reflexivity.
    + rewrite forallb_forall in Hge. apply Hge.
      unfold get. apply nth_In. lia.
Qed.

(** X6.  When [update] or [updateSkipJacobian] returns without a
    failed callback, the priority weight stored for each variable is
    either positive or exactly -1, and it is: the distance to the
    nearest bound for a variable strictly inside finite bounds or with
    one bound only; -1 for a variable on one of its bounds; and
    [abs(x)] for a variable without bounds (-1 when [x] is zero). *)
Theorem update_priority_weights :
  forall jac status0 (self : Impl) problem u status self',
    run jac status0 self problem u = Some (status, self') ->
    status_is_FAILED status = false ->
    length (wx self') = nx (impl_dims self) /\
    forall i, i < nx (impl_dims self) ->
      let x := get (u_x u) i in
      let l := get (xlower problem) i in
      let up := get (xupper problem) i in
      let w := get (wx self') i in
      (gtb w (Fin 0) = true \/ w = Fin (-1)) /\
      (forall q a b,
          x = Fin q -> l = Fin a -> up = Fin b ->
          (a < q)%Q -> (q < b)%Q ->
          eqv w (Fin (Qmin (q - a) (b - q)))) /\
      (forall q a,
          x = Fin q -> l = Fin a -> up = PInf -> (a < q)%Q ->
          w = Fin (q - a)) /\
      (forall q b,
          x = Fin q -> l = NInf -> up = Fin b -> (q < b)%Q ->
          w = Fin (b - q)) /\
      (forall q,
          x = Fin q -> leb l x = true -> leb x up = true ->
          eqv l x \/ eqv up x -> w = Fin (-1)) /\
      (forall q,
          x = Fin q -> l = NInf -> up = PInf ->
          w = if Qeq_bool q 0 then Fin (-1) else Fin (Qabs q)).
Proof.
  intros jac status0 self problem u status self' Hrun Hok.
  destruct (update_weight_at _ _ _ _ _ _ _ Hrun Hok) as (Hlen & Hat).
  split; [ exact Hlen | ].
  intros i Hi x l up w.
  destruct (Hat i Hi) as (Hw & _). fold x l up w in Hw.
  clearbody x l up w. clear Hat. subst w.
  unfold priority_weight.
  split; [ | split; [ | split; [ | split; [ | split ] ] ] ].
  - cbv zeta. set (w2 := if isInf _ then _ else _).
    destruct (gtb w2 (Fin 0)) eqn:E;
      [ left; exact E | right; reflexivity ].
  - intros q a b -> -> -> Ha Hb. cbn.
    unfold min. cbn.
    destruct (Qltb (b + - q) (q + - a)) eqn:E; cbn.
    + apply Qltb_lt in E.
      replace (Qltb 0 (b + - q)) with true
        by (symmetry; apply Qltb_lt; lra).
      cbn. rewrite Q.min_r; [ reflexivity | unfold Qminus; lra ].
    + apply Qltb_ge in E.
      replace (Qltb 0 (q + - a)) with true
        by (symmetry; apply Qltb_lt; lra).
      cbn. rewrite Q.min_l; [ reflexivity | unfold Qminus; lra ].
  - intros q a -> -> -> Ha. cbn.
    replace (Qltb 0 (q + - a)) with true
      by (symmetry; apply Qltb_lt; lra).
    reflexivity.
  - intros q b -> -> -> Hb. cbn.
    replace (Qltb 0 (b + - q)) with true
      by (symmetry; apply Qltb_lt; lra).
    reflexivity.
  - intros q -> Hl Hu Hon.
    destruct l as [| |a|]; try discriminate Hl;
      destruct up as [| |b|]; try discriminate Hu;
      cbn in Hl, Hu, Hon;
      try apply Qle_bool_iff in Hl; try apply Qle_bool_iff in Hu;
      cbn; unfold min; cbn.
    + destruct Hon as [[]|Hon].
      replace (Qltb 0 (b + - q)) with false
        by (symmetry; apply Qltb_ge; lra).
      reflexivity.
    + destruct Hon as [[]|[]].
    + destruct (Qltb (b + - q) (q + - a)) eqn:E; cbn.
      * apply Qltb_lt in E.
        replace (Qltb 0 (b + - q)) with false
          by (symmetry; apply Qltb_ge; destruct Hon; lra).
        reflexivity.
      * apply Qltb_ge in E.
        replace (Qltb 0 (q + - a)) with false
          by (symmetry; apply Qltb_ge; destruct Hon; lra).
        reflexivity.
    + destruct Hon as [Hon|[]].
      replace (Qltb 0 (q + - a)) with false
        by (symmetry; apply Qltb_ge; lra).
      reflexivity.
  - intros q -> -> ->. cbn.
    destruct (Qeq_bool q 0) eqn:E.
    + apply Qeq_bool_iff in E.
      replace (Qltb 0 (Qabs q)) with false; [ reflexivity | ].
      symmetry. apply Qltb_ge. rewrite E. cbn. lra.
    + replace (Qltb 0 (Qabs q)) with true; [ reflexivity | ].
      symmetry. apply Qltb_lt. apply Qeq_bool_neq in E.
      destruct (Qlt_le_dec q 0) as [H|H].
      * rewrite Qabs_neg by lra. lra.
      * rewrite Qabs_pos by exact H.
        destruct (Qle_lt_or_eq _ _ H) as [H1|H1];
          [ exact H1 | exfalso; apply E; symmetry; exact H1 ].
Qed.


(** X8.  When no callback fails, [update] ([jac = true]) and
    [updateSkipJacobian] ([jac = false]) call [f], [h] and [v] once
    each, in this order, at the same [(x, p)], with the derivative
    requests [jac] and the basic variables of the echelon form held
    before the call; then they write the echelon form from the new
    Jacobian of [h] and the new priority weights, the stability from
    the new echelon form and the new gradient, the canonical Jacobian
    from the new stability, and the residual vector from the new
    canonical Jacobian. *)
Theorem update_success_order :
  forall jac status0 (self : Impl) problem u status self',
    run jac status0 self problem u = Some (status, self') ->
    status_is_FAILED status = false ->
    let opts := mkEvalOptions jac jac (RWQ_jb (RWQ self)) in
    status = mkStatus SUCCEEDED SUCCEEDED SUCCEEDED /\
    calls self' = calls self ++ [CallF; CallH; CallV] /\
    (exists cf ch cv,
        f problem = Some cf /\ h problem = Some ch /\
        v problem = Some cv /\
        cf (fres self) (u_x u) (u_p u) opts = (SUCCEEDED, fres self') /\
        ch (hres self) (u_x u) (u_p u) opts = (SUCCEEDED, hres self') /\
        cv (vres self) (u_x u) (u_p u) opts = (SUCCEEDED, vres self')) /\
    RWQ self'
      = RWQ_update (RWQ self) (ddx (hres self')) (ddp (hres self'))
          (wx self') /\
    stability self'
      = Stability2_update (stability self) (RWQ self')
          (fx (fres self')) (u_x u) (xlower problem) (xupper problem) /\
    jacobian self'
      = CanonicalMatrix_update (jacobian self)
          (masterJacobianMatrix Stability2_status self') /\
    residual self'
      = ResidualVector_update (residual self)
          (mkResidualVectorUpdateArgs (jacobian self')
             (fst (RWQ_asMatrixViewW (RWQ self')))
             (snd (RWQ_asMatrixViewW (RWQ self')))
             (u_x u) (u_p u)
             (firstn (ny (dims problem)) (u_w u))
             (skipn (length (u_w u) - nz (dims problem)) (u_w u))
             (fx (fres self')) (val (vres self')) (b problem)
             (val (hres self'))).
Proof.
  intros jac status0 self problem u status self' Hrun Hok opts.
  destruct (updateWith_succeeded _ _ _ _ _ _ _ Hrun Hok)
    as (_ & cf & ch & cv & self1 & Hf & Hh & Hv & Hev & Hc).
  destruct (evalCallbacks_succeeded _ _ _ _ _ _ _ _ _ Hev Hok)
    as (Hst & Hcalls & Hcf & Hch & Hcv & _ & HR & _ & HS & HJ & Hres).
  fold opts in Hcf, Hch, Hcv.
  destruct (updateCachedState_fields _ _ _ _ Hc)
    as (_ & _ & HR' & HS' & HJ' & Hres' & Hfr & Hhr & Hvr & Hca & _).
  rewrite Hfr, Hhr, Hvr, Hca.
  split; [ exact Hst | ]. split; [ exact Hcalls | ].
  split; [ exists cf, ch, cv; repeat split; assumption | ].
  rewrite <- HR, <- HS, <- HJ, <- Hres.
  repeat split; assumption.
Qed.

(** X9.  [updateSkipJacobian] differs from [update] in the derivative
    requests handed to the callbacks only, and it does update the
    echelon form, the stability, the canonical Jacobian and the
    residual vector: with callbacks that do not read the requests,
    the two calls return the same status and leave the same object. *)
Theorem updateSkipJacobian_agrees_with_update :
  forall status0 (self : Impl) problem u,
    (forall cf r x p ib,
        f problem = Some cf ->
        cf r x p (mkEvalOptions false false ib)
        = cf r x p (mkEvalOptions true true ib)) ->
    (forall ch r x p ib,
        h problem = Some ch ->
        ch r x p (mkEvalOptions false false ib)
        = ch r x p (mkEvalOptions true true ib)) ->
    (forall cv r x p ib,
        v problem = Some cv ->
        cv r x p (mkEvalOptions false false ib)
        = cv r x p (mkEvalOptions true true ib)) ->
    run false status0 self problem u = run true status0 self problem u.
Proof.
  intros status0 self problem u Hf Hh Hv.
  unfold updateWith.
  destruct (negb (sanitycheck self problem u)); [ reflexivity | ].
  destruct (f problem) as [cf|] eqn:Ef; [ | reflexivity ].
  destruct (h problem) as [ch|] eqn:Eh; [ | reflexivity ].
  destruct (v problem) as [cv|] eqn:Ev; [ | reflexivity ].
  assert (E : evalCallbacks RWQ_jb status0 false cf ch cv self u
              = evalCallbacks RWQ_jb status0 true cf ch cv self u).
  { unfold evalCallbacks.
    rewrite (Hf cf _ _ _ _ eq_refl).
    destruct (cf _ _ _ _) as [sf fres'].
    destruct (Bool.eqb sf FAILED); [ reflexivity | ].
    cbn [hres vres].
    rewrite (Hh ch _ _ _ _ eq_refl).
    destruct (ch _ _ _ _) as [sh hres'].
    destruct (Bool.eqb sh FAILED); [ reflexivity | ].
    cbn [hres vres].
    rewrite (Hv cv _ _ _ _ eq_refl). reflexivity. }
  rewrite E. reflexivity.
Qed.

End Proofs.

End ResidualFunctionFacts.

(* ================================================================== *)
(** ** Echelonizer: sequences of updates, reset and the ordering [Q] *)
(* ================================================================== *)

Module EchelonizerFacts.

Import Dense EchelonizerSpec EchelonizerUse SumFacts SwapProofs.
Import ComputeProofs UpdateProofs.
Local Open Scope nat_scope.

(** *** What the updates never write *)

Lemma same_backup_refl : forall a, same_backup a a.
Proof. intros a. repeat split. Qed.

Lemma same_backup_trans :
  forall a b c, same_backup a b -> same_backup b c -> same_backup a c.
Proof.
  intros a b c (H1 & H2 & H3 & H4) (H5 & H6 & H7 & H8).
  repeat split; congruence.
Qed.

Lemma swap_same_backup :
  forall self ib in_ self',
    E.updateWithSwapBasicVariable self ib in_ = Some self' ->
    same_backup self self'.
Proof.
  intros self ib in_ self' H.
  unfold E.updateWithSwapBasicVariable in H.
  rewrite numBasicVariables_pair in H.
  destruct (negb (ib <? _)); [ discriminate H | ].
  destruct (negb (in_ <? _)); [ discriminate H | ].
  destruct (negb (Dbl.Qltb _ _)); [ discriminate H | ].
  inversion H; subst self'. repeat split.
Qed.

Lemma greedy_loop_same_backup :
  forall w nn rows_left self self',
    E.greedy_loop self w nn rows_left = Some self' ->
    same_backup self self'.
Proof.
  intros w nn. induction rows_left as [|i rest IH]; intros self self' H.
  - cbn in H. inversion H; subst. apply same_backup_refl.
  - rewrite greedy_loop_step in H. cbv zeta in H.
    destruct (Dbl.ltb _ _).
    + destruct (E.updateWithSwapBasicVariable self i _)
        as [s1|] eqn:Es; [ | discriminate H ].
      eapply same_backup_trans;
        [ eapply swap_same_backup; exact Es | apply IH; exact H ].
    + apply IH. exact H.
Qed.

Lemma update_same_backup :
  forall std_sort self u self',
    apply_update std_sort self u = Some self' ->
    same_backup self self'.
Proof.
  intros std_sort self [ib in_|w|Kb Kn|] self' H; cbn in H.
  - eapply swap_same_backup; exact H.
  - unfold E.updateWithPriorityWeights in H.
    destruct (negb (length w =? _)); [ discriminate H | ].
    rewrite numBasicVariables_pair in H.
    destruct (if 0 <? _ then _ else _) as [s1|] eqn:Eg;
      [ | discriminate H ].
    assert (Hs1 : same_backup self s1).
    { destruct (0 <? _).
      - eapply greedy_loop_same_backup; exact Eg.
      - inversion Eg; subst. apply same_backup_refl. }
    inversion H; subst self'.
    destruct Hs1 as (H1 & H2 & H3 & H4). repeat split; assumption.
  - unfold E.updateOrdering in H.
    destruct (negb (_ =? length Kb)); [ discriminate H | ].
    destruct (negb (_ =? length Kn)); [ discriminate H | ].
    inversion H; subst self'. repeat split.
  - inversion H; subst self'. repeat split.
Qed.

Lemma updates_same_backup :
  forall std_sort us self self',
    apply_updates std_sort self us = Some self' ->
    same_backup self self'.
Proof.
  intros std_sort. induction us as [|u us IH]; intros self self' H.
  - cbn in H. inversion H; subst. apply same_backup_refl.
  - cbn in H.
    destruct (apply_update std_sort self u) as [s1|] eqn:Eu;
      [ | discriminate H ].
    eapply same_backup_trans;
      [ eapply update_same_backup; exact Eu | apply IH; exact H ].
Qed.

(** [compute] stores what it computed as the backup. *)
Lemma compute_backup :
  forall eigen_fullPivLU self A s0,
    E.compute eigen_fullPivLU self A = Some s0 ->
    E.R0 s0 = E.R s0 /\ E.S0 s0 = E.S s0 /\ E.Q0 s0 = E.Q s0.
Proof.
  intros eigen_fullPivLU self A s0 H. unfold E.compute in H.
  destruct (negb (rows A <=? cols A)); [ discriminate H | ].
  rewrite numBasicVariables_pair in H.
  inversion H; subst s0. repeat split.
Qed.

(** The canonical identity reads [lu], [R], [S] and [Q] only. *)
Lemma canonical_identity_ext :
  forall a b A,
    E.lu b = E.lu a -> E.R b = E.R a -> E.S b = E.S a ->
    E.Q b = E.Q a ->
    canonical_identity a A -> canonical_identity b A.
Proof.
  intros a b A Hlu HR HS HQ Hid i j Hi Hj.
  unfold E.RAQ, E.C. rewrite Hlu, HR, HS, HQ.
  exact (Hid i j Hi Hj).
Qed.

(** X10.  [reset] undoes every sequence of updates: after
    [compute(A)] and any swaps, updates with priority weights,
    reorderings and clean-ups that do not fail, [reset] restores the
    matrices [R] and [S] and the ordering [Q] that [compute] produced,
    and with them the canonical identity for [A]. *)
Theorem reset_restores_computed_form :
  forall eigen_fullPivLU std_sort self A s0 us s,
    E.compute eigen_fullPivLU self A = Some s0 ->
    apply_updates std_sort s0 us = Some s ->
    E.R (E.reset s) = E.R s0 /\
    E.S (E.reset s) = E.S s0 /\
    E.Q (E.reset s) = E.Q s0 /\
    E.lu (E.reset s) = E.lu s0 /\
    (canonical_identity s0 A -> canonical_identity (E.reset s) A).
Proof.
  intros eigen_fullPivLU std_sort self A s0 us s Hc Hu.
  destruct (compute_backup _ _ _ _ Hc) as (HR & HS & HQ).
  destruct (updates_same_backup _ _ _ _ Hu) as (Hlu & HR0 & HS0 & HQ0).
  assert (H1 : E.R (E.reset s) = E.R s0) by (cbn; congruence).
  assert (H2 : E.S (E.reset s) = E.S s0) by (cbn; congruence).
  assert (H3 : E.Q (E.reset s) = E.Q s0) by (cbn; congruence).
  assert (H4 : E.lu (E.reset s) = E.lu s0) by (cbn; congruence).
  repeat split; try assumption.
  apply canonical_identity_ext; assumption.
Qed.

(** *** The ordering [Q] *)

(** A vector read through an injective map of its positions is a
    permutation of the vector. *)
Lemma permutation_by_positions :
  forall (v v' : E.Indices) (f : nat -> nat),
    length v' = length v ->
    (forall p, p < length v -> E.at_ v' p = E.at_ v (f p)) ->
    (forall p, p < length v -> f p < length v) ->
    (forall p p', p < length v -> p' < length v -> f p = f p' -> p = p') ->
    Permutation v' v.
Proof.
  intros v v' f Hlen Hat Hlt Hinj.
  assert (Hv : v = map (E.at_ v) (seq 0 (length v))).
  { apply (nth_ext _ _ 0 0).
    - rewrite length_map, length_seq. reflexivity.
    - intros p Hp.
      rewrite (nth_indep (map _ _) 0 (E.at_ v 0))
        by (rewrite length_map, length_seq; exact Hp).
      rewrite map_nth, seq_nth by exact Hp. reflexivity. }
  assert (Hv' : v' = map (E.at_ v) (map f (seq 0 (length v)))).
  { apply (nth_ext _ _ 0 0).
    - rewrite !length_map, length_seq. exact Hlen.
    - intros p Hp. rewrite Hlen in Hp.
      rewrite map_map.
      rewrite (nth_indep (map _ _) 0 (E.at_ v (f 0)))
        by (rewrite length_map, length_seq; exact Hp).
      rewrite (map_nth (fun x => E.at_ v (f x))), seq_nth by exact Hp.
      apply Hat. exact Hp. }
  rewrite Hv' at 1. rewrite Hv at 3.
  apply Permutation_map.
  apply Permutation_sym. apply NoDup_Permutation_bis.
  - apply seq_NoDup.
  - rewrite length_map. apply Nat.le_refl.
  - intros x Hx. apply in_seq in Hx.
    assert (Hnd : NoDup (map f (seq 0 (length v)))).
    { apply Finite.Injective_map_NoDup_in; [ | apply seq_NoDup ].
      intros a b Ha Hb. apply in_seq in Ha. apply in_seq in Hb.
      apply Hinj; lia. }
    assert (Hincl : incl (map f (seq 0 (length v))) (seq 0 (length v))).
    { intros y Hy. apply in_map_iff in Hy.
      destruct Hy as (p & <- & Hp). apply in_seq in Hp.
      apply in_seq. split; [ lia | ]. cbn. apply Hlt. lia. }
    apply (@NoDup_length_incl nat (map f (seq 0 (length v)))
             (seq 0 (length v)) Hnd).
    + rewrite length_map. apply Nat.le_refl.
    + exact Hincl.
    + apply in_seq. exact Hx.
Qed.

Lemma swap_at_permutation :
  forall v a b,
    a < length v -> b < length v -> Permutation (E.swap_at v a b) v.
Proof.
  intros v a b Ha Hb.
  apply (permutation_by_positions v (E.swap_at v a b)
           (fun p => if p =? b then a else if p =? a then b else p)).
  - apply length_swap_at.
  - intros p Hp. rewrite at_swap_at by assumption.
    destruct (p =? b); [ reflexivity | ].
    destruct (p =? a); reflexivity.
  - intros p Hp. destruct (p =? b); [ exact Ha | ].
    destruct (p =? a); assumption.
  - intros p p' Hp Hp'.
    destruct (Nat.eqb_spec p b), (Nat.eqb_spec p' b),
      (Nat.eqb_spec p a), (Nat.eqb_spec p' a); lia.
Qed.

Lemma permuteSegment_permutation :
  forall K start k v,
    Permutation K (seq 0 k) -> start + k <= length v ->
    Permutation (E.permuteSegment K start k v) v.
Proof.
  intros K start k v HK Hk.
  destruct (permutation_seq_facts K k HK) as (_ & Hlt & Hinj).
  apply (permutation_by_positions v (E.permuteSegment K start k v)
           (fun p => if (start <=? p) && (p <? start + k)
                     then start + E.at_ K (p - start) else p)).
  - apply length_permuteSegment.
  - intros p Hp. rewrite at_permuteSegment by exact Hp.
    destruct ((start <=? p) && (p <? start + k)); reflexivity.
  - intros p Hp.
    destruct ((start <=? p) && (p <? start + k)) eqn:E;
      [ | exact Hp ].
    apply andb_prop in E. destruct E as [E1 E2]. nat_tests.
    specialize (Hlt (p - start)). lia.
  - intros p p' Hp Hp'.
    destruct ((start <=? p) && (p <? start + k)) eqn:E;
      destruct ((start <=? p') && (p' <? start + k)) eqn:E';
      try (apply andb_prop in E; destruct E as [E1 E2]);
      try (apply andb_prop in E'; destruct E' as [E1' E2']);
      try (apply Bool.andb_false_iff in E);
      try (apply Bool.andb_false_iff in E');
      nat_tests; intros H.
    + assert (E.at_ K (p - start) = E.at_ K (p' - start)) by lia.
      assert (p - start = p' - start) by (apply Hinj; lia).
      lia.
    + specialize (Hlt (p - start)). destruct E'; nat_tests; lia.
    + specialize (Hlt (p' - start)). destruct E; nat_tests; lia.
    + exact H.
Qed.

(** *** The canonical form under reordering and clean-up *)

(** The canonical form reads [lu], [R], [S], [Q] and the threshold, and
    asks [Kb] and [Kn] to be permutations. *)
Lemma canonical_ext :
  forall a b A,
    E.lu b = E.lu a -> E.R b = E.R a -> E.S b = E.S a ->
    E.Q b = E.Q a -> E.threshold b = E.threshold a ->
    Permutation (E.Kb b) (seq 0 (rank_of (E.lu a))) ->
    Permutation (E.Kn b) (seq 0 (cols A - rank_of (E.lu a))) ->
    canonical a A -> canonical b A.
Proof.
  intros a b A Hlu HR HS HQ Ht HKb HKn [Hwf Hid].
  split.
  - unfold well_formed in *. rewrite Hlu, HR, HS, HQ, Ht.
    destruct Hwf as (H1 & H2 & H3 & H4 & H5 & H6 & H7 & H8 & H9 & H10
                     & _ & _).
    repeat split; assumption.
  - eapply canonical_identity_ext; eassumption.
Qed.

Lemma updateOrdering_canonical :
  forall self A Kb' Kn',
    canonical self A ->
    Permutation Kb' (seq 0 (rank_of (E.lu self))) ->
    Permutation Kn' (seq 0 (cols A - rank_of (E.lu self))) ->
    exists self',
      E.updateOrdering self Kb' Kn' = Some self' /\
      canonical self' A /\
      E.Q self'
        = E.Q (E.applyOrdering self (rank_of (E.lu self))
                 (cols A - rank_of (E.lu self)) Kb' Kn') /\
      E.R self'
        = E.R (E.applyOrdering self (rank_of (E.lu self))
                 (cols A - rank_of (E.lu self)) Kb' Kn') /\
      E.S self'
        = E.S (E.applyOrdering self (rank_of (E.lu self))
                 (cols A - rank_of (E.lu self)) Kb' Kn') /\
      E.Kb self' = E.Kb self /\ E.Kn self' = E.Kn self.
Proof.
  intros self A Kb' Kn' Hcan HKb HKn.
  pose proof Hcan as [Hwf _].
  destruct Hwf as (_ & _ & _ & _ & HSr & _ & HQl & _ & _ & _ & HKb0 & HKn0).
  set (r := rank_of (E.lu self)) in *. set (n := cols A) in *.
  pose proof (Permutation_length HKb) as HlKb.
  pose proof (Permutation_length HKn) as HlKn.
  rewrite length_seq in HlKb, HlKn.
  unfold E.updateOrdering. rewrite HSr, HQl, HlKb, HlKn.
  rewrite !Nat.eqb_refl. cbn [negb].
  eexists. split; [ reflexivity | ].
  destruct (applyOrdering_canonical self A Kb' Kn' Hcan HKb HKn)
    as (Hcan' & Hlu' & _).
  fold r in Hcan', Hlu'. fold n in Hcan', Hlu'.
  split; [ | cbn; repeat split ].
  apply (canonical_ext (E.applyOrdering self r (n - r) Kb' Kn')).
  - cbn. reflexivity.
  - cbn. reflexivity.
  - cbn. reflexivity.
  - cbn. reflexivity.
  - cbn. reflexivity.
  - cbn [E.Kb E.with_RSQ]. rewrite Hlu'. exact HKb0.
  - cbn [E.Kn E.with_RSQ]. rewrite Hlu'. exact HKn0.
  - exact Hcan'.
Qed.

Lemma clean_canonical :
  forall self A,
    canonical self A -> canonical (E.cleanResidualRoundoffErrors self) A.
Proof.
  intros self A [Hwf Hid]. split.
  - exact Hwf.
  - intros i j Hi Hj. specialize (Hid i j Hi Hj).
    transitivity (coeff (E.RAQ self A) i j).
    + unfold E.RAQ, E.mmul, E.cleanResidualRoundoffErrors.
      cbn [E.with_RSQ E.R E.Q coeff rows cols E.mulPermutation].
      apply sumQ_ext. intros k _. ring.
    + rewrite Hid.
      unfold E.C, E.cleanResidualRoundoffErrors.
      cbn [E.with_RSQ E.S E.lu coeff].
      destruct (i <? _); [ | reflexivity ].
      destruct (j <? _); [ reflexivity | ring ].
Qed.

(** *** The ordering through the updates *)

Lemma swap_Q_permutation :
  forall self A ib in_ self',
    canonical self A ->
    E.updateWithSwapBasicVariable self ib in_ = Some self' ->
    Permutation (E.Q self') (E.Q self).
Proof.
  intros self A ib in_ self' [Hwf _] H.
  destruct (swap_result self ib in_ self' H)
    as (Hib & Hin & _ & _ & _ & _ & _ & HQ & _).
  destruct Hwf as (_ & Hlc & _ & _ & HSr & _ & HQl & Hrm & Hmn & _).
  rewrite HQ. apply swap_at_permutation; rewrite HQl; lia.
Qed.

Lemma greedy_loop_Q_permutation :
  forall A w nn rows_left self self',
    canonical self A ->
    E.greedy_loop self w nn rows_left = Some self' ->
    canonical self' A /\ Permutation (E.Q self') (E.Q self).
Proof.
  intros A w nn. induction rows_left as [|i rest IH]; intros self self' Hc H.
  - cbn in H. inversion H; subst. split; [ exact Hc | apply Permutation_refl ].
  - rewrite greedy_loop_step in H. cbv zeta in H.
    destruct (Dbl.ltb _ _).
    + destruct (E.updateWithSwapBasicVariable self i _)
        as [s1|] eqn:Es; [ | discriminate H ].
      pose proof (swap_preserves_canonical self A i _ s1 Hc Es) as Hc1.
      destruct (IH s1 self' Hc1 H) as (Hc' & HP).
      split; [ exact Hc' | ].
      eapply perm_trans; [ exact HP | ].
      eapply swap_Q_permutation; eassumption.
    + apply IH; assumption.
Qed.

Lemma applyOrdering_Q_permutation :
  forall self A Kb' Kn',
    canonical self A ->
    Permutation Kb' (seq 0 (rank_of (E.lu self))) ->
    Permutation Kn' (seq 0 (cols A - rank_of (E.lu self))) ->
    Permutation
      (E.Q (E.applyOrdering self (rank_of (E.lu self))
              (cols A - rank_of (E.lu self)) Kb' Kn'))
      (E.Q self).
Proof.
  intros self A Kb' Kn' [Hwf _] HKb HKn.
  destruct Hwf as (_ & _ & _ & _ & _ & _ & HQl & Hrm & Hmn & _).
  cbn [E.applyOrdering E.with_RSQ E.Q].
  eapply perm_trans.
  - apply permuteSegment_permutation; [ exact HKn | ].
    rewrite !length_permuteSegment, HQl. lia.
  - apply permuteSegment_permutation; [ exact HKb | ].
    rewrite HQl. lia.
Qed.

Section Updates.

Variable std_sort : (nat -> nat -> bool) -> list nat -> list nat.
Hypothesis std_sort_contract : sort_contract std_sort.

Lemma update_keeps_form :
  forall A self u self',
    canonical self A ->
    valid_update (rank_of (E.lu self)) (cols A) u ->
    apply_update std_sort self u = Some self' ->
    canonical self' A /\ Permutation (E.Q self') (E.Q self) /\
    E.lu self' = E.lu self.
Proof.
  intros A self u self' Hc Hv Hu.
  pose proof (update_same_backup _ _ _ _ Hu) as (Hlu & _).
  split; [ | split; [ | exact Hlu ] ].
  - destruct u as [ib in_|w|Kb Kn|]; cbn in Hu, Hv.
    + eapply swap_preserves_canonical; eassumption.
    + assert (Hw : length w = cols A).
      { unfold E.updateWithPriorityWeights in Hu.
        destruct (Nat.eqb_spec (length w) (E.lu_cols (E.lu self)))
          as [E|E]; cbn [negb] in Hu; [ | discriminate Hu ].
        destruct Hc as [(_ & Hlc & _) _]. congruence. }
      destruct (update_canonical_descending std_sort std_sort_contract
                  self A w Hc Hw)
        as (s1 & s2 & _ & _ & Hu2 & _ & Hc2 & _).
      rewrite Hu in Hu2. inversion Hu2; subst. exact Hc2.
    + destruct Hv as [HKb HKn].
      destruct (updateOrdering_canonical self A Kb Kn Hc HKb HKn)
        as (s2 & Hu2 & Hc2 & _).
      rewrite Hu in Hu2. inversion Hu2; subst. exact Hc2.
    + inversion Hu; subst. apply clean_canonical. exact Hc.
  - destruct u as [ib in_|w|Kb Kn|]; cbn in Hu, Hv.
    + eapply swap_Q_permutation; eassumption.
    + assert (Hw : length w = cols A).
      { unfold E.updateWithPriorityWeights in Hu.
        destruct (Nat.eqb_spec (length w) (E.lu_cols (E.lu self)))
          as [E|E]; cbn [negb] in Hu; [ | discriminate Hu ].
        destruct Hc as [(_ & Hlc & _) _]. congruence. }
      destruct (update_canonical_descending std_sort std_sort_contract
                  self A w Hc Hw)
        as (s1 & s2 & Hg & Hc1 & Hu2 & Hs2 & _).
      assert (Heq : self' = s2) by congruence.
      assert (Hg1 : canonical s1 A /\ Permutation (E.Q s1) (E.Q self)
                    /\ E.lu s1 = E.lu self).
      { unfold greedy_pass in Hg.
        destruct (0 <? _).
        - destruct (greedy_loop_Q_permutation A w _ _ self s1 Hc Hg)
            as (H1 & H2).
          split; [ exact H1 | ]. split; [ exact H2 | ].
          apply (greedy_loop_same_backup _ _ _ _ _ Hg).
        - inversion Hg; subst.
          split; [ exact Hc | ].
          split; [ apply Permutation_refl | reflexivity ]. }
      destruct Hg1 as (_ & HP1 & Hlu1).
      eapply perm_trans; [ | exact HP1 ].
      rewrite Heq, Hs2. rewrite <- Hlu1.
      pose proof Hc1 as [(_ & _ & _ & _ & _ & _ & _ & _ & _ & _
                         & HKb1 & HKn1) _].
      apply applyOrdering_Q_permutation; [ exact Hc1 | | ].
      * eapply perm_trans; [ | exact HKb1 ].
        apply std_sort_contract.
      * eapply perm_trans; [ | exact HKn1 ].
        rewrite Hlu1.
        apply (std_sort_contract
                 (fun r => E.atQ w
                             (E.at_ (E.Q s1)
                                (length (E.Q s1)
                                 - (cols A - rank_of (E.lu self)) + r)))).
    + destruct Hv as [HKb HKn].
      destruct (updateOrdering_canonical self A Kb Kn Hc HKb HKn)
        as (s2 & Hu2 & _ & HQ2 & _).
      rewrite Hu in Hu2. inversion Hu2; subst s2. rewrite HQ2.
      apply applyOrdering_Q_permutation; assumption.
    + inversion Hu; subst. apply Permutation_refl.
Qed.


End Updates.

(** X12.  [updateOrdering(Kb, Kn)] with permutations of the basic and
    of the non-basic positions keeps the canonical form: position [p]
    of the basic variables receives the variable that was at position
    [Kb[p]], position [j] of the non-basic ones the variable that was
    at [Kn[j]], and the members [Kb] and [Kn] of the echelonizer are
    left as they were.  With an index vector of another size the
    assertion fails. *)
Theorem updateOrdering_reorders_canonical_form :
  forall self A Kb' Kn',
    canonical self A ->
    let r := rank_of (E.lu self) in
    let n := cols A in
    (Permutation Kb' (seq 0 r) ->
     Permutation Kn' (seq 0 (n - r)) ->
     exists self',
       E.updateOrdering self Kb' Kn' = Some self' /\
       canonical self' A /\
       (forall p, p < r ->
          E.at_ (E.Q self') p = E.at_ (E.Q self) (E.at_ Kb' p)) /\
       (forall j, j < n - r ->
          E.at_ (E.Q self') (r + j) = E.at_ (E.Q self) (r + E.at_ Kn' j)) /\
       (forall i j, i < r ->
          coeff (E.S self') i j
          = coeff (E.S self) (E.at_ Kb' i) (E.at_ Kn' j)) /\
       E.Kb self' = E.Kb self /\ E.Kn self' = E.Kn self) /\
    (length Kb' <> r \/ length Kn' <> n - r ->
     E.updateOrdering self Kb' Kn' = None).
Proof.
  intros self A Kb' Kn' Hcan r n. split.
  - intros HKb HKn.
    destruct (updateOrdering_canonical self A Kb' Kn' Hcan HKb HKn)
      as (self' & Hu & Hc' & HQ & _ & HS & HKb' & HKn').
    destruct (applyOrdering_canonical self A Kb' Kn' Hcan HKb HKn)
      as (_ & _ & HQb & HQn & _ & HSc).
    exists self'. rewrite HQ, HS.
    split; [ exact Hu | ]. split; [ exact Hc' | ].
    split; [ exact HQb | ]. split; [ exact HQn | ].
    split; [ exact HSc | ]. split; assumption.
  - intros Hbad.
    pose proof Hcan as [(_ & _ & _ & _ & HSr & _ & HQl & _) _].
    unfold E.updateOrdering. rewrite HSr, HQl. fold r. fold n.
    destruct (Nat.eqb_spec r (length Kb')) as [E1|E1];
      [ | reflexivity ].
    destruct (Nat.eqb_spec (n - r) (length Kn')) as [E2|E2];
      [ | reflexivity ].
    destruct Hbad; congruence.
Qed.

(** *** A swap undone by the same swap *)

Lemma swap_at_involutive :
  forall v a b,
    a < length v -> b < length v ->
    E.swap_at (E.swap_at v a b) a b = v.
Proof.
  intros v a b Ha Hb.
  apply (nth_ext _ _ 0 0).
  - rewrite !length_swap_at. reflexivity.
  - intros p _.
    change (E.at_ (E.swap_at (E.swap_at v a b) a b) p = E.at_ v p).
    rewrite at_swap_at by (rewrite length_swap_at; assumption).
    rewrite !at_swap_at by assumption.
    rewrite !Nat.eqb_refl.
    destruct (Nat.eqb_spec p b) as [->|Hpb].
    + destruct (Nat.eqb_spec a b) as [->|_]; reflexivity.
    + destruct (Nat.eqb_spec p a) as [->|Hpa]; [ | reflexivity ].
      destruct (Nat.eqb_spec b a); reflexivity.
Qed.


(** *** The row permutation and its inverse *)

Lemma length_fold_set_at :
  forall (P : E.Indices) l v,
    length (fold_left (fun u i => E.set_at u (E.at_ P i) i) l v)
    = length v.
Proof.
  intros P. induction l as [|i l IH]; intros v; cbn.
  - reflexivity.
  - rewrite IH. apply length_set_at.
Qed.

Lemma fold_set_at_inverse :
  forall (P : E.Indices) m k v,
    length v = m -> k <= m ->
    (forall i, i < m -> E.at_ P i < m) ->
    (forall i j, i < m -> j < m -> E.at_ P i = E.at_ P j -> i = j) ->
    forall j, j < k ->
      E.at_ (fold_left (fun u i => E.set_at u (E.at_ P i) i) (seq 0 k) v)
        (E.at_ P j) = j.
Proof.
  intros P m k v Hv. induction k as [|k IH]; intros Hk Hlt Hinj j Hj.
  - lia.
  - rewrite seq_S, fold_left_app. cbn [fold_left Nat.add].
    rewrite at_set_at, length_fold_set_at, Hv.
    replace (E.at_ P k <? m) with true
      by (symmetry; apply Nat.ltb_lt; apply Hlt; lia).
    rewrite Bool.andb_true_r.
    destruct (Nat.eqb_spec (E.at_ P j) (E.at_ P k)) as [Heq|Hne].
    + symmetry. apply Hinj; [ lia | lia | exact Heq ].
    + apply IH; try assumption; try lia.
      destruct (Nat.eq_dec j k) as [->|]; [ congruence | lia ].
Qed.

(** X14.  After [compute(A)], [indicesEquations()] is the inverse of the
    row permutation [P] of the factorization: for every row [i],
    [indicesEquations()[P[i]] = i]. *)
Theorem indicesEquations_inverts_P :
  forall eigen_fullPivLU self A s0,
    E.compute eigen_fullPivLU self A = Some s0 ->
    Permutation (E.permutationP (eigen_fullPivLU A)) (seq 0 (rows A)) ->
    E.P s0 = E.permutationP (eigen_fullPivLU A) /\
    length (E.indicesEquations s0) = rows A /\
    forall i, i < rows A ->
      E.at_ (E.indicesEquations s0) (E.at_ (E.P s0) i) = i.
Proof.
  intros eigen_fullPivLU self A s0 H HP. unfold E.compute in H.
  destruct (negb (rows A <=? cols A)); [ discriminate H | ].
  rewrite numBasicVariables_pair in H.
  inversion H; subst s0; clear H.
  cbn [E.P E.indicesEquations E.Ptr].
  destruct (permutation_seq_facts _ _ HP) as (_ & Hlt & Hinj).
  split; [ reflexivity | ]. split.
  - unfold E.indices. rewrite length_fold_set_at. apply repeat_length.
  - intros i Hi. unfold E.indices.
    apply (fold_set_at_inverse _ (rows A));
      [ apply repeat_length | lia | exact Hlt | exact Hinj | exact Hi ].
Qed.

End EchelonizerFacts.

(* ================================================================== *)
(** ** Stepper: residuals and the steepest descent direction *)
(* ================================================================== *)

Module StepperFacts.

Import Dbl Dense Stepper DblSpec DblFacts.
Local Open Scope nat_scope.

Lemma length_fillAt :
  forall idx v a, length (fillAt v idx a) = length v.
Proof.
  unfold fillAt. induction idx as [|j idx IH]; intros v a; cbn.
  - reflexivity.
  - rewrite IH. apply length_set.
Qed.

Lemma get_fillAt :
  forall idx v a i,
    i < length v ->
    get (fillAt v idx a) i = if memb i idx then a else get v i.
Proof.
  unfold fillAt. induction idx as [|j idx IH]; intros v a i Hi;
    cbn [fold_left memb existsb].
  - reflexivity.
  - rewrite IH by (rewrite length_set; exact Hi).
    fold (memb i idx).
    destruct (Nat.eqb_spec i j) as [->|Hne]; cbn [orb].
    + rewrite get_set_same by exact Hi.
      destruct (memb j idx); reflexivity.
    + rewrite get_set_other by congruence. reflexivity.
Qed.

Lemma get_map_seq :
  forall (f : nat -> double) k i,
    i < k -> get (map f (seq 0 k)) i = f i.
Proof.
  intros f k i Hi. unfold get.
  rewrite (nth_indep _ NaN (f 0)) by (rewrite length_map, length_seq; exact Hi).
  rewrite map_nth, seq_nth by exact Hi. reflexivity.
Qed.

Lemma get_map :
  forall (f : double -> double) v i,
    i < length v -> get (map f v) i = f (get v i).
Proof.
  intros f v i H. unfold get.
  rewrite (nth_indep (map f v) NaN (f NaN))
    by (rewrite length_map; exact H).
  apply map_nth.
Qed.

Lemma abs_neg : forall a, abs (neg a) = abs a.
Proof.
  intros [| |x|]; cbn; try reflexivity.
  f_equal. unfold Qabs, Qopp. destruct x as [p q]. cbn.
  rewrite Z.abs_opp. reflexivity.
Qed.

Lemma abs_not_negative : forall a, ltb (abs a) (Fin 0) = false.
Proof.
  intros [| |x|]; cbn; try reflexivity.
  apply Qltb_ge. apply Qabs_nonneg.
Qed.

(** A zero residual has a zero relative error, unless the gradient is
    a NaN. *)
Lemma zero_relative_error :
  forall g,
    isNaN g = false -> eqv (div (Fin 0) (add (Fin 1) (abs g))) (Fin 0).
Proof.
  intros [| |x|] H; cbn; try discriminate H; try reflexivity.
  assert (Hpos : (0 < 1 + Qabs x)%Q)
    by (pose proof (Qabs_nonneg x); lra).
  apply Qgt_alt in Hpos. rewrite Hpos. cbn. reflexivity.
Qed.

(** The relative error [r / (1 + |g|)] does not exceed the residual [r]. *)
Lemma relative_error_below_residual :
  forall r g,
    isfinite g = true -> isNaN r = false -> ltb r (Fin 0) = false ->
    leb (div r (add (Fin 1) (abs g))) r = true.
Proof.
  intros r [| |x|] Hg Hr Hneg; try discriminate Hg.
  assert (Hy : (1 <= 1 + Qabs x)%Q)
    by (pose proof (Qabs_nonneg x); lra).
  assert (Hpos : (0 < 1 + Qabs x)%Q) by lra.
  pose proof Hpos as Hgt. apply Qgt_alt in Hgt.
  destruct r as [| |q|]; try discriminate Hr; try discriminate Hneg.
  - cbn. rewrite Hgt. cbn. apply Qle_bool_iff.
    cbn in Hneg. apply Qltb_ge in Hneg.
    apply Qle_shift_div_r; [ exact Hpos | ]. nra.
  - cbn. rewrite Hgt. reflexivity.
Qed.

Section Proofs.

Variables SaddlePointSolver StabilityChecker : Type.
Variable stbchecker_stability : StabilityChecker -> Stability.
Variable spsolver_residuals :
  SaddlePointSolver -> Matrix double -> Vector -> Vector -> Vector ->
  Vector -> Vector -> Vector * Vector.

Local Abbreviation Impl := (Impl SaddlePointSolver).
Local Abbreviation residuals' :=
  (residuals stbchecker_stability spsolver_residuals).
Local Abbreviation steepestDescentLagrange' :=
  (@steepestDescentLagrange SaddlePointSolver StabilityChecker
     stbchecker_stability).

Lemma length_instability :
  forall (self : Impl) g y, length (instability self g y) = n self.
Proof.
  intros self g y. unfold instability.
  rewrite length_map, length_seq. reflexivity.
Qed.

Lemma get_instability :
  forall (self : Impl) g y i,
    i < n self ->
    get (instability self g y) i
    = add (get g i) (trmul_vec (W self) y i).
Proof.
  intros self g y i Hi. unfold instability.
  apply (get_map_seq (fun i => add (get g i) (trmul_vec (W self) y i))).
  exact Hi.
Qed.

(** What [residuals] writes, coefficient by coefficient. *)
Lemma residuals_fields :
  forall (self : Impl) chk args out,
    residuals' self chk args = Some out ->
    let iu := indicesUnstableVariables (stbchecker_stability chk) in
    length (res_g args) = n self /\
    out_z out = instability self (res_g args) (res_y args) /\
    length (out_rx out) = n self /\
    length (out_ex out) = n self /\
    forall i, i < n self ->
      get (out_rx out) i
        = (if memb i iu then Fin 0 else abs (get (out_z out) i)) /\
      get (out_ex out) i
        = div (get (out_rx out) i)
              (add (Fin 1) (abs (get (res_g args) i))).
Proof.
  intros self chk args out H iu. unfold residuals in H.
  destruct (_ && _) eqn:Esz; cbn [negb] in H; [ | discriminate H ].
  repeat (apply andb_prop in Esz; destruct Esz as [Esz ?]).
  repeat match goal with
         | E : (_ =? _) = true |- _ => apply Nat.eqb_eq in E
         end.
  destruct (spsolver_residuals _ _ _ _ _ _ _) as [ry' ey'].
  inversion H; subst out; clear H.
  cbn [out_rx out_ex out_z]. fold iu.
  set (z := instability self (res_g args) (res_y args)).
  assert (Hz : length z = n self) by apply length_instability.
  assert (Hrx : length (fillAt (map abs z) iu (Fin 0)) = n self)
    by (rewrite length_fillAt, length_map; exact Hz).
  split; [ assumption | ]. split; [ reflexivity | ].
  split; [ exact Hrx | ]. split.
  - rewrite length_zipWith, Hrx, length_map. lia.
  - intros i Hi. split.
    + rewrite get_fillAt by (rewrite length_map; lia).
      rewrite get_map by lia. reflexivity.
    + rewrite get_zipWith by (rewrite ?length_map; lia).
      rewrite get_map by lia. reflexivity.
Qed.

(** X15.  [residuals] computes the instability measure
    [z = g + tr(W) y] for every variable, and the optimality residual
    [rx = |z|] for the stable ones; for an unstable variable [rx] is
    zero whatever [z] is (a NaN included), so that it does not count
    in the convergence test.  No residual is negative, the relative
    error [ex] of an unstable variable is zero unless its gradient is
    a NaN, and for a finite gradient the relative error does not
    exceed the residual. *)
Theorem residuals_of_stable_and_unstable_variables :
  forall (self : Impl) chk args out,
    residuals' self chk args = Some out ->
    let iu := indicesUnstableVariables (stbchecker_stability chk) in
    length (out_rx out) = n self /\
    length (out_ex out) = n self /\
    length (out_z out) = n self /\
    forall i, i < n self ->
      get (out_z out) i
        = add (get (res_g args) i)
              (trmul_vec (W self) (res_y args) i) /\
      ltb (get (out_rx out) i) (Fin 0) = false /\
      (In i iu ->
       get (out_rx out) i = Fin 0 /\
       (isNaN (get (res_g args) i) = false ->
        eqv (get (out_ex out) i) (Fin 0))) /\
      (~ In i iu -> get (out_rx out) i = abs (get (out_z out) i)) /\
      (isfinite (get (res_g args) i) = true ->
       isNaN (get (out_rx out) i) = false ->
       leb (get (out_ex out) i) (get (out_rx out) i) = true).
Proof.
  intros self chk args out H iu.
  destruct (residuals_fields self chk args out H)
    as (Hg & Hz & Hlrx & Hlex & Hat).
  fold iu in Hat.
  split; [ exact Hlrx | ]. split; [ exact Hlex | ].
  split; [ rewrite Hz; apply length_instability | ].
  intros i Hi. destruct (Hat i Hi) as (Hrx & Hex).
  assert (Hneg : ltb (get (out_rx out) i) (Fin 0) = false).
  { rewrite Hrx. destruct (memb i iu);
      [ reflexivity | apply abs_not_negative ]. }
  split; [ rewrite Hz; apply get_instability; exact Hi | ].
  split; [ exact Hneg | ]. split; [ | split ].
  - intros Hin. apply memb_In in Hin.
    rewrite Hin in Hrx. split; [ exact Hrx | ].
    intros Hnan. rewrite Hex, Hrx. apply zero_relative_error.
    exact Hnan.
  - intros Hnin. rewrite Hrx.
    destruct (memb i iu) eqn:E; [ | reflexivity ].
    apply memb_In in E. contradiction.
  - intros Hfin Hnan. rewrite Hex.
    apply relative_error_below_residual; assumption.
Qed.

(** X16.  [steepestDescentLagrange] writes the direction
    [dx = -(g + tr(W) y)] with a zero for every unstable variable, and
    [dy = (-(A x - b), -h)]; the optimality residual that [residuals]
    computes from the same [g] and [y] is the absolute value of this
    direction, for every variable. *)
Theorem steepest_descent_matches_residuals :
  forall (self : Impl) chk rargs out dargs dx dy,
    residuals' self chk rargs = Some out ->
    steepestDescentLagrange' self chk dargs = Some (dx, dy) ->
    res_g rargs = sd_g dargs ->
    res_y rargs = sd_y dargs ->
    let iu := indicesUnstableVariables (stbchecker_stability chk) in
    length dx = n self /\
    (forall i, i < n self ->
       (In i iu -> get dx i = Fin 0) /\
       (~ In i iu -> get dx i = neg (get (out_z out) i)) /\
       get (out_rx out) i = abs (get dx i)) /\
    length dy = length (sd_dy dargs) /\
    (length (sd_dy dargs) = ml self + mn self ->
     (forall r, r < ml self ->
        get dy r
        = neg (sub (mulvec_coeff (topRows (W self) (ml self))
                      (sd_x dargs) r)
                   (get (sd_b dargs) r))) /\
     (forall k, k < mn self ->
        get dy (ml self + k) = neg (get (sd_h dargs) k))).
Proof.
  intros self chk rargs out dargs dx dy Hres Hsd Hg Hy iu.
  destruct (residuals_fields self chk rargs out Hres)
    as (_ & Hz & _ & _ & Hat).
  fold iu in Hat. rewrite Hg, Hy in Hz.
  unfold steepestDescentLagrange in Hsd.
  destruct (_ && _) eqn:Esz; cbn [negb] in Hsd; [ | discriminate Hsd ].
  inversion Hsd; subst dx dy; clear Hsd. fold iu.
  set (z := instability self (sd_g dargs) (sd_y dargs)) in *.
  assert (Hlz : length z = n self) by apply length_instability.
  split; [ rewrite length_fillAt, length_map; exact Hlz | ].
  split; [ | split ].
  - intros i Hi. destruct (Hat i Hi) as (Hrx & _).
    rewrite get_fillAt by (rewrite length_map; lia).
    rewrite get_map by lia. rewrite Hz in Hrx.
    split; [ | split ].
    + intros Hin. apply memb_In in Hin. rewrite Hin. reflexivity.
    + intros Hnin. rewrite Hz.
      destruct (memb i iu) eqn:E; [ | reflexivity ].
      apply memb_In in E. contradiction.
    + rewrite Hrx. destruct (memb i iu); [ reflexivity | ].
      symmetry. apply abs_neg.
  - rewrite length_map, length_seq. reflexivity.
  - intros Hlen. split.
    + intros r Hr.
      rewrite (get_map_seq _ (length (sd_dy dargs))) by lia.
      replace (length (sd_dy dargs) - mn self <=? r) with false
        by (symmetry; apply Nat.leb_gt; lia).
      rewrite (get_map_seq _ (length (sd_dy dargs))) by lia.
      replace (r <? ml self) with true
        by (symmetry; apply Nat.ltb_lt; exact Hr).
      reflexivity.
    + intros k Hk.
      rewrite (get_map_seq _ (length (sd_dy dargs))) by lia.
      replace (length (sd_dy dargs) - mn self <=? ml self + k) with true
        by (symmetry; apply Nat.leb_le; lia).
      f_equal. f_equal. lia.
Qed.

End Proofs.

End StepperFacts.

(* ================================================================== *)
(** ** NewtonStep: what the projection does not repair *)
(* ================================================================== *)

Module NewtonStepFacts.

Import Dbl DblFacts.
Local Open Scope nat_scope.

Lemma ltb_below_trans :
  forall u l t,
    ltb u l = true -> ltb t l = false -> isNaN t = false ->
    ltb u t = true.
Proof.
  intros [| |u|] [| |l|] [| |t|] H1 H2 H3; cbn in *;
    try discriminate; try reflexivity.
  apply Qltb_lt in H1. apply Qltb_ge in H2. apply Qltb_lt.
  eapply Qlt_le_trans; eassumption.
Qed.

Lemma clamp_nan : forall l u, min (max NaN l) u = NaN.
Proof. intros [| |l|] [| |u|]; reflexivity. Qed.

Lemma clamp_crossed :
  forall t l u,
    isNaN t = false -> ltb u l = true -> min (max t l) u = u.
Proof.
  intros t l u Ht Hul. unfold max.
  destruct (ltb t l) eqn:E; unfold min.
  - rewrite Hul. reflexivity.
  - rewrite (ltb_below_trans u l t Hul E Ht). reflexivity.
Qed.

Lemma clamp_nan_bounds : forall t, min (max t NaN) NaN = t.
Proof. intros [| |t|]; reflexivity. Qed.

Section Proofs.

Variables LinearSolver CanonicalMatrixView CanonicalVectorView : Type.
Variable linearsolver_solve :
  LinearSolver -> CanonicalMatrixView -> CanonicalVectorView ->
  LinearSolver * NewtonStep.MasterVector.


End Proofs.

End NewtonStepFacts.

(* ================================================================== *)
(** ** LU: the rank of a zero diagonal *)
(* ================================================================== *)

Module LUFacts.

Import Dbl Dense DblFacts DblSpec RankSpec.
Local Open Scope nat_scope.

Lemma abs_magnitude :
  forall d, isfinite d = true -> magnitude (abs d).
Proof.
  intros [| |x|] H; try discriminate H.
  exists (Qabs x). split; [ reflexivity | apply Qabs_nonneg ].
Qed.

(** The maximum of finite numbers is one of them, and the largest. *)
Lemma fold_max_finite :
  forall D m,
    (forall d, In d D -> magnitude d) ->
    exists M,
      fold_left max D (Fin m) = Fin M /\
      In (Fin M) (Fin m :: D) /\
      (m <= M)%Q /\
      (forall q, In (Fin q) D -> (q <= M)%Q).
Proof.
  induction D as [|d D IH]; intros m Hall.
  - exists m. cbn. split; [ reflexivity | ].
    split; [ left; reflexivity | ].
    split; [ apply Qle_refl | intros q [] ].
  - destruct (Hall d (or_introl eq_refl)) as (x & -> & Hx).
    cbn [fold_left]. unfold max at 2. cbn [ltb].
    destruct (Qltb m x) eqn:E.
    + apply Qltb_lt in E.
      destruct (IH x (fun d Hd => Hall d (or_intror Hd)))
        as (M & HM & Hin & Hle & Hmax).
      exists M. split; [ exact HM | ]. split.
      * right. exact Hin.
      * split; [ lra | ].
        intros q [Hq|Hq].
        -- inversion Hq; subst. exact Hle.
        -- apply Hmax. exact Hq.
    + apply Qltb_ge in E.
      destruct (IH m (fun d Hd => Hall d (or_intror Hd)))
        as (M & HM & Hin & Hle & Hmax).
      exists M. split; [ exact HM | ]. split.
      * destruct Hin as [Hin|Hin];
          [ left; exact Hin | right; right; exact Hin ].
      * split; [ exact Hle | ].
        intros q [Hq|Hq].
        -- inversion Hq; subst. lra.
        -- apply Hmax. exact Hq.
Qed.

Lemma maxCoeff_finite :
  forall D,
    D <> [] ->
    (forall d, In d D -> magnitude d) ->
    exists M,
      LU.maxCoeff D = Fin M /\ In (Fin M) D /\ (0 <= M)%Q /\
      (forall q, In (Fin q) D -> (q <= M)%Q).
Proof.
  intros [|d D] Hne Hall; [ contradiction | ].
  destruct (Hall d (or_introl eq_refl)) as (x & -> & Hx).
  cbn [LU.maxCoeff].
  destruct (fold_max_finite D x (fun d Hd => Hall d (or_intror Hd)))
    as (M & HM & Hin & Hle & Hmax).
  exists M. split; [ exact HM | ]. split; [ exact Hin | ].
  split; [ lra | ].
  intros q [Hq|Hq].
  - inversion Hq; subst. exact Hle.
  - apply Hmax. exact Hq.
Qed.

(** The trailing inspection of a diagonal of magnitudes: the rank is
    zero exactly when every entry is zero. *)
Lemma trailing_rank_zero :
  forall D n r,
    length D = n ->
    (forall i, i < n -> magnitude (get D i)) ->
    (inject_Z (Z.of_nat n) * epsilon < 1)%Q ->
    trailing_rank D (LU.decompose_threshold D n) n r ->
    (r = 0 <-> forall i, i < n -> eqv (get D i) (Fin 0)).
Proof.
  intros D n r Hlen Hmag Hn (Hr & Htail & Hhead).
  destruct n as [|n'].
  - split; [ intros _ i Hi; lia | intros _; lia ].
  - set (n := S n') in *.
    assert (Hne : D <> []) by (destruct D; [ discriminate Hlen | discriminate ]).
    assert (Hall : forall d, In d D -> magnitude d).
    { intros d Hd. destruct (In_nth D d NaN Hd) as (i & Hi & <-).
      apply Hmag. lia. }
    destruct (maxCoeff_finite D Hne Hall) as (M & HM & Hin & HM0 & Hmax).
    unfold LU.decompose_threshold in Htail, Hhead.
    rewrite HM in Htail, Hhead. cbn [mul] in Htail, Hhead.
    set (c := inject_Z (Z.of_nat n)) in *.
    split.
    + intros ->.
      assert (HMz : (M == 0)%Q).
      { destruct (In_nth D (Fin M) NaN Hin) as (k & Hk & Hget).
        pose proof (Htail k (Nat.le_0_l k) ltac:(lia)) as Hle.
        unfold get in Hle. rewrite Hget in Hle. cbn [leb] in Hle.
        apply Qle_bool_iff in Hle.
        destruct (Qlt_le_dec 0 M) as [Hpos|Hnp]; [ | lra ].
        exfalso.
        assert (M * epsilon * c < M)%Q; [ | lra ].
        assert (H1 : (M * epsilon * c == M * (c * epsilon))%Q) by ring.
        rewrite H1.
        setoid_replace M with (M * 1)%Q at 2 by ring.
        apply Qmult_lt_l; assumption. }
      intros i Hi. destruct (Hmag i Hi) as (q & Hq & Hq0).
      rewrite Hq. cbn.
      assert (q <= M)%Q.
      { apply Hmax. rewrite <- Hq. apply nth_In. lia. }
      lra.
    + intros Hzero.
      destruct r as [|r']; [ reflexivity | exfalso ].
      pose proof (Hhead ltac:(lia)) as Hgt.
      cbn [Nat.sub] in Hgt. rewrite Nat.sub_0_r in Hgt.
      destruct (Hmag r' ltac:(lia)) as (q & Hq & Hq0).
      pose proof (Hzero r' ltac:(lia)) as Hz.
      rewrite Hq in Hgt, Hz. cbn in Hz. cbn [leb] in Hgt.
      assert (HMz : (M == 0)%Q).
      { destruct (In_nth D (Fin M) NaN Hin) as (k & Hk & Hget).
        pose proof (Hzero k ltac:(lia)) as Hzk.
        unfold get in Hzk. rewrite Hget in Hzk. cbn in Hzk. exact Hzk. }
      assert (Hle : Qle_bool q (M * epsilon * c) = true).
      { apply Qle_bool_iff. rewrite Hz, HMz. lra. }
      rewrite Hle in Hgt. discriminate Hgt.
Qed.

Section Proofs.

Variable eigen_compute : Matrix double -> LU.PartialPivLU.
Variable applyThisOnTheLeft :
  list nat -> Matrix double -> Matrix double.
Variable solveUnitLower : Matrix double -> Matrix double -> Matrix double.
Variable solveUpper : Matrix double -> Matrix double -> Matrix double.

(** X20.  For a factorization with a finite diagonal and fewer than
    [2^52] columns, [decompose] reports the rank 0 exactly when the
    diagonal of [U] is zero; [solve] then answers with a NaN in every
    coefficient of [X]. *)
Theorem rank_zero_iff_zero_diagonal :
  forall A impl,
    LU.decompose eigen_compute A = Some impl ->
    let U := LU.matrixLU (eigen_compute A) in
    rows U = rows A -> cols U = cols A ->
    (forall i, i < cols A -> isfinite (coeff U i i) = true) ->
    (inject_Z (Z.of_nat (cols A)) * epsilon < 1)%Q ->
    (LU.rank impl = 0 <->
     forall i, i < cols A -> eqv (coeff U i i) (Fin 0)) /\
    (LU.rank impl = 0 ->
     forall X X',
       LU.solve applyThisOnTheLeft solveUnitLower solveUpper impl X
         = Some X' ->
       forall i j, i < rows X -> coeff X' i j = NaN).
Proof.
  intros A impl Hdec U Hrows Hcols Hfin Hn.
  destruct (@RankProofs.LU_decompose_rank eigen_compute A impl Hdec)
    as (Hsq & Hlu & Htr).
  fold U in Htr.
  set (D := map abs (diagonal U)) in *.
  assert (Hlen : length D = cols A).
  { unfold D, diagonal. rewrite !length_map, length_seq.
    rewrite Hrows, Hcols, Hsq. apply Nat.min_id. }
  assert (HD : forall i, i < cols A -> get D i = abs (coeff U i i)).
  { intros i Hi. unfold D, diagonal. rewrite map_map.
    rewrite Hrows, Hcols, Hsq, Nat.min_id.
    apply (StepperFacts.get_map_seq
             (fun k => abs (coeff U k k)) (cols A) i Hi). }
  assert (Hmag : forall i, i < cols A -> magnitude (get D i)).
  { intros i Hi. rewrite HD by exact Hi.
    apply abs_magnitude. apply Hfin. exact Hi. }
  pose proof (trailing_rank_zero D (cols A) (LU.rank impl) Hlen Hmag
                Hn Htr) as Hiff.
  split.
  - rewrite Hiff. split; intros Hz i Hi.
    + pose proof (Hz i Hi) as Hzi. rewrite HD in Hzi by exact Hi.
      pose proof (Hfin i Hi) as Hf.
      destruct (coeff U i i) as [| |x|]; try discriminate Hf.
      cbn in Hzi |- *.
      destruct (Qlt_le_dec x 0) as [Hneg|Hpos].
      * rewrite Qabs_neg in Hzi by lra. lra.
      * rewrite Qabs_pos in Hzi by exact Hpos. exact Hzi.
    + rewrite HD by exact Hi.
      pose proof (Hz i Hi) as Hzi.
      pose proof (Hfin i Hi) as Hf.
      destruct (coeff U i i) as [| |x|]; try discriminate Hf.
      cbn in Hzi |- *. rewrite Hzi. reflexivity.
  - intros Hr0 X X' Hsolve i j Hi.
    unfold LU.solve in Hsolve.
    destruct (rows (LU.matrixLU (LU.lu impl)) =? rows X) eqn:E;
      cbn [negb] in Hsolve; [ | discriminate Hsolve ].
    apply Nat.eqb_eq in E.
    inversion Hsolve; subst X'; clear Hsolve. cbn.
    rewrite Hr0, Nat.sub_0_r, E, Nat.sub_diag. reflexivity.
Qed.

End Proofs.

End LUFacts.

(* ================================================================== *)
(** ** The facts at the runs *)
(* ================================================================== *)

Module RunFacts.

Import Dense Examples Runs ExampleFacts.
Import EchelonizerSpec EchelonizerUse.
Local Open Scope nat_scope.

(** *** BasicSolver *)

(** The run of [solved_one] evaluates the objective twice. *)
Lemma evaluation_counts_of_one_variable :
  BasicSolverUse.count_objective
    (BasicSolver.evals (fst (fst solved_one)))
    = BasicSolverUse.count_objective
        (BasicSolver.evals (solver_of problem_one))
      + BasicSolver.iterations (snd solved_one) /\
  BasicSolverUse.count_constraint
    (BasicSolver.evals (fst (fst solved_one)))
    = BasicSolverUse.count_constraint
        (BasicSolver.evals (solver_of problem_one))
      + (if BasicSolver.mh (solver_of problem_one) =? 0 then 0 else 1).
Proof.
  apply (BasicSolverFacts.solve_evaluation_counts unit stepper_decompose
           stepper_solve (solver_of problem_one) params_one state_one
           (fst (fst solved_one)) (snd (fst solved_one))
           (snd solved_one)).
  - vm_compute. discriminate.
  - vm_compute. reflexivity.
Defined.


Lemma conservative_run_keeps_state :
  snd (fst solved_conservative) = snd initialized_conservative.
Proof.
  apply (BasicSolverFacts.solve_without_aggressive_step_keeps_state
           unit stepper_decompose stepper_solve solver_conservative
           params_one state_one (fst initialized_conservative)
           (snd initialized_conservative)
           (fst (fst solved_conservative))
           (snd (fst solved_conservative)) (snd solved_conservative)).
  - vm_compute. discriminate.
  - vm_compute. discriminate.
  - vm_compute. reflexivity.
  - vm_compute. reflexivity.
Defined.

Lemma far_starting_point_is_projected :
  length (BasicSolver.state_x (snd initialized_far)) = 1 /\
  BasicSolverSpec.within_bounds
    (BasicSolver.xlower (fst initialized_far))
    (BasicSolver.xupper (fst initialized_far))
    (BasicSolver.state_x (snd initialized_far)) /\
  (forall i, i < 1 -> ~ In i [] ->
     BasicSolverSpec.projected
       (BasicSolver.xlower (fst initialized_far))
       (BasicSolver.xupper (fst initialized_far))
       (BasicSolver.state_x state_far)
       (BasicSolver.state_x (snd initialized_far)) i) /\
  BasicSolver.state_y (snd initialized_far)
    = BasicSolver.state_y state_far /\
  BasicSolver.evals (fst initialized_far)
    = BasicSolver.evals (solver_of problem_one)
      ++ [BasicSolver.EvalObjective
            (BasicSolver.state_x (snd initialized_far))]
      ++ [].
Proof.
  apply (BasicSolverFacts.initialize_projects_starting_point unit
           stepper_decompose stepper_solve (solver_of problem_one)
           params_one state_far (fst initialized_far)
           (snd initialized_far)).
  - reflexivity.
  - intros i Hi. below1 i Hi. reflexivity.
  - intros i Hi. below1 i Hi. reflexivity.
  - intros i Hi Hn. below1 i Hi.
    exfalso. apply Hn. cbn. left. reflexivity.
  - intros i Hi Hn. below1 i Hi.
    exfalso. apply Hn. cbn. left. reflexivity.
  - intros i a [].
Defined.

Lemma fixed_variable_of_two :
  BasicSolverUse.fixed_at [1] [Dbl.Fin 3]
    (BasicSolver.state_x (snd (fst solved_fixed))) /\
  length (BasicSolver.state_x (snd (fst solved_fixed))) = 2.
Proof.
  apply (BasicSolverFacts.solve_keeps_fixed_variables unit
           stepper_decompose stepper_solve_sized
           (fun st x y b h g => length_map Dbl.neg x)
           solver_fixed params_fixed state_two
           (fst (fst solved_fixed)) (snd (fst solved_fixed))
           (snd solved_fixed)).
  - vm_compute. discriminate.
  - repeat constructor. intros [].
  - vm_compute. reflexivity.
  - intros i [<-|[]]. vm_compute. lia.
  - vm_compute. reflexivity.
Defined.

Lemma unit_steps_finite :
  forall x : Dbl.Vector,
    forallb Dbl.isfinite (map (fun _ => Dbl.Fin (-1)) x) = true.
Proof. induction x as [|a x IH]; [ reflexivity | exact IH ]. Qed.

Lemma bounded_run_of_one_variable :
  BasicSolver.xlower (fst (fst solved_bounded))
    = BasicSolver.assignAt (Dbl.constants 1 Dbl.NInf) [0] [Dbl.Fin 0] /\
  BasicSolver.xupper (fst (fst solved_bounded))
    = BasicSolver.assignAt (Dbl.constants 1 Dbl.PInf) [0] [Dbl.Fin 1] /\
  length (BasicSolver.state_x (snd (fst solved_bounded))) = 1 /\
  (forall i, i < 1 -> ~ In i [] ->
     Dbl.leb
       (Dbl.get (BasicSolver.assignAt (Dbl.constants 1 Dbl.NInf) [0]
                   [Dbl.Fin 0]) i)
       (Dbl.get (BasicSolver.state_x (snd (fst solved_bounded))) i)
       = true /\
     Dbl.leb
       (Dbl.get (BasicSolver.state_x (snd (fst solved_bounded))) i)
       (Dbl.get (BasicSolver.assignAt (Dbl.constants 1 Dbl.PInf) [0]
                   [Dbl.Fin 1]) i)
       = true).
Proof.
  apply (SolverBoundsFacts.solve_returns_point_within_bounds unit
           stepper_decompose stepper_solve_unit
           (fun st x y b h g =>
              conj (length_map (fun _ => Dbl.Fin (-1)) x)
                   (unit_steps_finite x))
           problem_one tt options_default (solver_of problem_one)
           params_one state_far (fst (fst solved_bounded))
           (snd (fst solved_bounded)) (snd solved_bounded)).
  - reflexivity.
  - vm_compute. discriminate.
  - reflexivity.
  - intros i Hi. below1 i Hi. reflexivity.
  - intros i Hi. below1 i Hi. reflexivity.
  - vm_compute. reflexivity.
Defined.

(** *** LU *)

Lemma rank_of_zero_matrix :
  (LU.rank lu_of_zero = 0 <->
   forall i, i < 2 ->
     DblSpec.eqv (coeff (LU.matrixLU (partialPivLU_trivial A_zero)) i i)
       (Dbl.Fin 0)) /\
  (LU.rank lu_of_zero = 0 ->
   forall X X',
     LU.solve permute_identity solve_identity solve_diagonal lu_of_zero X
       = Some X' ->
     forall i j, i < rows X -> coeff X' i j = Dbl.NaN).
Proof.
  apply (LUFacts.rank_zero_iff_zero_diagonal partialPivLU_trivial
           permute_identity solve_identity solve_diagonal A_zero
           lu_of_zero).
  - reflexivity.
  - reflexivity.
  - reflexivity.
  - intros i Hi. below2 i Hi; reflexivity.
  - vm_compute. reflexivity.
Defined.

(** *** ResidualFunction *)

Lemma priority_weights_of_two :
  length (ResidualFunction.wx (snd (rf_after_ok true))) = 2 /\
  forall i, i < 2 ->
    let x := Dbl.get (ResidualFunction.u_x rf_u_two) i in
    let l := Dbl.get (ResidualFunction.xlower rf_problem_ok) i in
    let up := Dbl.get (ResidualFunction.xupper rf_problem_ok) i in
    let w := Dbl.get (ResidualFunction.wx (snd (rf_after_ok true))) i in
    (Dbl.gtb w (Dbl.Fin 0) = true \/ w = Dbl.Fin (-1)) /\
    (forall q a b,
        x = Dbl.Fin q -> l = Dbl.Fin a -> up = Dbl.Fin b ->
        (a < q)%Q -> (q < b)%Q ->
        DblSpec.eqv w (Dbl.Fin (Qmin (q - a) (b - q)))) /\
    (forall q a,
        x = Dbl.Fin q -> l = Dbl.Fin a -> up = Dbl.PInf -> (a < q)%Q ->
        w = Dbl.Fin (q - a)) /\
    (forall q b,
        x = Dbl.Fin q -> l = Dbl.NInf -> up = Dbl.Fin b -> (q < b)%Q ->
        w = Dbl.Fin (b - q)) /\
    (forall q,
        x = Dbl.Fin q -> Dbl.leb l x = true -> Dbl.leb x up = true ->
        DblSpec.eqv l x \/ DblSpec.eqv up x -> w = Dbl.Fin (-1)) /\
    (forall q,
        x = Dbl.Fin q -> l = Dbl.NInf -> up = Dbl.PInf ->
        w = if Qeq_bool q 0 then Dbl.Fin (-1) else Dbl.Fin (Qabs q)).
Proof.
  apply (ResidualFunctionFacts.update_priority_weights unit unit unit
           unit unit rf_jb rf_RWQ_update rf_asMatrixViewW
           rf_Stability2_update rf_Stability2_status
           rf_CanonicalMatrix_update rf_ResidualVector_update true
           rf_status0 rf_impl_two rf_problem_ok rf_u_two
           (fst (rf_after_ok true)) (snd (rf_after_ok true))).
  - reflexivity.
  - reflexivity.
Defined.


Lemma update_order_of_two :
  fst (rf_after_ok true) = ResidualFunction.mkStatus true true true /\
  ResidualFunction.calls (snd (rf_after_ok true))
    = [ResidualFunction.CallF; ResidualFunction.CallH;
       ResidualFunction.CallV].
Proof.
  pose proof
    (ResidualFunctionFacts.update_success_order unit unit unit
       unit unit rf_jb rf_RWQ_update rf_asMatrixViewW
       rf_Stability2_update rf_Stability2_status
       rf_CanonicalMatrix_update rf_ResidualVector_update true
       rf_status0 rf_impl_two rf_problem_ok rf_u_two
       (fst (rf_after_ok true)) (snd (rf_after_ok true))
       eq_refl eq_refl) as H.
  split; [ exact (proj1 H) | exact (proj1 (proj2 H)) ].
Defined.

Lemma skip_agrees_of_two : rf_update_ok false = rf_update_ok true.
Proof.
  apply (ResidualFunctionFacts.updateSkipJacobian_agrees_with_update
           unit unit unit unit unit rf_jb rf_RWQ_update rf_asMatrixViewW
           rf_Stability2_update rf_Stability2_status
           rf_CanonicalMatrix_update rf_ResidualVector_update
           rf_status0 rf_impl_two rf_problem_ok rf_u_two).
  - intros cf r x p ib H. injection H as <-. reflexivity.
  - intros ch r x p ib H. injection H as <-. reflexivity.
  - intros cv r x p ib H. injection H as <-. reflexivity.
Defined.

(** *** Echelonizer *)

(** A call that returns, returns [the] result. *)
Lemma the_result :
  forall o : option E.Impl,
    match o with Some _ => true | None => false end = true ->
    o = Some (the o).
Proof.
  intros [s|] H; [ reflexivity | discriminate H ].
Qed.

Lemma reset_after_updates_of_wide :
  E.R (E.reset ech_wide_updated) = E.R ech_wide /\
  E.S (E.reset ech_wide_updated) = E.S ech_wide /\
  E.Q (E.reset ech_wide_updated) = E.Q ech_wide /\
  E.lu (E.reset ech_wide_updated) = E.lu ech_wide /\
  (canonical_identity ech_wide A_wide ->
   canonical_identity (E.reset ech_wide_updated) A_wide).
Proof.
  apply (EchelonizerFacts.reset_restores_computed_form
           (fun _ => lu_wide) insertion_sort E.Impl_default A_wide
           ech_wide updates_wide ech_wide_updated).
  - reflexivity.
  - apply the_result. vm_compute. reflexivity.
Defined.


Lemma reordering_of_wide :
  (Permutation [1; 0] (seq 0 2) ->
   Permutation [0] (seq 0 (3 - 2)) ->
   exists self',
     E.updateOrdering ech_wide [1; 0] [0] = Some self' /\
     canonical self' A_wide /\
     (forall p, p < 2 ->
        E.at_ (E.Q self') p = E.at_ (E.Q ech_wide) (E.at_ [1; 0] p)) /\
     (forall j, j < 3 - 2 ->
        E.at_ (E.Q self') (2 + j)
        = E.at_ (E.Q ech_wide) (2 + E.at_ [0] j)) /\
     (forall i j, i < 2 ->
        coeff (E.S self') i j
        = coeff (E.S ech_wide) (E.at_ [1; 0] i) (E.at_ [0] j)) /\
     E.Kb self' = E.Kb ech_wide /\ E.Kn self' = E.Kn ech_wide) /\
  (length [1; 0] <> 2 \/ length [0] <> 3 - 2 ->
   E.updateOrdering ech_wide [1; 0] [0] = None).
Proof.
  apply (EchelonizerFacts.updateOrdering_reorders_canonical_form
           ech_wide A_wide [1; 0] [0]).
  exact canonical_wide.
Defined.


Lemma equations_of_wide :
  E.P ech_wide = E.permutationP lu_wide /\
  length (E.indicesEquations ech_wide) = 2 /\
  forall i, i < 2 ->
    E.at_ (E.indicesEquations ech_wide) (E.at_ (E.P ech_wide) i) = i.
Proof.
  apply (EchelonizerFacts.indicesEquations_inverts_P
           (fun _ => lu_wide) E.Impl_default A_wide ech_wide).
  - reflexivity.
  - vm_compute. apply (Permutation_rev [1; 0]).
Defined.

(** *** Stepper *)

Lemma residuals_of_two :
  length (Stepper.out_rx residuals_two) = 2 /\
  length (Stepper.out_ex residuals_two) = 2 /\
  length (Stepper.out_z residuals_two) = 2 /\
  forall i, i < 2 ->
    Dbl.get (Stepper.out_z residuals_two) i
      = Dbl.add (Dbl.get (Stepper.res_g residuals_args_two) i)
          (Stepper.trmul_vec (Stepper.W stepper_residuals)
             (Stepper.res_y residuals_args_two) i) /\
    Dbl.ltb (Dbl.get (Stepper.out_rx residuals_two) i) (Dbl.Fin 0)
      = false /\
    (In i [1] ->
     Dbl.get (Stepper.out_rx residuals_two) i = Dbl.Fin 0 /\
     (Dbl.isNaN (Dbl.get (Stepper.res_g residuals_args_two) i) = false ->
      DblSpec.eqv (Dbl.get (Stepper.out_ex residuals_two) i)
        (Dbl.Fin 0))) /\
    (~ In i [1] ->
     Dbl.get (Stepper.out_rx residuals_two) i
       = Dbl.abs (Dbl.get (Stepper.out_z residuals_two) i)) /\
    (Dbl.isfinite (Dbl.get (Stepper.res_g residuals_args_two) i) = true ->
     Dbl.isNaN (Dbl.get (Stepper.out_rx residuals_two) i) = false ->
     Dbl.leb (Dbl.get (Stepper.out_ex residuals_two) i)
       (Dbl.get (Stepper.out_rx residuals_two) i) = true).
Proof.
  apply (StepperFacts.residuals_of_stable_and_unstable_variables
           unit Stepper.Stability (fun c => c) spsolver_residuals_zero
           stepper_residuals checker_two residuals_args_two
           residuals_two).
  reflexivity.
Defined.

Lemma descent_of_two :
  length (fst descent_two) = 2 /\
  (forall i, i < 2 ->
     (In i [1] -> Dbl.get (fst descent_two) i = Dbl.Fin 0) /\
     (~ In i [1] ->
      Dbl.get (fst descent_two) i
        = Dbl.neg (Dbl.get (Stepper.out_z residuals_two) i)) /\
     Dbl.get (Stepper.out_rx residuals_two) i
       = Dbl.abs (Dbl.get (fst descent_two) i)) /\
  length (snd descent_two) = 1 /\
  (1 = 1 + 0 ->
   (forall r, r < 1 ->
      Dbl.get (snd descent_two) r
      = Dbl.neg
          (Dbl.sub
             (Stepper.mulvec_coeff
                (topRows (Stepper.W stepper_residuals) 1)
                (Stepper.sd_x descent_args_two) r)
             (Dbl.get (Stepper.sd_b descent_args_two) r))) /\
   (forall k, k < 0 ->
      Dbl.get (snd descent_two) (1 + k)
      = Dbl.neg (Dbl.get (Stepper.sd_h descent_args_two) k))).
Proof.
  apply (StepperFacts.steepest_descent_matches_residuals
           unit Stepper.Stability (fun c => c) spsolver_residuals_zero
           stepper_residuals checker_two residuals_args_two
           residuals_two descent_args_two (fst descent_two)
           (snd descent_two)).
  - reflexivity.
  - reflexivity.
  - reflexivity.
  - reflexivity.
Defined.

(** *** NewtonStep *)


End RunFacts.
